(** * phaseSyncedSettle: phase-synchronised settle-all of asynchronous jobs

    A shallow embedding of [js/phaseSyncedSettle.js] and of the part of the
    JavaScript run time it leans on (event emitters, promises, the job
    queue of the event loop), followed by the properties of the coordinator.

    The program is single threaded: a job runs from one suspension point to
    the next without interruption, and every handler of an emitted event
    runs synchronously inside the [emit] call.  One such uninterrupted
    stretch is one [step]; the order in which the event loop resumes the
    jobs is a schedule, and the properties are proved for every schedule. *)

From stdpp Require Import base tactics option list gmap.
From Stdlib Require Import ZArith Lia.

(** ** Data *)

(** Identifiers ([uuidv1()]), array references and job values are opaque
    tokens; the program only compares identifiers for equality. *)
Abbreviation Id := nat (only parsing).
Abbreviation Ref := nat (only parsing).
Abbreviation Val := nat (only parsing).

(** An element of an argument array: a PhaseSyncer object (by its
    allocation index) or any other datum. *)
Inductive Value :=
  | VSyncer (ix : nat)
  | VData (n : nat).

(** What p-settle reports for one promise. *)
Inductive Result :=
  | Fulfilled (v : Val)
  | Rejected (e : Val).

(** The body of an async job function, as the sequence of things it does
    that the coordinator can tell apart: synchronous work, a suspension on
    some outside promise, a suspension on [phase()], and the way it ends. *)
Inductive Job :=
  | Return (v : Val)
  | Throw (e : Val)
  | Work (w : nat) (k : Job)
  | Await (k : Job)
  | AwaitPhase (k : Job).

(** The promise chain [pFinally(fun(...args), () => emit('jobDone'))] of a
    job: the async function is due to resume with [k] ([Runnable]), it is
    suspended on the promise [phase()] gave it ([Waiting]), the function
    has settled and the [onFinally] callback is due ([Settled]), or the
    callback has run and [jobPromise] is settled ([Finished]). *)
Inductive Status :=
  | Runnable (k : Job)
  | Waiting (k : Job)
  | Settled (r : Result)
  | Finished (r : Result).

(** A PhaseSyncer object.  [jobEmitter] is the number of ['ready']
    listeners that [pEvent] has armed on the private emitter and that have
    not fired yet. *)
Record PhaseSyncer := mkPhaseSyncer {
  id : Id;
  phaseCntr : nat;
  jobEmitter : nat;
  jobPromise : Status
}.

(** What can be observed of a run.  [ObsWork] carries the phase counter the
    job had when it did the work; [ObsPhaseStart] marks a call of
    [startNewPhase] with its snapshot of [jobs]; [ObsArm] marks the
    [pEvent] call of [phase()]. *)
Inductive Obs :=
  | ObsInvoke (i : Id) (args : list Value)
  | ObsWork (i : Id) (cntr : nat) (w : nat)
  | ObsArm (i : Id)
  | ObsStepDone (i : Id) (stepnr : nat)
  | ObsJobDone (i : Id)
  | ObsPhaseStart (snapshot : list Id)
  | ObsReady (i : Id).

Global Instance Value_eq_dec : EqDecision Value.
Proof. solve_decision. Defined.
Global Instance Obs_eq_dec : EqDecision Obs.
Proof. solve_decision. Defined.

(** The closure state of one call of the exported function, the objects it
    allocated, the caller's arrays, and the observations so far (newest
    first). *)
Record State := mkState {
  concurrency : Z;
  handlers : bool;
  syncers : list PhaseSyncer;
  jobMap : list (Id * nat);
  jobs : list Id;
  queuedJobs : list Id;
  phasePendingJobs : list Id;
  heap : gmap Ref (list Value);
  trace : list Obs
}.

Definition set_handlers (b : bool) (s : State) : State :=
  mkState (concurrency s) b (syncers s) (jobMap s) (jobs s) (queuedJobs s)
          (phasePendingJobs s) (heap s) (trace s).
Definition set_syncers (l : list PhaseSyncer) (s : State) : State :=
  mkState (concurrency s) (handlers s) l (jobMap s) (jobs s) (queuedJobs s)
          (phasePendingJobs s) (heap s) (trace s).
Definition set_jobMap (m : list (Id * nat)) (s : State) : State :=
  mkState (concurrency s) (handlers s) (syncers s) m (jobs s) (queuedJobs s)
          (phasePendingJobs s) (heap s) (trace s).
Definition set_jobs (l : list Id) (s : State) : State :=
  mkState (concurrency s) (handlers s) (syncers s) (jobMap s) l (queuedJobs s)
          (phasePendingJobs s) (heap s) (trace s).
Definition set_queuedJobs (l : list Id) (s : State) : State :=
  mkState (concurrency s) (handlers s) (syncers s) (jobMap s) (jobs s) l
          (phasePendingJobs s) (heap s) (trace s).
Definition set_phasePendingJobs (l : list Id) (s : State) : State :=
  mkState (concurrency s) (handlers s) (syncers s) (jobMap s) (jobs s)
          (queuedJobs s) l (heap s) (trace s).
Definition set_heap (h : gmap Ref (list Value)) (s : State) : State :=
  mkState (concurrency s) (handlers s) (syncers s) (jobMap s) (jobs s)
          (queuedJobs s) (phasePendingJobs s) h (trace s).
Definition record (o : Obs) (s : State) : State :=
  mkState (concurrency s) (handlers s) (syncers s) (jobMap s) (jobs s)
          (queuedJobs s) (phasePendingJobs s) (heap s) (o :: trace s).

(** ** The JavaScript containers the program uses *)

(** A [Set] keeps its elements in insertion order, once each. *)
Definition Set_add (x : Id) (s : list Id) : list Id :=
  if decide (x ∈ s) then s else s ++ [x].
Definition new_Set (l : list Id) : list Id :=
  foldl (λ s x, Set_add x s) [] l.
Definition Set_delete (x : Id) (s : list Id) : list Id :=
  filter (λ y, y ≠ x) s.

(** A [Map] keeps its keys in insertion order; setting a key that is there
    replaces the value and keeps the place. *)
Fixpoint Map_set (k : Id) (v : nat) (m : list (Id * nat)) : list (Id * nat) :=
  match m with
  | [] => [(k, v)]
  | (k', v') :: m' =>
      if decide (k' = k) then (k, v) :: m' else (k', v') :: Map_set k v m'
  end.
Definition new_Map (entries : list (Id * nat)) : list (Id * nat) :=
  foldl (λ m kv, Map_set kv.1 kv.2 m) [] entries.
Fixpoint Map_get (k : Id) (m : list (Id * nat)) : option nat :=
  match m with
  | [] => None
  | (k', v) :: m' => if decide (k' = k) then Some v else Map_get k m'
  end.
Definition Map_keys (m : list (Id * nat)) : list Id := m.*1.
Definition Map_values (m : list (Id * nat)) : list nat := m.*2.

(** [Array.prototype.slice]: a negative index counts from the end, and both
    ends are clamped to the array. *)
Definition rel_index (len : nat) (k : Z) : nat :=
  if decide (k < 0)%Z then Z.to_nat (Z.max (Z.of_nat len + k) 0)
  else Z.to_nat (Z.min k (Z.of_nat len)).
Definition slice {A} (l : list A) (from to : Z) : list A :=
  take (rel_index (length l) to - rel_index (length l) from)
       (drop (rel_index (length l) from) l).
Definition slice_from {A} (l : list A) (from : Z) : list A :=
  drop (rel_index (length l) from) l.

(** ** PhaseSyncer *)

Definition set_jobPromise (st : Status) (h : PhaseSyncer) : PhaseSyncer :=
  mkPhaseSyncer (id h) (phaseCntr h) (jobEmitter h) st.

(** [pEvent(this.jobEmitter, 'ready')]: one more listener. *)
Definition arm (h : PhaseSyncer) : PhaseSyncer :=
  mkPhaseSyncer (id h) (phaseCntr h) (S (jobEmitter h)) (jobPromise h).

(** [this.phaseCntr += 1] *)
Definition incr (h : PhaseSyncer) : PhaseSyncer :=
  mkPhaseSyncer (id h) (S (phaseCntr h)) (jobEmitter h) (jobPromise h).

Definition wake (st : Status) : Status :=
  match st with
  | Waiting k => Runnable k
  | _ => st
  end.

(** [jobEmitter.emit('ready')]: every armed listener fires and is removed;
    the promise of [pEvent] resolves, so a job suspended on it is due to
    resume.  Without a listener the event is lost. *)
Definition fire_ready (h : PhaseSyncer) : PhaseSyncer :=
  match jobEmitter h with
  | 0 => h
  | S _ => mkPhaseSyncer (id h) (phaseCntr h) 0 (wake (jobPromise h))
  end.

(** [await promise], for the promise that [phase()] returned: it is still
    pending exactly when its listener is still armed. *)
Definition await (k : Job) (h : PhaseSyncer) : PhaseSyncer :=
  match jobEmitter h with
  | 0 => set_jobPromise (Runnable k) h
  | S _ => set_jobPromise (Waiting k) h
  end.

(** An update of the object at index [me]. *)
Definition upd (me : nat) (f : PhaseSyncer → PhaseSyncer) (s : State) : State :=
  set_syncers (alter f me (syncers s)) s.

(** ** The coordinator *)

(** [jobMap.get(id).jobEmitter.emit('ready')].  Every identifier the
    coordinator looks up is a key of [jobMap] (lemma [Map_get_jobs]
    below), so the second branch is never taken. *)
Definition emit_ready (i : Id) (s : State) : State :=
  match Map_get i (jobMap s) with
  | Some ix => upd ix fire_ready (record (ObsReady i) s)
  | None => record (ObsReady i) s
  end.

Definition startNewPhase (s : State) : State :=
  let jobList := jobs s in
  let s1 := foldl (λ s i, emit_ready i s) (record (ObsPhaseStart jobList) s)
                  (slice jobList 0 (concurrency s)) in
  let s2 := set_queuedJobs (new_Set (slice_from jobList (concurrency s))) s1 in
  set_phasePendingJobs (new_Set (jobs s2)) s2.

Definition startQueuedJob (s : State) : State :=
  match queuedJobs s with
  | [] => s
  | i :: _ =>
      let s1 := emit_ready i s in
      set_queuedJobs (Set_delete i (queuedJobs s1)) s1
  end.

(** The listener of ['stepDone']. *)
Definition on_stepDone (i : Id) (stepnr : nat) (s : State) : State :=
  let s1 := set_phasePendingJobs (Set_delete i (phasePendingJobs s)) s in
  if decide (length (phasePendingJobs s1) = 0) then startNewPhase s1
  else startQueuedJob s1.

(** The listener of ['jobDone']. *)
Definition on_jobDone (i : Id) (s : State) : State :=
  let s1 := set_jobs (Set_delete i (jobs s)) s in
  let s2 := set_queuedJobs (Set_delete i (queuedJobs s1)) s1 in
  let s3 := set_phasePendingJobs (Set_delete i (phasePendingJobs s2)) s2 in
  if decide (length (phasePendingJobs s3) = 0) then startNewPhase s3
  else startQueuedJob s3.

(** [ctrlEmitter.emit]: the listener runs inside the call, if it has been
    registered. *)
Definition emit_stepDone (i : Id) (stepnr : nat) (s : State) : State :=
  let s1 := record (ObsStepDone i stepnr) s in
  if handlers s then on_stepDone i stepnr s1 else s1.

Definition emit_jobDone (i : Id) (s : State) : State :=
  let s1 := record (ObsJobDone i) s in
  if handlers s then on_jobDone i s1 else s1.

(** ** The job side *)

(** [phase()], called by the job whose object is at index [me].  The
    promise it returns is the one of the listener it arms. *)
Definition phase (me : nat) (s : State) : State :=
  match syncers s !! me with
  | None => s
  | Some this =>
      let s1 := record (ObsArm (id this)) (upd me arm s) in
      let s2 := if decide (0 < phaseCntr this)
                then emit_stepDone (id this) (phaseCntr this) s1 else s1 in
      upd me incr s2
  end.

Definition work (me : nat) (w : nat) (s : State) : State :=
  match syncers s !! me with
  | None => s
  | Some this => record (ObsWork (id this) (phaseCntr this) w) s
  end.

(** The job at [me] runs [k] up to its next suspension or to its end. *)
Fixpoint exec (me : nat) (k : Job) (s : State) : State :=
  match k with
  | Work w k' => exec me k' (work me w s)
  | Await k' => upd me (set_jobPromise (Runnable k')) s
  | AwaitPhase k' => upd me (await k') (phase me s)
  | Return v => upd me (set_jobPromise (Settled (Fulfilled v))) s
  | Throw e => upd me (set_jobPromise (Settled (Rejected e))) s
  end.

(** One turn of the event loop for the job at [me]: the async function
    resumes, or the [onFinally] callback of [pFinally] runs and
    [jobPromise] settles with the outcome of the function. *)
Definition step (me : nat) (s : State) : State :=
  match syncers s !! me with
  | None => s
  | Some this =>
      match jobPromise this with
      | Runnable k => exec me k s
      | Waiting _ => s
      | Settled r => upd me (set_jobPromise (Finished r)) (emit_jobDone (id this) s)
      | Finished _ => s
      end
  end.

Definition run (sched : list nat) (s : State) : State :=
  foldl (λ s me, step me s) s sched.

(** ** The exported function *)

(** A job descriptor [[fun, args]]: the function, as the body it runs on
    given arguments, and the reference of the caller's array. *)
Record Descriptor := mkDescriptor {
  fun_ : list Value → Job;
  args : Ref
}.

(** [new PhaseSyncer(fun, args, ctrlEmitter, debug)] with [uuid] the value
    of [uuidv1()]. *)
Definition construct (uuid : Id) (d : Descriptor) (s : State) : State :=
  let me := length (syncers s) in
  let args' := VSyncer me :: default [] (heap s !! args d) in
  let body := fun_ d args' in
  let s1 := set_syncers (syncers s ++ [mkPhaseSyncer uuid 0 0 (Runnable body)]) s in
  let s2 := set_heap (<[args d := args']> (heap s1)) s1 in
  exec me body (record (ObsInvoke uuid args') s2).

Definition phaseSyncedSettle (uuidv1 : nat → Id) (jobList : list Descriptor)
    (opt_concurrency : option Z) (h : gmap Ref (list Value)) : State :=
  let s0 := mkState (default 1%Z opt_concurrency) false [] [] [] [] [] h [] in
  let s1 := foldl (λ s d, construct (uuidv1 (length (syncers s))) d s) s0 jobList in
  let s2 := set_jobMap (new_Map (imap (λ ix ps, (id ps, ix)) (syncers s1))) s1 in
  let s3 := set_jobs (new_Set (Map_keys (jobMap s2))) s2 in
  let s4 := set_handlers true s3 in
  startNewPhase s4.

(** [pSettle([...jobMap.values()].map(phaseSyncer => phaseSyncer.jobPromise))]:
    p-settle resolves once every promise has settled, with the outcomes in
    the order of its argument; it never rejects. *)
Definition settled (h : PhaseSyncer) : option Result :=
  match jobPromise h with
  | Finished r => Some r
  | _ => None
  end.

Definition pSettle (promises : list (option PhaseSyncer)) : option (list Result) :=
  mapM (λ p, p ≫= settled) promises.

Definition aggregate (s : State) : option (list Result) :=
  pSettle ((λ ix, syncers s !! ix) <$> Map_values (jobMap s)).

(** ** Containers: basic facts *)

Lemma elem_of_Set_delete (i x : Id) (l : list Id) :
  x ∈ Set_delete i l ↔ x ∈ l ∧ x ≠ i.
Proof. unfold Set_delete. rewrite list_elem_of_filter. tauto. Qed.

Lemma NoDup_Set_delete (i : Id) (l : list Id) : NoDup l → NoDup (Set_delete i l).
Proof. apply NoDup_filter. Qed.

Lemma Set_delete_notin (i : Id) (l : list Id) : i ∉ l → Set_delete i l = l.
Proof.
  intros Hi. unfold Set_delete. induction l as [|x l IH]; [done|].
  rewrite filter_cons. rewrite not_elem_of_cons in Hi. destruct Hi as [Hx Hl].
  rewrite decide_True by congruence. by rewrite IH.
Qed.

Lemma Set_delete_head (i : Id) (l : list Id) :
  NoDup (i :: l) → Set_delete i (i :: l) = l.
Proof.
  intros Hnd. apply NoDup_cons in Hnd as [Hi _]. unfold Set_delete.
  rewrite filter_cons, decide_False by tauto. by apply Set_delete_notin.
Qed.

Lemma foldl_Set_add (acc l : list Id) :
  NoDup (acc ++ l) → foldl (λ s x, Set_add x s) acc l = acc ++ l.
Proof.
  revert acc. induction l as [|x l IH]; intros acc Hnd; simpl.
  - by rewrite app_nil_r.
  - assert (x ∉ acc) as Hx.
    { apply NoDup_app in Hnd as (_ & Hd & _). intros Hin.
      apply (Hd x Hin). left. }
    unfold Set_add at 2. rewrite decide_False by done.
    rewrite IH; rewrite <- app_assoc; done.
Qed.

Lemma new_Set_NoDup (l : list Id) : NoDup l → new_Set l = l.
Proof. intros. unfold new_Set. by rewrite foldl_Set_add. Qed.

Lemma Map_set_fresh (k : Id) (v : nat) (m : list (Id * nat)) :
  k ∉ m.*1 → Map_set k v m = m ++ [(k, v)].
Proof.
  induction m as [|[k' v'] m IH]; intros Hk; simpl; [done|].
  rewrite fmap_cons, not_elem_of_cons in Hk. destruct Hk as [Hne Hk].
  simpl in Hne. rewrite decide_False by congruence. by rewrite IH.
Qed.

Lemma foldl_Map_set (acc entries : list (Id * nat)) :
  NoDup ((acc ++ entries).*1) →
  foldl (λ m kv, Map_set kv.1 kv.2 m) acc entries = acc ++ entries.
Proof.
  revert acc. induction entries as [|[k v] l IH]; intros acc Hnd; simpl.
  - by rewrite app_nil_r.
  - rewrite Map_set_fresh.
    + rewrite IH; rewrite <- app_assoc; done.
    + rewrite fmap_app in Hnd. apply NoDup_app in Hnd as (_ & Hd & _).
      intros Hin. apply (Hd k Hin). simpl. left.
Qed.

Lemma new_Map_NoDup (entries : list (Id * nat)) :
  NoDup entries.*1 → new_Map entries = entries.
Proof. intros. unfold new_Map. by rewrite foldl_Map_set. Qed.

Lemma Map_get_Some (k : Id) (v : nat) (m : list (Id * nat)) :
  NoDup m.*1 → Map_get k m = Some v ↔ (k, v) ∈ m.
Proof.
  induction m as [|[k' v'] m IH]; intros Hnd; simpl.
  - split; [done|]. by intros ?%elem_of_nil.
  - rewrite fmap_cons in Hnd. apply NoDup_cons in Hnd as [Hk' Hnd]. simpl in Hk'.
    rewrite elem_of_cons. destruct (decide (k' = k)) as [->|Hne].
    + split.
      * intros [= ->]. by left.
      * intros [[= ->]|Hin]; [done|]. exfalso. apply Hk'.
        apply list_elem_of_fmap. by exists (k, v).
    + rewrite IH by done. split; [tauto|]. intros [[= -> ->]|?]; done.
Qed.

(** The arithmetic of [slice] for a cap that is not negative. *)
Lemma rel_index_0 (len : nat) : rel_index len 0 = 0.
Proof. unfold rel_index. rewrite decide_False by lia. lia. Qed.

Lemma rel_index_nonneg (len : nat) (c : Z) :
  (0 ≤ c)%Z → rel_index len c = Z.to_nat c `min` len.
Proof. intros. unfold rel_index. rewrite decide_False by lia. lia. Qed.

Lemma slice_0 {A} (l : list A) (c : Z) :
  slice l 0 c = take (rel_index (length l) c) l.
Proof. unfold slice. rewrite rel_index_0. simpl. f_equal. lia. Qed.

Lemma slice_split {A} (l : list A) (c : Z) : slice l 0 c ++ slice_from l c = l.
Proof. rewrite slice_0. apply take_drop. Qed.

(** ** Reading a trace *)

Definition is_phase_start (o : Obs) : bool :=
  match o with ObsPhaseStart _ => true | _ => false end.
Definition is_arm (i : Id) (o : Obs) : bool :=
  match o with ObsArm j => bool_decide (j = i) | _ => false end.
Definition is_step_done (i : Id) (o : Obs) : bool :=
  match o with ObsStepDone j _ => bool_decide (j = i) | _ => false end.
Definition is_job_done (i : Id) (o : Obs) : bool :=
  match o with ObsJobDone j => bool_decide (j = i) | _ => false end.
Definition is_ready (o : Obs) : bool :=
  match o with ObsReady _ => true | _ => false end.

(** A notification of job [i] to the coordinator. *)
Definition is_report (i : Id) (o : Obs) : bool :=
  is_step_done i o || is_job_done i o.

Fixpoint count (f : Obs → bool) (t : list Obs) : nat :=
  match t with
  | [] => 0
  | o :: t' => (if f o then 1 else 0) + count f t'
  end.

(** The number of phases started so far. *)
Definition phases (t : list Obs) : nat := count is_phase_start t.

(** The jobs of the snapshot of the current phase that have not reported
    since the phase started. *)
Fixpoint owing (t : list Obs) : list Id :=
  match t with
  | [] => []
  | ObsPhaseStart snap :: _ => snap
  | ObsStepDone i _ :: t' => Set_delete i (owing t')
  | ObsJobDone i :: t' => Set_delete i (owing t')
  | _ :: t' => owing t'
  end.

(** The latest of the ['ready'] signals to [i] and the reports of [i] is
    a ['ready']. *)
Fixpoint last_ready_open (i : Id) (t : list Obs) : bool :=
  match t with
  | [] => false
  | o :: t' =>
      if decide (o = ObsReady i) then true
      else if is_report i o then false
      else last_ready_open i t'
  end.

(** [P o past] for every event [o] of the trace, [past] being what was
    observed before it. *)
Fixpoint each_event (P : Obs → list Obs → Prop) (t : list Obs) : Prop :=
  match t with
  | [] => True
  | o :: t' => P o t' ∧ each_event P t'
  end.

Lemma each_event_split (P : Obs → list Obs → Prop) (t : list Obs) :
  each_event P t ↔ ∀ later o past, t = later ++ o :: past → P o past.
Proof.
  induction t as [|x t IH]; simpl.
  - split; [|done]. intros _ [|??] ?? Heq; discriminate.
  - rewrite IH. split.
    + intros [Hx Ht] [|y later] o past Heq; simplify_eq/=; eauto.
    + intros H. split; [by apply (H []) | ].
      intros later o past ->. by apply (H (x :: later)).
Qed.

Lemma each_event_impl (P Q : Obs → list Obs → Prop) (t : list Obs) :
  (∀ o past, P o past → Q o past) → each_event P t → each_event Q t.
Proof. intros HPQ. induction t; simpl; [done|]. intros [??]. eauto. Qed.

Lemma count_app (f : Obs → bool) (t1 t2 : list Obs) :
  count f (t1 ++ t2) = count f t1 + count f t2.
Proof. induction t1; simpl; lia. Qed.

Lemma count_0 (f : Obs → bool) (t : list Obs) :
  count f t = 0 ↔ ∀ o, o ∈ t → f o = false.
Proof.
  induction t as [|x t IH]; simpl.
  - split; [|done]. by intros _ ? ?%elem_of_nil.
  - split.
    + intros H o [->|Hin]%elem_of_cons.
      * destruct (f x); [lia|done].
      * apply IH; [lia|done].
    + intros H. rewrite (H x) by left. simpl. apply IH. intros. apply H. by right.
Qed.

Lemma count_pos (f : Obs → bool) (t : list Obs) :
  0 < count f t ↔ ∃ o, o ∈ t ∧ f o = true.
Proof.
  induction t as [|x t IH]; simpl.
  - split; [lia|]. by intros (? & ?%elem_of_nil & _).
  - destruct (f x) eqn:Hx.
    + split; [|lia]. intros _. exists x. split; [left|done].
    + simpl. rewrite IH. split.
      * intros (o & ? & ?). exists o. split; [by right|done].
      * intros (o & [->|?]%elem_of_cons & ?); [congruence|eauto].
Qed.

Lemma is_job_done_elem (i : Id) (t : list Obs) :
  count (is_job_done i) t = 0 ↔ ObsJobDone i ∉ t.
Proof.
  rewrite count_0. split.
  - intros H Hin. specialize (H _ Hin). simpl in H.
    by rewrite bool_decide_eq_false in H.
  - intros H o Hin. destruct o; simpl; try done.
    apply bool_decide_eq_false. intros ->. done.
Qed.

(** ** What never changes after construction *)

Definition ids (s : State) : list Id := id <$> syncers s.

Record frame (s s' : State) : Prop := {
  frame_concurrency : concurrency s' = concurrency s;
  frame_handlers : handlers s' = handlers s;
  frame_jobMap : jobMap s' = jobMap s;
  frame_heap : heap s' = heap s;
  frame_ids : ids s' = ids s;
  frame_jobs : jobs s' `sublist_of` jobs s;
  frame_trace : ∃ later, trace s' = later ++ trace s
}.

Lemma frame_refl (s : State) : frame s s.
Proof. split; try done. by exists []. Qed.

Lemma frame_trans (s1 s2 s3 : State) : frame s1 s2 → frame s2 s3 → frame s1 s3.
Proof.
  intros [? ? ? ? ? ? [l1 Hl1]] [? ? ? ? ? ? [l2 Hl2]]. split; try congruence.
  - by etrans.
  - exists (l2 ++ l1). by rewrite Hl2, Hl1, app_assoc.
Qed.

(** The updates of an object that the program makes keep its identifier. *)
Definition keeps_id (f : PhaseSyncer → PhaseSyncer) : Prop := ∀ h, id (f h) = id h.

Lemma keeps_id_fire_ready : keeps_id fire_ready.
Proof. intros h. unfold fire_ready. by destruct (jobEmitter h). Qed.
Lemma keeps_id_arm : keeps_id arm.
Proof. done. Qed.
Lemma keeps_id_incr : keeps_id incr.
Proof. done. Qed.
Lemma keeps_id_set_jobPromise (st : Status) : keeps_id (set_jobPromise st).
Proof. done. Qed.
Lemma keeps_id_await (k : Job) : keeps_id (await k).
Proof. intros h. unfold await. by destruct (jobEmitter h). Qed.

Lemma ids_alter (f : PhaseSyncer → PhaseSyncer) (me : nat) (l : list PhaseSyncer) :
  keeps_id f → id <$> alter f me l = id <$> l.
Proof.
  intros Hf. apply list_eq. intros j. rewrite !list_lookup_fmap.
  destruct (decide (j = me)) as [->|Hne].
  - rewrite list_lookup_alter_eq. destruct (l !! me); simpl; [by rewrite Hf|done].
  - by rewrite list_lookup_alter_ne.
Qed.

Lemma frame_upd (me : nat) (f : PhaseSyncer → PhaseSyncer) (s : State) :
  keeps_id f → frame s (upd me f s).
Proof.
  intros Hf. split; try done; [|by exists []].
  unfold ids. simpl. by apply ids_alter.
Qed.

Lemma frame_record (o : Obs) (s : State) : frame s (record o s).
Proof. split; try done. by exists [o]. Qed.

Lemma frame_set_queuedJobs (l : list Id) (s : State) : frame s (set_queuedJobs l s).
Proof. split; try done. by exists []. Qed.

Lemma frame_set_phasePendingJobs (l : list Id) (s : State) :
  frame s (set_phasePendingJobs l s).
Proof. split; try done. by exists []. Qed.

Lemma frame_delete_job (i : Id) (s : State) : frame s (set_jobs (Set_delete i (jobs s)) s).
Proof. split; try done; [apply sublist_filter|by exists []]. Qed.

Lemma frame_emit_ready (i : Id) (s : State) : frame s (emit_ready i s).
Proof.
  unfold emit_ready. destruct (Map_get i (jobMap s)).
  - eapply frame_trans; [apply (frame_record (ObsReady i))|].
    apply frame_upd, keeps_id_fire_ready.
  - apply frame_record.
Qed.

Lemma frame_foldl_emit_ready (l : list Id) (s : State) :
  frame s (foldl (λ s i, emit_ready i s) s l).
Proof.
  revert s. induction l as [|i l IH]; intros s; simpl; [apply frame_refl|].
  eapply frame_trans; [apply (frame_emit_ready i)|apply IH].
Qed.

Lemma frame_startNewPhase (s : State) : frame s (startNewPhase s).
Proof.
  unfold startNewPhase.
  eapply frame_trans; [|apply frame_set_phasePendingJobs].
  eapply frame_trans; [|apply frame_set_queuedJobs].
  eapply frame_trans; [apply (frame_record (ObsPhaseStart (jobs s)))|].
  apply frame_foldl_emit_ready.
Qed.

Lemma frame_startQueuedJob (s : State) : frame s (startQueuedJob s).
Proof.
  unfold startQueuedJob. destruct (queuedJobs s) as [|i q]; [apply frame_refl|].
  eapply frame_trans; [apply (frame_emit_ready i)|apply frame_set_queuedJobs].
Qed.

Lemma frame_on_stepDone (i : Id) (n : nat) (s : State) : frame s (on_stepDone i n s).
Proof.
  unfold on_stepDone.
  eapply frame_trans; [apply (frame_set_phasePendingJobs (Set_delete i (phasePendingJobs s)))|].
  case_decide; [apply frame_startNewPhase|apply frame_startQueuedJob].
Qed.

Lemma frame_on_jobDone (i : Id) (s : State) : frame s (on_jobDone i s).
Proof.
  unfold on_jobDone.
  eapply frame_trans; [apply (frame_delete_job i)|].
  eapply frame_trans; [apply frame_set_queuedJobs|].
  eapply frame_trans; [apply frame_set_phasePendingJobs|].
  case_decide; [apply frame_startNewPhase|apply frame_startQueuedJob].
Qed.

Lemma frame_emit_stepDone (i : Id) (n : nat) (s : State) : frame s (emit_stepDone i n s).
Proof.
  unfold emit_stepDone. destruct (handlers s) eqn:Hh; [|apply frame_record].
  eapply frame_trans; [apply (frame_record (ObsStepDone i n))|apply frame_on_stepDone].
Qed.

Lemma frame_emit_jobDone (i : Id) (s : State) : frame s (emit_jobDone i s).
Proof.
  unfold emit_jobDone. destruct (handlers s) eqn:Hh; [|apply frame_record].
  eapply frame_trans; [apply (frame_record (ObsJobDone i))|apply frame_on_jobDone].
Qed.

Lemma frame_phase (me : nat) (s : State) : frame s (phase me s).
Proof.
  unfold phase. destruct (syncers s !! me) as [this|]; [|apply frame_refl].
  eapply frame_trans; [|apply frame_upd, keeps_id_incr].
  eapply frame_trans; [apply (frame_upd me arm), keeps_id_arm|].
  eapply frame_trans; [apply (frame_record (ObsArm (id this)))|].
  case_decide; [apply frame_emit_stepDone|apply frame_refl].
Qed.

Lemma frame_work (me w : nat) (s : State) : frame s (work me w s).
Proof. unfold work. destruct (syncers s !! me); [apply frame_record|apply frame_refl]. Qed.

Lemma frame_exec (me : nat) (k : Job) (s : State) : frame s (exec me k s).
Proof.
  revert s. induction k; intros s; simpl.
  - apply frame_upd, keeps_id_set_jobPromise.
  - apply frame_upd, keeps_id_set_jobPromise.
  - eapply frame_trans; [apply frame_work|apply IHk].
  - apply frame_upd, keeps_id_set_jobPromise.
  - eapply frame_trans; [apply frame_phase|apply frame_upd, keeps_id_await].
Qed.

Lemma frame_step (me : nat) (s : State) : frame s (step me s).
Proof.
  unfold step. destruct (syncers s !! me) as [this|]; [|apply frame_refl].
  destruct (jobPromise this); try apply frame_refl.
  - apply frame_exec.
  - eapply frame_trans; [apply frame_emit_jobDone|].
    apply frame_upd, keeps_id_set_jobPromise.
Qed.

Lemma frame_run (sched : list nat) (s : State) : frame s (run sched s).
Proof.
  revert s. induction sched as [|me sched IH]; intros s; simpl; [apply frame_refl|].
  eapply frame_trans; [apply frame_step|apply IH].
Qed.

(** ** Releases, object by object *)

(** [jobMap] finds every object under its identifier, and nothing else. *)
Definition map_ok (s : State) : Prop :=
  ∀ i ix, Map_get i (jobMap s) = Some ix ↔ ids s !! ix = Some i.

Lemma map_ok_frame (s s' : State) : frame s s' → map_ok s → map_ok s'.
Proof. intros Hf Hm i ix. destruct Hf as [_ _ -> _ -> _ _]. apply Hm. Qed.

Lemma map_ok_NoDup (s : State) : map_ok s → NoDup (ids s).
Proof.
  intros Hm. apply NoDup_alt. intros ix1 ix2 i H1 H2.
  apply Hm in H1, H2. congruence.
Qed.

(** Job [i] is signalled: its object, if any, fires. *)
Definition fire (i : Id) (h : PhaseSyncer) : PhaseSyncer :=
  if decide (id h = i) then fire_ready h else h.

(** All of [l] are signalled. *)
Definition fire_all (l : list Id) (h : PhaseSyncer) : PhaseSyncer :=
  if decide (id h ∈ l) then fire_ready h else h.

Lemma fire_ready_idemp (h : PhaseSyncer) : fire_ready (fire_ready h) = fire_ready h.
Proof. unfold fire_ready. by destruct (jobEmitter h) eqn:E; simpl; rewrite ?E. Qed.

Lemma emit_ready_syncers (i : Id) (s : State) :
  map_ok s → syncers (emit_ready i s) = fire i <$> syncers s.
Proof.
  intros Hm. unfold emit_ready.
  destruct (Map_get i (jobMap s)) as [ix|] eqn:Hget; simpl.
  - apply Hm in Hget. apply list_eq. intros j. rewrite list_lookup_fmap.
    destruct (decide (j = ix)) as [->|Hne].
    + rewrite list_lookup_alter_eq. unfold ids in Hget.
      rewrite list_lookup_fmap in Hget.
      destruct (syncers s !! ix) as [h|]; simplify_eq/=.
      unfold fire. by rewrite decide_True.
    + rewrite list_lookup_alter_ne by done.
      destruct (syncers s !! j) as [h|] eqn:Hj; simpl; [|done].
      unfold fire. rewrite decide_False; [done|]. intros Hid.
      assert (ids s !! j = Some i) as Hj'.
      { unfold ids. by rewrite list_lookup_fmap, Hj; simpl; rewrite Hid. }
      pose proof (map_ok_NoDup s Hm) as Hnd.
      apply Hne. eapply NoDup_lookup; eauto.
  - apply list_eq. intros j. rewrite list_lookup_fmap.
    destruct (syncers s !! j) as [h|] eqn:Hj; simpl; [|done].
    unfold fire. rewrite decide_False; [done|]. intros Hid.
    assert (ids s !! j = Some i) as Hj'.
    { unfold ids. by rewrite list_lookup_fmap, Hj; simpl; rewrite Hid. }
    apply Hm in Hj'. congruence.
Qed.

Lemma emit_ready_eq (i : Id) (s : State) :
  map_ok s →
  emit_ready i s = set_syncers (fire i <$> syncers s) (record (ObsReady i) s).
Proof.
  intros Hm. pose proof (emit_ready_syncers i s Hm) as Hs.
  unfold emit_ready in *. destruct (Map_get i (jobMap s)); simpl in *.
  - unfold upd. simpl. by rewrite Hs.
  - unfold set_syncers, record. simpl. by rewrite <- Hs.
Qed.

Lemma foldl_emit_ready_eq (l : list Id) (s : State) :
  map_ok s →
  foldl (λ s i, emit_ready i s) s l =
  mkState (concurrency s) (handlers s) (fire_all l <$> syncers s) (jobMap s)
          (jobs s) (queuedJobs s) (phasePendingJobs s) (heap s)
          (reverse (ObsReady <$> l) ++ trace s).
Proof.
  revert s. induction l as [|i l IH]; intros s Hm; simpl.
  - destruct s; simpl. f_equal. rewrite <- (list_fmap_id syncers0) at 1.
    apply list_fmap_ext. intros _ h _. unfold fire_all.
    rewrite decide_False; [done|]. apply not_elem_of_nil.
  - rewrite IH by (eapply map_ok_frame; [apply frame_emit_ready|done]).
    rewrite emit_ready_eq by done. simpl. f_equal.
    + rewrite <- list_fmap_compose. apply list_fmap_ext. intros _ h _. simpl.
      unfold fire_all, fire.
      pose proof (keeps_id_fire_ready h) as Hid.
      destruct (decide (id h = i)) as [Heq|Hne].
      * rewrite (decide_True (P := id h ∈ i :: l)) by (rewrite Heq; left).
        case_decide; [|done]. by rewrite fire_ready_idemp.
      * destruct (decide (id h ∈ l)).
        -- rewrite decide_True; [done|by right].
        -- rewrite decide_False; [done|]. rewrite elem_of_cons. tauto.
    + rewrite reverse_cons, <- app_assoc. done.
Qed.

Lemma startNewPhase_eq (s : State) :
  map_ok s → NoDup (jobs s) →
  startNewPhase s =
  mkState (concurrency s) (handlers s)
          (fire_all (slice (jobs s) 0 (concurrency s)) <$> syncers s) (jobMap s)
          (jobs s) (slice_from (jobs s) (concurrency s)) (jobs s) (heap s)
          (reverse (ObsReady <$> slice (jobs s) 0 (concurrency s))
             ++ ObsPhaseStart (jobs s) :: trace s).
Proof.
  intros Hm Hnd. unfold startNewPhase.
  rewrite foldl_emit_ready_eq by done. simpl. unfold set_phasePendingJobs. simpl.
  rewrite !new_Set_NoDup; [done..|].
  unfold slice_from. rewrite <- (take_drop (rel_index (length (jobs s)) (concurrency s)) (jobs s)) in Hnd.
  by apply NoDup_app in Hnd as (_ & _ & ?).
Qed.

Lemma startQueuedJob_eq (s : State) (i : Id) (q : list Id) :
  map_ok s → queuedJobs s = i :: q → NoDup (queuedJobs s) →
  startQueuedJob s =
  mkState (concurrency s) (handlers s) (fire i <$> syncers s) (jobMap s)
          (jobs s) q (phasePendingJobs s) (heap s) (ObsReady i :: trace s).
Proof.
  intros Hm Hq Hnd. unfold startQueuedJob. rewrite Hq.
  rewrite emit_ready_eq by done. unfold set_queuedJobs. simpl.
  rewrite Hq in *. by rewrite Set_delete_head.
Qed.

(** ** A job's own update and a handler commute

    A handler reaches an object only through [fire_ready], and it reads
    nothing of the objects; so an update of an object that commutes with
    [fire_ready] can be moved across the handler. *)

Definition commutes (g : PhaseSyncer → PhaseSyncer) : Prop :=
  ∀ h, g (fire_ready h) = fire_ready (g h).

Lemma commutes_incr : commutes incr.
Proof. intros [i n [|e] st]; unfold fire_ready, incr; simpl; done. Qed.

Lemma commutes_await (k : Job) : commutes (await k).
Proof. intros [i n [|e] st]; unfold fire_ready, await; simpl; done. Qed.

Lemma commutes_finish (r : Result) : commutes (set_jobPromise (Finished r)).
Proof. intros [i n [|e] st]; unfold fire_ready; simpl; done. Qed.

Lemma commutes_compose (f g : PhaseSyncer → PhaseSyncer) :
  commutes f → commutes g → commutes (f ∘ g).
Proof. intros Hf Hg h. simpl. by rewrite Hg, Hf. Qed.

Lemma upd_upd (me : nat) (f g : PhaseSyncer → PhaseSyncer) (s : State) :
  upd me f (upd me g s) = upd me (f ∘ g) s.
Proof. unfold upd, set_syncers. simpl. by rewrite list_alter_alter_eq. Qed.

Lemma upd_record (me : nat) (g : PhaseSyncer → PhaseSyncer) (o : Obs) (s : State) :
  upd me g (record o s) = record o (upd me g s).
Proof. done. Qed.

Lemma upd_emit_ready (me : nat) (g : PhaseSyncer → PhaseSyncer) (i : Id) (s : State) :
  commutes g → upd me g (emit_ready i s) = emit_ready i (upd me g s).
Proof.
  intros Hg. unfold emit_ready. simpl.
  destruct (Map_get i (jobMap s)) as [ix|]; [|done].
  unfold upd, set_syncers, record. simpl. f_equal.
  destruct (decide (me = ix)) as [->|Hne].
  - rewrite !list_alter_alter_eq. apply list_alter_ext; [|done].
    intros h _. simpl. apply Hg.
  - by apply list_alter_alter_ne.
Qed.

Lemma upd_foldl_emit_ready (me : nat) (g : PhaseSyncer → PhaseSyncer) (l : list Id) (s : State) :
  commutes g →
  upd me g (foldl (λ s i, emit_ready i s) s l) = foldl (λ s i, emit_ready i s) (upd me g s) l.
Proof.
  intros Hg. revert s. induction l as [|i l IH]; intros s; simpl; [done|].
  by rewrite IH, upd_emit_ready.
Qed.

Lemma upd_startNewPhase (me : nat) (g : PhaseSyncer → PhaseSyncer) (s : State) :
  commutes g → upd me g (startNewPhase s) = startNewPhase (upd me g s).
Proof.
  intros Hg. unfold startNewPhase. simpl.
  rewrite <- upd_record, <- upd_foldl_emit_ready by done. done.
Qed.

Lemma upd_startQueuedJob (me : nat) (g : PhaseSyncer → PhaseSyncer) (s : State) :
  commutes g → upd me g (startQueuedJob s) = startQueuedJob (upd me g s).
Proof.
  intros Hg. unfold startQueuedJob. simpl.
  destruct (queuedJobs s) as [|i q]; [done|].
  rewrite <- upd_emit_ready by done. done.
Qed.

Lemma upd_on_stepDone (me : nat) (g : PhaseSyncer → PhaseSyncer) (i : Id) (n : nat) (s : State) :
  commutes g → upd me g (on_stepDone i n s) = on_stepDone i n (upd me g s).
Proof.
  intros Hg. unfold on_stepDone. simpl. case_decide.
  - by rewrite upd_startNewPhase.
  - by rewrite upd_startQueuedJob.
Qed.

Lemma upd_on_jobDone (me : nat) (g : PhaseSyncer → PhaseSyncer) (i : Id) (s : State) :
  commutes g → upd me g (on_jobDone i s) = on_jobDone i (upd me g s).
Proof.
  intros Hg. unfold on_jobDone. simpl. case_decide.
  - by rewrite upd_startNewPhase.
  - by rewrite upd_startQueuedJob.
Qed.

Lemma upd_emit_stepDone (me : nat) (g : PhaseSyncer → PhaseSyncer) (i : Id) (n : nat) (s : State) :
  commutes g → upd me g (emit_stepDone i n s) = emit_stepDone i n (upd me g s).
Proof.
  intros Hg. unfold emit_stepDone. simpl. destruct (handlers s); [|done].
  by rewrite upd_on_stepDone.
Qed.

Lemma upd_emit_jobDone (me : nat) (g : PhaseSyncer → PhaseSyncer) (i : Id) (s : State) :
  commutes g → upd me g (emit_jobDone i s) = emit_jobDone i (upd me g s).
Proof.
  intros Hg. unfold emit_jobDone. simpl. destruct (handlers s); [|done].
  by rewrite upd_on_jobDone.
Qed.

(** The object a job has after a call of [phase()] that it awaits. *)
Definition parked (k : Job) (h : PhaseSyncer) : PhaseSyncer :=
  mkPhaseSyncer (id h) (S (phaseCntr h)) (S (jobEmitter h)) (Waiting k).

Lemma upd_ext (me : nat) (f g : PhaseSyncer → PhaseSyncer) (s : State) :
  (∀ h, syncers s !! me = Some h → f h = g h) → upd me f s = upd me g s.
Proof.
  intros Hfg. unfold upd. f_equal. apply list_alter_ext; [|done].
  intros h Hh. by apply Hfg.
Qed.

(** The first awaited [phase()] of a job: nothing is sent. *)
Lemma exec_AwaitPhase_first (me : nat) (k : Job) (s : State) (this : PhaseSyncer) :
  syncers s !! me = Some this → phaseCntr this = 0 →
  exec me (AwaitPhase k) s = record (ObsArm (id this)) (upd me (parked k) s).
Proof.
  intros Hme H0. simpl. unfold phase. rewrite Hme.
  rewrite decide_False by lia.
  rewrite upd_upd, !upd_record, upd_upd. done.
Qed.

(** A later one: the job parks and the listener of ['stepDone'] runs. *)
Lemma exec_AwaitPhase_report (me : nat) (k : Job) (s : State) (this : PhaseSyncer) :
  syncers s !! me = Some this → 0 < phaseCntr this →
  exec me (AwaitPhase k) s =
  emit_stepDone (id this) (phaseCntr this)
    (record (ObsArm (id this)) (upd me (parked k) s)).
Proof.
  intros Hme H0. simpl. unfold phase. rewrite Hme.
  rewrite decide_True by lia.
  rewrite upd_upd, upd_emit_stepDone
    by (apply commutes_compose; [apply commutes_await|apply commutes_incr]).
  rewrite upd_record, upd_upd. done.
Qed.

(** The end of a job: [jobPromise] settles and the listener of ['jobDone']
    runs. *)
Lemma step_Settled (me : nat) (s : State) (this : PhaseSyncer) (r : Result) :
  syncers s !! me = Some this → jobPromise this = Settled r →
  step me s = emit_jobDone (id this) (upd me (set_jobPromise (Finished r)) s).
Proof.
  intros Hme Hst. unfold step. rewrite Hme, Hst.
  by rewrite upd_emit_jobDone by apply commutes_finish.
Qed.

(** ** The invariant of a run *)

(** What holds of an event when it is observed. *)
Definition event_ok (o : Obs) (past : list Obs) : Prop :=
  match o with
  | ObsReady i => last_ready_open i past = false ∧ i ∈ owing past
  | ObsPhaseStart _ => owing past = []
  | ObsWork i n _ =>
      n ≤ phases past ∧ count (is_arm i) past = n ∧ (0 < n → ObsReady i ∈ past)
  | ObsStepDone i n =>
      count (is_step_done i) past + 1 = n ∧ count (is_arm i) past = n + 1
  | ObsJobDone i => ObsJobDone i ∉ past
  | _ => True
  end.

(** What holds of a job between two turns of the loop.  A job that runs is
    either before its first [phase()] or in the current phase and
    released; a job that waits either waits for its release into the
    current phase or has reported the current phase done. *)
Definition job_ok (s : State) (h : PhaseSyncer) : Prop :=
  count (is_arm (id h)) (trace s) = phaseCntr h ∧
  count (is_step_done (id h)) (trace s) = pred (phaseCntr h) ∧
  match jobPromise h with
  | Runnable _ =>
      jobEmitter h = 0 ∧ id h ∈ jobs s ∧ (ObsJobDone (id h) ∉ trace s) ∧
      (phases (trace s) = 0 ∨ id h ∈ phasePendingJobs s) ∧
      ((phaseCntr h = 0 ∧ phases (trace s) ≤ 1) ∨
       (phaseCntr h = phases (trace s) ∧ (id h ∉ queuedJobs s) ∧
        ObsReady (id h) ∈ trace s))
  | Waiting _ =>
      jobEmitter h ≠ 0 ∧ id h ∈ jobs s ∧ (ObsJobDone (id h) ∉ trace s) ∧
      ((phaseCntr h = phases (trace s) ∧ id h ∈ phasePendingJobs s) ∨
       (phaseCntr h = S (phases (trace s)) ∧ (id h ∉ phasePendingJobs s) ∧
        id h ∉ queuedJobs s))
  | Settled _ =>
      jobEmitter h = 0 ∧ id h ∈ jobs s ∧ ObsJobDone (id h) ∉ trace s
  | Finished _ =>
      jobEmitter h = 0 ∧ (id h ∉ jobs s) ∧ ObsJobDone (id h) ∈ trace s
  end.

Record Inv (s : State) : Prop := {
  inv_handlers : handlers s = true;
  inv_map : map_ok s;
  inv_jobs_ids : jobs s ⊆ ids s;
  inv_jobs_nodup : NoDup (jobs s);
  inv_queued_nodup : NoDup (queuedJobs s);
  inv_queued : queuedJobs s ⊆ phasePendingJobs s;
  inv_pending : phasePendingJobs s ⊆ jobs s;
  inv_owing : phasePendingJobs s = owing (trace s);
  inv_events : each_event event_ok (trace s);
  inv_open : ∀ i, last_ready_open i (trace s) = true →
                  i ∈ phasePendingJobs s ∧ i ∉ queuedJobs s;
  inv_job : Forall (job_ok s) (syncers s)
}.

(** *** Signals appended to a trace *)

Lemma count_readies (f : Obs → bool) (l : list Id) (t : list Obs) :
  (∀ i, f (ObsReady i) = false) →
  count f (reverse (ObsReady <$> l) ++ t) = count f t.
Proof.
  intros Hf. revert t. induction l as [|i l IH]; intros t; simpl; [done|].
  rewrite reverse_cons, <- app_assoc, IH. simpl. by rewrite Hf.
Qed.

Lemma owing_readies (l : list Id) (t : list Obs) :
  owing (reverse (ObsReady <$> l) ++ t) = owing t.
Proof.
  revert t. induction l as [|i l IH]; intros t; simpl; [done|].
  by rewrite reverse_cons, <- app_assoc, IH.
Qed.

Lemma last_ready_open_readies (i : Id) (l : list Id) (t : list Obs) :
  last_ready_open i (reverse (ObsReady <$> l) ++ t) =
  if decide (i ∈ l) then true else last_ready_open i t.
Proof.
  revert t. induction l as [|j l IH]; intros t; simpl; [done|].
  rewrite reverse_cons, <- app_assoc, IH. simpl.
  destruct (decide (i ∈ l)) as [Hin|Hnin].
  - rewrite decide_True; [done|by right].
  - destruct (decide (j = i)) as [->|Hne].
    + rewrite decide_True by done. rewrite decide_True; [done|left].
    + rewrite decide_False by congruence. simpl.
      rewrite decide_False; [done|]. rewrite elem_of_cons. intros [?|?]; congruence.
Qed.

Lemma elem_of_readies (o : Obs) (l : list Id) (t : list Obs) :
  o ∈ reverse (ObsReady <$> l) ++ t ↔ (∃ i, o = ObsReady i ∧ i ∈ l) ∨ o ∈ t.
Proof.
  rewrite elem_of_app, elem_of_reverse, list_elem_of_fmap. naive_solver.
Qed.

Lemma each_event_readies (l : list Id) (t : list Obs) :
  NoDup l → (∀ i, i ∈ l → last_ready_open i t = false ∧ i ∈ owing t) →
  each_event event_ok t →
  each_event event_ok (reverse (ObsReady <$> l) ++ t).
Proof.
  revert t. induction l as [|i l IH]; intros t Hnd Hl Ht; simpl; [done|].
  apply NoDup_cons in Hnd as [Hi Hnd].
  rewrite reverse_cons, <- app_assoc. apply IH; [done| |].
  - intros j Hj. simpl. rewrite decide_False by (intros [= ->]; done).
    simpl. apply Hl. by right.
  - simpl. split; [|done]. apply Hl. left.
Qed.

(** *** The invariant is kept by every piece of a turn *)

Lemma Forall_upd (P Q : PhaseSyncer → Prop) (f : PhaseSyncer → PhaseSyncer)
    (me : nat) (l : list PhaseSyncer) (this : PhaseSyncer) :
  NoDup (id <$> l) → l !! me = Some this → Forall P l →
  Q (f this) → (∀ h, P h → id h ≠ id this → Q h) →
  Forall Q (alter f me l).
Proof.
  intros Hnd Hme HP Hthis Hother. apply Forall_lookup. intros j h Hj.
  destruct (decide (me = j)) as [<-|Hne].
  - rewrite list_lookup_alter_eq, Hme in Hj. by simplify_eq/=.
  - rewrite list_lookup_alter_ne in Hj by done.
    apply Hother; [by eapply (Forall_lookup_1 P)|].
    intros Hid. apply Hne. eapply NoDup_lookup; [done| |].
    + by rewrite list_lookup_fmap, Hme.
    + by rewrite list_lookup_fmap, Hj; simpl; rewrite Hid.
Qed.

Lemma Inv_ids_NoDup (s : State) : Inv s → NoDup (id <$> syncers s).
Proof. intros HI. apply (map_ok_NoDup s), HI. Qed.

Lemma Inv_job (s : State) (me : nat) (this : PhaseSyncer) :
  Inv s → syncers s !! me = Some this → job_ok s this.
Proof. intros HI Hme. eapply Forall_lookup_1; [apply HI|done]. Qed.

(** [jobMap] and the identifiers are untouched by the updates below. *)
Ltac keep_map H :=
  unfold map_ok, ids in *; simpl; rewrite ?ids_alter by done; exact H.

(** Synchronous work of a job that runs. *)
Lemma work_inv (me w : nat) (s : State) (this : PhaseSyncer) (k : Job) :
  Inv s → syncers s !! me = Some this → jobPromise this = Runnable k →
  Inv (work me w s).
Proof.
  intros HI Hme Hst. pose proof (Inv_job _ _ _ HI Hme) as Hok.
  unfold work. rewrite Hme. destruct HI. split; simpl; try done.
  - split; [|done]. unfold job_ok in Hok. rewrite Hst in Hok.
    destruct Hok as (Ha & _ & _ & _ & _ & _ & [[H0 _]|(HG & _ & Hr)]); simpl.
    + split; [lia|]. split; [done|lia].
    + split; [unfold phases in *; lia|]. split; done.
  - eapply Forall_impl; [done|]. intros h. unfold job_ok, phases. simpl.
    destruct (jobPromise h); rewrite ?not_elem_of_cons, ?elem_of_cons;
      intuition congruence.
Qed.

(** A job suspends on an outside promise. *)
Lemma suspend_inv (me : nat) (s : State) (this : PhaseSyncer) (k k' : Job) :
  Inv s → syncers s !! me = Some this → jobPromise this = Runnable k →
  Inv (upd me (set_jobPromise (Runnable k')) s).
Proof.
  intros HI Hme Hst. pose proof (Inv_ids_NoDup _ HI) as Hnd.
  pose proof (Inv_job _ _ _ HI Hme) as Hok.
  destruct HI. split; simpl; try done.
  - keep_map inv_map0.
  - unfold ids. simpl. by rewrite ids_alter.
  - eapply Forall_upd; [done..| |by intros].
    unfold job_ok in *. simpl. by rewrite Hst in Hok.
Qed.

(** The async function of a job settles. *)
Lemma settle_inv (me : nat) (s : State) (this : PhaseSyncer) (k : Job) (r : Result) :
  Inv s → syncers s !! me = Some this → jobPromise this = Runnable k →
  Inv (upd me (set_jobPromise (Settled r)) s).
Proof.
  intros HI Hme Hst. pose proof (Inv_ids_NoDup _ HI) as Hnd.
  pose proof (Inv_job _ _ _ HI Hme) as Hok.
  destruct HI. split; simpl; try done.
  - keep_map inv_map0.
  - unfold ids. simpl. by rewrite ids_alter.
  - eapply Forall_upd; [done..| |by intros].
    unfold job_ok in *. simpl. rewrite Hst in Hok. tauto.
Qed.

Lemma count_other (f : Obs → bool) (o : Obs) (t : list Obs) :
  f o = false → count f (o :: t) = count f t.
Proof. intros Hf. simpl. by rewrite Hf. Qed.

Lemma is_arm_ne (i j : Id) : i ≠ j → is_arm i (ObsArm j) = false.
Proof. intros. simpl. by apply bool_decide_eq_false. Qed.

Lemma is_step_done_ne (i j : Id) (n : nat) : i ≠ j → is_step_done i (ObsStepDone j n) = false.
Proof. intros. simpl. by apply bool_decide_eq_false. Qed.

(** The first [phase()] of a job, once the first phase has started. *)
Lemma park_first_inv (me : nat) (s : State) (this : PhaseSyncer) (k k' : Job) :
  Inv s → 1 ≤ phases (trace s) →
  syncers s !! me = Some this → jobPromise this = Runnable k → phaseCntr this = 0 →
  Inv (record (ObsArm (id this)) (upd me (parked k') s)).
Proof.
  intros HI HG Hme Hst H0. pose proof (Inv_ids_NoDup _ HI) as Hnd.
  pose proof (Inv_job _ _ _ HI Hme) as Hok.
  destruct HI. split; simpl; try done.
  - keep_map inv_map0.
  - unfold ids. simpl. by rewrite ids_alter.
  - eapply Forall_upd; [done..| |].
    + unfold job_ok, phases in *. simpl. rewrite Hst in Hok.
      rewrite bool_decide_true by done. rewrite !not_elem_of_cons.
      destruct Hok as (Ha & Hs & _ & Hj & Hd & Hp & Hc).
      split; [lia|]. split; [lia|]. split; [done|]. split; [done|].
      split; [done|]. left. split; [lia|]. destruct Hp; [lia|done].
    + intros h Hh Hne. unfold job_ok, phases in *. simpl.
      rewrite bool_decide_false by done. simpl.
      destruct (jobPromise h); rewrite ?not_elem_of_cons, ?elem_of_cons;
        intuition congruence.
Qed.

(** A later [phase()]: the job parks, reports, and leaves
    [phasePendingJobs]. *)
Lemma report_inv (me : nat) (s : State) (this : PhaseSyncer) (k k' : Job) :
  Inv s →
  syncers s !! me = Some this → jobPromise this = Runnable k → 0 < phaseCntr this →
  Inv (set_phasePendingJobs (Set_delete (id this) (phasePendingJobs s))
         (record (ObsStepDone (id this) (phaseCntr this))
            (record (ObsArm (id this)) (upd me (parked k') s)))).
Proof.
  intros HI Hme Hst H0. pose proof (Inv_ids_NoDup _ HI) as Hnd.
  pose proof (Inv_job _ _ _ HI Hme) as Hok.
  unfold job_ok in Hok. rewrite Hst in Hok.
  destruct Hok as (Ha & Hs & He & Hj & Hd & Hp & [[? _]|(HG & Hq & Hr)]); [lia|].
  destruct HI. split; simpl; try done.
  - keep_map inv_map0.
  - unfold ids. simpl. by rewrite ids_alter.
  - intros x Hx. apply elem_of_Set_delete. split; [by apply inv_queued0|].
    intros ->. done.
  - intros x [Hx _]%elem_of_Set_delete. by apply inv_pending0.
  - by rewrite inv_owing0.
  - split; [|done]. rewrite bool_decide_true by done. lia.
  - intros i. unfold is_report. simpl.
    destruct (bool_decide (id this = i)) eqn:Hi; simpl; [done|].
    apply bool_decide_eq_false in Hi. intros [Hip Hiq]%inv_open0.
    split; [|done]. apply elem_of_Set_delete. split; [done|congruence].
  - eapply Forall_upd; [done..| |].
    + unfold job_ok, phases in *. simpl.
      rewrite !bool_decide_true by done. rewrite !not_elem_of_cons.
      split; [lia|]. split; [lia|]. split; [done|]. split; [done|].
      split; [done|]. right. split; [lia|]. split; [|done].
      rewrite elem_of_Set_delete. tauto.
    + intros h Hh Hne. unfold job_ok, phases in *. simpl.
      rewrite !bool_decide_false by done. simpl.
      destruct (jobPromise h);
        rewrite ?not_elem_of_cons, ?elem_of_cons, ?elem_of_Set_delete;
        intuition congruence.
Qed.

(** The end of a job: it leaves the three sets. *)
Lemma done_inv (me : nat) (s : State) (this : PhaseSyncer) (r : Result) :
  Inv s →
  syncers s !! me = Some this → jobPromise this = Settled r →
  Inv (set_phasePendingJobs (Set_delete (id this) (phasePendingJobs s))
         (set_queuedJobs (Set_delete (id this) (queuedJobs s))
            (set_jobs (Set_delete (id this) (jobs s))
               (record (ObsJobDone (id this))
                  (upd me (set_jobPromise (Finished r)) s))))).
Proof.
  intros HI Hme Hst. pose proof (Inv_ids_NoDup _ HI) as Hnd.
  pose proof (Inv_job _ _ _ HI Hme) as Hok.
  unfold job_ok in Hok. rewrite Hst in Hok.
  destruct Hok as (Ha & Hs & He & Hj & Hd).
  destruct HI. split; simpl; try done.
  - keep_map inv_map0.
  - unfold ids. simpl. rewrite ids_alter by done.
    intros x [Hx _]%elem_of_Set_delete. by apply inv_jobs_ids0.
  - by apply NoDup_Set_delete.
  - by apply NoDup_Set_delete.
  - intros x [Hx ?]%elem_of_Set_delete. apply elem_of_Set_delete.
    split; [by apply inv_queued0|done].
  - intros x [Hx ?]%elem_of_Set_delete. apply elem_of_Set_delete.
    split; [by apply inv_pending0|done].
  - by rewrite inv_owing0.
  - intros i. unfold is_report. simpl.
    destruct (bool_decide (id this = i)) eqn:Hi; simpl; [done|].
    apply bool_decide_eq_false in Hi.
    intros [Hip Hiq]%inv_open0. rewrite !elem_of_Set_delete.
    split; [split; [done|congruence]|tauto].
  - eapply Forall_upd; [done..| |].
    + unfold job_ok, phases in *. simpl.
      rewrite elem_of_Set_delete, elem_of_cons. intuition.
    + intros h Hh Hne. unfold job_ok, phases in *. simpl.
      destruct (jobPromise h);
        rewrite ?not_elem_of_cons, ?elem_of_cons, ?elem_of_Set_delete;
        intuition congruence.
Qed.

Lemma ids_fmap (f : PhaseSyncer → PhaseSyncer) (l : list PhaseSyncer) :
  keeps_id f → id <$> (f <$> l) = id <$> l.
Proof.
  intros Hf. rewrite <- list_fmap_compose. apply list_fmap_ext.
  intros _ h _. apply Hf.
Qed.

Lemma keeps_id_fire (i : Id) : keeps_id (fire i).
Proof. intros h. unfold fire. case_decide; [apply keeps_id_fire_ready|done]. Qed.

Lemma keeps_id_fire_all (l : list Id) : keeps_id (fire_all l).
Proof. intros h. unfold fire_all. case_decide; [apply keeps_id_fire_ready|done]. Qed.

Lemma slice_parts (l : list Id) (c : Z) :
  NoDup l →
  NoDup (slice l 0 c) ∧ NoDup (slice_from l c) ∧
  (∀ x, x ∈ slice l 0 c → x ∈ l ∧ x ∉ slice_from l c) ∧
  (∀ x, x ∈ slice_from l c → x ∈ l) ∧
  (∀ x, x ∈ l → x ∈ slice l 0 c ∨ x ∈ slice_from l c).
Proof.
  intros Hnd. pose proof (slice_split l c) as Hsplit.
  rewrite <- Hsplit in Hnd. apply NoDup_app in Hnd as (HF & Hdis & HR).
  split; [done|]. split; [done|]. split; [|split].
  - intros x Hx. split; [|by apply Hdis].
    rewrite <- Hsplit. apply elem_of_app. by left.
  - intros x Hx. rewrite <- Hsplit. apply elem_of_app. by right.
  - intros x Hx. rewrite <- Hsplit in Hx. by apply elem_of_app in Hx.
Qed.

(** The state in which a phase starts, as a job sees it. *)
Lemma job_ok_startNewPhase (s : State) (h : PhaseSyncer) :
  NoDup (jobs s) → phasePendingJobs s = [] → job_ok s h →
  job_ok
    (mkState (concurrency s) (handlers s)
       (fire_all (slice (jobs s) 0 (concurrency s)) <$> syncers s) (jobMap s)
       (jobs s) (slice_from (jobs s) (concurrency s)) (jobs s) (heap s)
       (reverse (ObsReady <$> slice (jobs s) 0 (concurrency s))
          ++ ObsPhaseStart (jobs s) :: trace s))
    (fire_all (slice (jobs s) 0 (concurrency s)) h).
Proof.
  intros Hnd Hpe Hok.
  destruct (slice_parts (jobs s) (concurrency s) Hnd) as (_ & _ & HF & HR & _).
  set (F := slice (jobs s) 0 (concurrency s)) in *.
  set (R := slice_from (jobs s) (concurrency s)) in *.
  assert (∀ i, ObsJobDone i ∈ reverse (ObsReady <$> F) ++ ObsPhaseStart (jobs s) :: trace s
               ↔ ObsJobDone i ∈ trace s) as Hdone.
  { intros i. rewrite elem_of_readies, elem_of_cons.
    split; [intros [(j & [=] & _)|[[=]|?]]; done|auto]. }
  assert (∀ i, i ∈ F → ObsReady i ∈ reverse (ObsReady <$> F) ++ ObsPhaseStart (jobs s) :: trace s)
    as Hready.
  { intros i Hi. rewrite elem_of_readies. left. eauto. }
  assert (∀ i, ObsReady i ∈ trace s → ObsReady i ∈ reverse (ObsReady <$> F) ++ ObsPhaseStart (jobs s) :: trace s)
    as Hready'.
  { intros i Hi. rewrite elem_of_readies, elem_of_cons. auto. }
  unfold job_ok, phases in *. simpl. rewrite !count_readies by done. simpl.
  rewrite Hpe in Hok. rewrite (keeps_id_fire_all F h).
  destruct Hok as (Ha & Hs & Hok).
  unfold fire_all, fire_ready.
  destruct (jobPromise h) eqn:Hst.
  - destruct Hok as (He & Hj & Hd & Hp & Hc).
    assert (count is_phase_start (trace s) = 0) as HG.
    { destruct Hp as [?|?%elem_of_nil]; done. }
    assert (phaseCntr h = 0) as H0 by (destruct Hc as [[? _]|[? _]]; lia).
    rewrite He. case_decide; simpl; rewrite Hst, Hdone; repeat split; auto; left; lia.
  - destruct Hok as (He & Hj & Hd & [[_ ?%elem_of_nil]|(HG & _ & _)]); [done|].
    destruct (jobEmitter h) as [|e] eqn:Hem; [done|].
    case_decide as HinF; simpl; rewrite ?Hst, ?Hem; simpl; rewrite Hdone.
    + repeat split; auto. right. repeat split; auto. by apply HF.
    + repeat split; auto.
  - destruct Hok as (He & Hj & Hd). rewrite He.
    case_decide; simpl; rewrite Hst, Hdone; auto.
  - destruct Hok as (He & Hj & Hd). rewrite He.
    case_decide; simpl; rewrite Hst, Hdone; auto.
Qed.

Lemma Inv_no_open (s : State) (i : Id) :
  Inv s → phasePendingJobs s = [] → last_ready_open i (trace s) = false.
Proof.
  intros HI Hpe. destruct (last_ready_open i (trace s)) eqn:Hopen; [|done].
  apply HI in Hopen as [Hin _]. rewrite Hpe in Hin. by apply elem_of_nil in Hin.
Qed.

(** A phase starts, every job having reported. *)
Lemma startNewPhase_inv (s : State) :
  Inv s → phasePendingJobs s = [] →
  Inv (startNewPhase s) ∧ 1 ≤ phases (trace (startNewPhase s)).
Proof.
  intros HI Hpe.
  rewrite startNewPhase_eq by apply HI.
  pose proof (inv_jobs_nodup s HI) as Hnd.
  destruct (slice_parts (jobs s) (concurrency s) Hnd) as (HFnd & HRnd & HF & HR & _).
  split; [|unfold phases; simpl; rewrite count_readies by done; simpl; lia].
  split; simpl.
  - apply HI.
  - pose proof (inv_map s HI) as Hm. unfold map_ok, ids in *. simpl.
    by rewrite ids_fmap by apply keeps_id_fire_all.
  - unfold ids. simpl. rewrite ids_fmap by apply keeps_id_fire_all. apply HI.
  - done.
  - done.
  - intros x Hx. by apply HR.
  - done.
  - by rewrite owing_readies.
  - apply each_event_readies; [done| |].
    + intros i Hi. simpl. split; [by apply Inv_no_open|by apply HF].
    + simpl. split; [|apply HI]. rewrite <- Hpe. symmetry. apply HI.
  - intros i. rewrite last_ready_open_readies. case_decide as Hi.
    + intros _. by apply HF.
    + simpl. by rewrite Inv_no_open.
  - apply Forall_fmap. eapply Forall_impl; [apply HI|].
    intros h Hh. by apply job_ok_startNewPhase.
Qed.

(** The state after a queued job is released, as a job sees it. *)
Lemma job_ok_startQueuedJob (s : State) (i : Id) (q : list Id) (h : PhaseSyncer) :
  queuedJobs s = i :: q → NoDup (queuedJobs s) → i ∈ phasePendingJobs s →
  job_ok s h →
  job_ok
    (mkState (concurrency s) (handlers s) (fire i <$> syncers s) (jobMap s)
       (jobs s) q (phasePendingJobs s) (heap s) (ObsReady i :: trace s))
    (fire i h).
Proof.
  intros Hq Hnd Hip Hok. rewrite Hq in Hnd. apply NoDup_cons in Hnd as [Hiq Hqnd].
  assert (fire i h = h ∨
          (id h = i ∧ jobEmitter h ≠ 0 ∧
           fire i h = mkPhaseSyncer (id h) (phaseCntr h) 0 (wake (jobPromise h))))
    as [-> | (Hid & Hem & ->)].
  { unfold fire, fire_ready. case_decide; [|by left].
    destruct (jobEmitter h) eqn:?; [by left|by right]. }
  - unfold job_ok, phases in *. simpl. rewrite Hq in Hok.
    destruct (jobPromise h);
      rewrite ?not_elem_of_cons, ?elem_of_cons in *; intuition congruence.
  - unfold job_ok, phases in *. simpl. rewrite Hq in Hok.
    destruct Hok as (Ha & Hs & Hok).
    split; [done|]. split; [done|].
    destruct (jobPromise h); simpl; try (destruct Hok as [? _]; done).
    destruct Hok as (_ & Hj & Hd & Hc). subst i.
    rewrite not_elem_of_cons, elem_of_cons.
    destruct Hc as [[HG Hpe]|(_ & _ & Hnq)].
    + repeat split; auto.
    + exfalso. apply Hnq. left.
Qed.

(** A queued job is released, if there is one. *)
Lemma startQueuedJob_inv (s : State) : Inv s → Inv (startQueuedJob s).
Proof.
  intros HI. destruct (queuedJobs s) as [|i q] eqn:Hq.
  { unfold startQueuedJob. by rewrite Hq. }
  rewrite (startQueuedJob_eq s i q) by (done || apply HI).
  pose proof (inv_queued_nodup s HI) as Hnd.
  assert (i ∈ phasePendingJobs s) as Hip.
  { apply (inv_queued s HI). rewrite Hq. left. }
  assert (last_ready_open i (trace s) = false) as Hopen.
  { destruct (last_ready_open i (trace s)) eqn:Hopen; [|done].
    apply HI in Hopen as [_ Hnq]. exfalso. apply Hnq. rewrite Hq. left. }
  rewrite Hq in Hnd. apply NoDup_cons in Hnd as [Hiq Hqnd].
  split; simpl.
  - apply HI.
  - pose proof (inv_map s HI) as Hm. unfold map_ok, ids in *. simpl.
    by rewrite ids_fmap by apply keeps_id_fire.
  - unfold ids. simpl. rewrite ids_fmap by apply keeps_id_fire. apply HI.
  - apply HI.
  - done.
  - intros x Hx. apply (inv_queued s HI). rewrite Hq. by right.
  - apply HI.
  - apply HI.
  - split; [|apply HI]. split; [done|]. by rewrite <- (inv_owing s HI).
  - intros j. destruct (decide (ObsReady i = ObsReady j)) as [[= <-]|Hne]; [done|].
    simpl. intros [Hjp Hjq]%(inv_open s HI). split; [done|].
    rewrite Hq in Hjq. rewrite not_elem_of_cons in Hjq. tauto.
  - apply Forall_fmap. eapply Forall_impl; [apply HI|].
    intros h Hh. apply job_ok_startQueuedJob; [done| |done..].
    rewrite Hq. by apply NoDup_cons.
Qed.

(** What both listeners do once the job is out of [phasePendingJobs]. *)
Lemma advance_inv (s : State) :
  Inv s → 1 ≤ phases (trace s) →
  let s' := if decide (length (phasePendingJobs s) = 0) then startNewPhase s
            else startQueuedJob s in
  Inv s' ∧ 1 ≤ phases (trace s').
Proof.
  intros HI HG. simpl. case_decide as Hlen.
  - apply startNewPhase_inv; [done|]. by apply nil_length_inv.
  - split; [by apply startQueuedJob_inv|].
    destruct (frame_startQueuedJob s) as [_ _ _ _ _ _ [later ->]].
    unfold phases in *. rewrite count_app. lia.
Qed.

(** *** Turns and runs *)

(** The invariant together with the fact that the first phase has
    started. *)
Definition Running (s : State) : Prop := Inv s ∧ 1 ≤ phases (trace s).

Lemma exec_inv (me : nat) (k k0 : Job) (s : State) (this : PhaseSyncer) :
  Running s → syncers s !! me = Some this → jobPromise this = Runnable k0 →
  Running (exec me k s).
Proof.
  revert s this. induction k as [v|e|w k IH|k IH|k IH]; intros s this [HI HG] Hme Hst.
  - split; [by eapply settle_inv|done].
  - split; [by eapply settle_inv|done].
  - simpl. apply (IH (work me w s) this); [|by unfold work; rewrite Hme|done].
    split; [by eapply work_inv|]. unfold work. rewrite Hme. done.
  - split; [by eapply suspend_inv|done].
  - destruct (decide (phaseCntr this = 0)) as [H0|H0].
    + rewrite (exec_AwaitPhase_first me k s this) by done.
      split; [by eapply park_first_inv|done].
    + rewrite (exec_AwaitPhase_report me k s this) by (done || lia).
      unfold emit_stepDone. simpl. rewrite (inv_handlers s HI).
      apply (advance_inv
               (set_phasePendingJobs (Set_delete (id this) (phasePendingJobs s))
                  (record (ObsStepDone (id this) (phaseCntr this))
                     (record (ObsArm (id this)) (upd me (parked k) s))))).
      * eapply report_inv; [done..|lia].
      * done.
Qed.

Lemma step_inv (me : nat) (s : State) : Running s → Running (step me s).
Proof.
  intros HR. destruct (syncers s !! me) as [this|] eqn:Hme.
  2: { unfold step. by rewrite Hme. }
  destruct (jobPromise this) as [k|k|r|r] eqn:Hst.
  - unfold step. rewrite Hme, Hst. by eapply exec_inv.
  - unfold step. by rewrite Hme, Hst.
  - rewrite (step_Settled me s this r) by done. destruct HR as [HI HG].
    unfold emit_jobDone. simpl. rewrite (inv_handlers s HI).
    apply (advance_inv
             (set_phasePendingJobs (Set_delete (id this) (phasePendingJobs s))
                (set_queuedJobs (Set_delete (id this) (queuedJobs s))
                   (set_jobs (Set_delete (id this) (jobs s))
                      (record (ObsJobDone (id this))
                         (upd me (set_jobPromise (Finished r)) s)))))).
    + by eapply done_inv.
    + done.
  - unfold step. by rewrite Hme, Hst.
Qed.

Lemma run_inv (sched : list nat) (s : State) : Running s → Running (run sched s).
Proof.
  revert s. induction sched as [|me sched IH]; intros s HR; simpl; [done|].
  by apply IH, step_inv.
Qed.

(** ** Construction

    While the PhaseSyncer objects are constructed no listener is registered
    on [ctrlEmitter] and nothing is signalled: each job function runs up to
    its first suspension and stops there. *)

Definition quiet (s : State) (o : Obs) : Prop :=
  match o with
  | ObsInvoke i _ => i ∈ ids s
  | ObsWork i n _ => n = 0 ∧ i ∈ ids s
  | ObsArm i => i ∈ ids s
  | _ => False
  end.

Definition job_built (s : State) (h : PhaseSyncer) : Prop :=
  count (is_arm (id h)) (trace s) = phaseCntr h ∧
  match jobPromise h with
  | Runnable _ => jobEmitter h = 0 ∧ phaseCntr h = 0
  | Waiting _ => jobEmitter h ≠ 0 ∧ phaseCntr h = 1
  | Settled _ => jobEmitter h = 0 ∧ phaseCntr h = 0
  | Finished _ => False
  end.

Lemma quiet_mono (s s' : State) (o : Obs) :
  ids s ⊆ ids s' → quiet s o → quiet s' o.
Proof. intros Hsub. destruct o; simpl; try done; intuition. Qed.

Lemma ids_upd (me : nat) (f : PhaseSyncer → PhaseSyncer) (s : State) :
  keeps_id f → ids (upd me f s) = ids s.
Proof. intros Hf. unfold ids. simpl. by apply ids_alter. Qed.

Lemma quiet_phases (s : State) (t : list Obs) :
  (∀ o, o ∈ t → quiet s o) → phases t = 0.
Proof.
  intros Hq. apply count_0. intros o Ho. specialize (Hq o Ho). by destruct o.
Qed.

Lemma quiet_step_done (s : State) (t : list Obs) (i : Id) :
  (∀ o, o ∈ t → quiet s o) → count (is_step_done i) t = 0.
Proof.
  intros Hq. apply count_0. intros o Ho. specialize (Hq o Ho). by destruct o.
Qed.

Lemma quiet_arm (s : State) (t : list Obs) (i : Id) :
  (∀ o, o ∈ t → quiet s o) → i ∉ ids s → count (is_arm i) t = 0.
Proof.
  intros Hq Hi. apply count_0. intros o Ho. specialize (Hq o Ho).
  destruct o; try done. simpl in *. apply bool_decide_eq_false. congruence.
Qed.

Lemma quiet_owing (s : State) (t : list Obs) :
  (∀ o, o ∈ t → quiet s o) → owing t = [].
Proof.
  induction t as [|o t IH]; intros Hq; [done|].
  pose proof (Hq o ltac:(left)) as Ho.
  destruct o; try done; simpl; apply IH; intros; apply Hq; by right.
Qed.

Lemma quiet_open (s : State) (t : list Obs) (i : Id) :
  (∀ o, o ∈ t → quiet s o) → last_ready_open i t = false.
Proof.
  induction t as [|o t IH]; intros Hq; [done|].
  pose proof (Hq o ltac:(left)) as Ho.
  destruct o; try done; simpl; apply IH; intros; apply Hq; by right.
Qed.

Lemma quiet_elem (s : State) (t : list Obs) (o : Obs) :
  (∀ o, o ∈ t → quiet s o) → ¬ quiet s o → o ∉ t.
Proof. intros Hq Ho Hin. by apply Ho, Hq. Qed.

Section construction.
Variable uuidv1 : nat → Id.
Hypothesis uuidv1_inj : ∀ a b, uuidv1 a = uuidv1 b → a = b.

Record Built (s : State) : Prop := {
  built_handlers : handlers s = false;
  built_jobs : jobs s = [];
  built_queued : queuedJobs s = [];
  built_pending : phasePendingJobs s = [];
  built_ids : ids s = uuidv1 <$> seq 0 (length (syncers s));
  built_events : each_event event_ok (trace s);
  built_quiet : ∀ o, o ∈ trace s → quiet s o;
  built_job : Forall (job_built s) (syncers s)
}.

Lemma uuids_NoDup (n : nat) : NoDup (uuidv1 <$> seq 0 n).
Proof.
  apply NoDup_fmap_2_strong; [|apply NoDup_seq].
  intros a b _ _. apply uuidv1_inj.
Qed.

Lemma uuid_fresh (n : nat) : uuidv1 n ∉ uuidv1 <$> seq 0 n.
Proof.
  intros (m & Hm%uuidv1_inj & Hin%elem_of_seq)%list_elem_of_fmap. lia.
Qed.

Lemma Built_NoDup (s : State) : Built s → NoDup (id <$> syncers s).
Proof. intros HB. fold (ids s). rewrite (built_ids s HB). apply uuids_NoDup. Qed.

Lemma exec_built (me : nat) (k k0 : Job) (s : State) (this : PhaseSyncer) :
  Built s → syncers s !! me = Some this → jobPromise this = Runnable k0 →
  Built (exec me k s).
Proof.
  revert s this. induction k as [v|e|w k IH|k IH|k IH]; intros s this HB Hme Hst.
  all: pose proof (Built_NoDup s HB) as Hnd.
  all: pose proof (Forall_lookup_1 _ _ _ _ (built_job s HB) Hme) as Hok.
  all: unfold job_built in Hok; rewrite Hst in Hok; destruct Hok as (Ha & He & H0).
  1, 2, 4: destruct HB; split; simpl; try done.
  1, 4, 7: unfold ids in *; simpl; by rewrite ids_alter, length_alter.
  1, 3, 5: intros o Ho; eapply quiet_mono; [|by apply built_quiet0];
           by rewrite ids_upd.
  1, 2, 3: eapply Forall_upd; [done..| |by intros]; unfold job_built; simpl; done.
  - simpl. apply (IH (work me w s) this); [|by unfold work; rewrite Hme|done].
    unfold work. rewrite Hme. destruct HB. split; simpl; try done.
    + split; [|done]. split; [lia|]. split; [lia|lia].
    + assert (id this ∈ ids s) as Hin.
      { unfold ids. apply list_elem_of_fmap. exists this. split; [done|].
        by eapply list_elem_of_lookup_2. }
      intros o [->|Ho]%elem_of_cons; [done|]. by apply built_quiet0.
  - rewrite (exec_AwaitPhase_first me k s this) by done.
    destruct HB. split; simpl; try done.
    + unfold ids in *; simpl; by rewrite ids_alter, length_alter.
    + assert (id this ∈ ids s) as Hin.
      { unfold ids. apply list_elem_of_fmap. exists this. split; [done|].
        by eapply list_elem_of_lookup_2. }
      intros o [->|Ho]%elem_of_cons.
      * unfold quiet, ids in *. simpl. by rewrite ids_alter.
      * eapply quiet_mono; [|by apply built_quiet0].
        change (ids s ⊆ ids (upd me (parked k) s)). by rewrite ids_upd.
    + eapply Forall_upd; [done..| |].
      * unfold job_built. simpl. rewrite bool_decide_true by done.
        split; [lia|]. split; [done|lia].
      * intros h Hh Hne. unfold job_built in *. simpl.
        by rewrite bool_decide_false.
Qed.

Lemma construct_built (d : Descriptor) (s : State) :
  Built s → Built (construct (uuidv1 (length (syncers s))) d s).
Proof.
  intros HB. unfold construct.
  set (me := length (syncers s)).
  set (args' := VSyncer me :: default [] (heap s !! args d)).
  set (this := mkPhaseSyncer (uuidv1 me) 0 0 (Runnable (fun_ d args'))).
  apply (exec_built me _ (fun_ d args') _ this); [| |done].
  2: { simpl. by rewrite lookup_app_r, Nat.sub_diag. }
  assert (uuidv1 me ∉ ids s) as Hfresh.
  { rewrite (built_ids s HB). apply uuid_fresh. }
  destruct HB. split; simpl; try done.
  - unfold ids in *. simpl. rewrite fmap_app, length_app, built_ids0. simpl.
    rewrite Nat.add_1_r, seq_S, fmap_app. done.
  - assert (ids s ⊆ id <$> syncers s ++ [this]) as Hsub.
    { intros x Hx. rewrite fmap_app, elem_of_app. by left. }
    intros o [->|Ho]%elem_of_cons.
    + unfold quiet, ids. simpl. rewrite fmap_app, elem_of_app. right.
      simpl. left.
    + eapply quiet_mono; [|by apply built_quiet0]. done.
  - apply Forall_app. split.
    + eapply Forall_impl; [done|]. intros h. unfold job_built. simpl. done.
    + apply Forall_singleton. unfold job_built. simpl.
      split; [|done]. by eapply quiet_arm.
Qed.

Definition init (opt_concurrency : option Z) (h : gmap Ref (list Value)) : State :=
  mkState (default 1%Z opt_concurrency) false [] [] [] [] [] h [].

Definition constructed (jobList : list Descriptor) (s : State) : State :=
  foldl (λ s d, construct (uuidv1 (length (syncers s))) d s) s jobList.

Lemma init_built (c : option Z) (h : gmap Ref (list Value)) : Built (init c h).
Proof. split; simpl; try done. by intros o ?%elem_of_nil. Qed.

Lemma constructed_built (jobList : list Descriptor) (s : State) :
  Built s → Built (constructed jobList s).
Proof.
  revert s. induction jobList as [|d l IH]; intros s HB; simpl; [done|].
  by apply IH, construct_built.
Qed.

Lemma phaseSyncedSettle_unfold (jobList : list Descriptor) (c : option Z)
    (h : gmap Ref (list Value)) :
  phaseSyncedSettle uuidv1 jobList c h =
  let s1 := constructed jobList (init c h) in
  startNewPhase
    (set_handlers true
       (set_jobs (new_Set (Map_keys (new_Map (imap (λ ix ps, (id ps, ix)) (syncers s1)))))
          (set_jobMap (new_Map (imap (λ ix ps, (id ps, ix)) (syncers s1))) s1))).
Proof. done. Qed.
End construction.

(** ** The state a run starts from *)

Lemma imap_keys (l : list PhaseSyncer) :
  (imap (λ ix ps, (id ps, ix)) l).*1 = id <$> l.
Proof. rewrite fmap_imap. simpl. apply imap_const. Qed.

Lemma imap_values (l : list PhaseSyncer) :
  (imap (λ ix ps, (id ps, ix)) l).*2 = seq 0 (length l).
Proof.
  rewrite fmap_imap. apply list_eq. intros j.
  rewrite list_lookup_imap. destruct (l !! j) eqn:Hj; simpl.
  - symmetry. apply lookup_seq. split; [done|]. by eapply lookup_lt_Some.
  - symmetry. apply lookup_seq_ge. by apply lookup_ge_None.
Qed.

Lemma Map_get_imap (l : list PhaseSyncer) (i : Id) (ix : nat) :
  NoDup (id <$> l) →
  Map_get i (imap (λ ix ps, (id ps, ix)) l) = Some ix ↔ (id <$> l) !! ix = Some i.
Proof.
  intros Hnd. rewrite Map_get_Some by (by rewrite imap_keys).
  rewrite elem_of_lookup_imap, list_lookup_fmap. split.
  - intros (j & ps & [= -> ->] & Hj). by rewrite Hj.
  - intros Hix. destruct (l !! ix) as [ps|] eqn:Hps; simplify_eq/=. eauto.
Qed.

Section start.
Variable uuidv1 : nat → Id.
Hypothesis uuidv1_inj : ∀ a b, uuidv1 a = uuidv1 b → a = b.

(** The closure once both listeners are registered, before the first
    [startNewPhase()]. *)
Definition registered (s1 : State) : State :=
  set_handlers true
    (set_jobs (new_Set (Map_keys (new_Map (imap (λ ix ps, (id ps, ix)) (syncers s1)))))
       (set_jobMap (new_Map (imap (λ ix ps, (id ps, ix)) (syncers s1))) s1)).

Lemma registered_jobMap (s1 : State) :
  Built uuidv1 s1 →
  jobMap (registered s1) = imap (λ ix ps, (id ps, ix)) (syncers s1).
Proof.
  intros HB. simpl. apply new_Map_NoDup. rewrite imap_keys.
  by eapply Built_NoDup.
Qed.

Lemma registered_jobs (s1 : State) :
  Built uuidv1 s1 → jobs (registered s1) = ids s1.
Proof.
  intros HB. pose proof (registered_jobMap s1 HB) as Hm. simpl in *.
  rewrite Hm. unfold Map_keys. rewrite imap_keys.
  apply new_Set_NoDup. by eapply Built_NoDup.
Qed.

Lemma registered_inv (s1 : State) :
  Built uuidv1 s1 → Inv (registered s1) ∧ phasePendingJobs (registered s1) = [].
Proof.
  intros HB. pose proof (Built_NoDup uuidv1 uuidv1_inj s1 HB) as Hnd.
  pose proof (registered_jobMap s1 HB) as Hm.
  pose proof (registered_jobs s1 HB) as Hj.
  pose proof (built_quiet _ s1 HB) as Hq.
  split; [|apply HB]. split.
  - done.
  - intros i ix. rewrite Hm. by apply Map_get_imap.
  - by rewrite Hj.
  - by rewrite Hj.
  - simpl. rewrite (built_queued _ s1 HB). constructor.
  - simpl. rewrite (built_queued _ s1 HB). by intros x ?%elem_of_nil.
  - simpl. rewrite (built_pending _ s1 HB). by intros x ?%elem_of_nil.
  - simpl. rewrite (built_pending _ s1 HB). symmetry. by eapply quiet_owing.
  - apply HB.
  - intros i. simpl. by rewrite (quiet_open s1).
  - apply Forall_lookup. intros j h Hjh.
    change (syncers (registered s1)) with (syncers s1) in Hjh.
    pose proof (Forall_lookup_1 _ _ _ _ (built_job _ s1 HB) Hjh) as [Ha Hh].
    assert (id h ∈ ids s1) as Hin.
    { unfold ids. apply list_elem_of_fmap. exists h. split; [done|].
      by eapply list_elem_of_lookup_2. }
    unfold job_ok.
    change (trace (registered s1)) with (trace s1).
    change (queuedJobs (registered s1)) with (queuedJobs s1).
    change (phasePendingJobs (registered s1)) with (phasePendingJobs s1).
    rewrite Hj, (quiet_phases s1) by done.
    rewrite (quiet_step_done s1) by done.
    rewrite (built_queued _ s1 HB), (built_pending _ s1 HB).
    assert (ObsJobDone (id h) ∉ trace s1) as Hd.
    { eapply quiet_elem; [done|]. simpl. tauto. }
    split; [done|].
    destruct (jobPromise h) eqn:Hst; [| | |done]; destruct Hh as [He H0]; rewrite H0.
    + split; [done|]. repeat split; auto.
    + split; [done|]. repeat split; auto. right.
      repeat split; auto using not_elem_of_nil.
    + split; [done|]. repeat split; auto.
Qed.

(** The state that [phaseSyncedSettle] leaves when it returns satisfies
    the invariant, and so does every state of the run after it. *)
Lemma phaseSyncedSettle_running (jobList : list Descriptor) (c : option Z)
    (h : gmap Ref (list Value)) :
  Running (phaseSyncedSettle uuidv1 jobList c h).
Proof.
  rewrite phaseSyncedSettle_unfold. simpl.
  pose proof (constructed_built uuidv1 uuidv1_inj jobList _ (init_built uuidv1 c h)) as HB.
  destruct (registered_inv _ HB) as [HI Hpe].
  by apply startNewPhase_inv.
Qed.

Lemma run_running (sched : list nat) (jobList : list Descriptor) (c : option Z)
    (h : gmap Ref (list Value)) :
  Running (run sched (phaseSyncedSettle uuidv1 jobList c h)).
Proof. apply run_inv, phaseSyncedSettle_running. Qed.
End start.

(** ** Reading the invariant off a trace *)

(** [o] is a notification of job [i] to the coordinator: it reports a
    phase done, or it reports that the job is done. *)
Definition reports (i : Id) (o : Obs) : Prop :=
  (∃ n, o = ObsStepDone i n) ∨ o = ObsJobDone i.

Lemma is_report_reports (i : Id) (o : Obs) : is_report i o = true ↔ reports i o.
Proof.
  unfold is_report, reports. destruct o; simpl; try (split; [done|]).
  all: try (intros [[? [=]]|[=]]; done).
  - rewrite orb_false_r, bool_decide_eq_true. split.
    + intros ->. left. eauto.
    + intros [[? [= -> _]]|[=]]. done.
  - rewrite bool_decide_eq_true. split.
    + intros ->. by right.
    + intros [[? [=]]|[= ->]]. done.
Qed.

Lemma last_ready_open_split (i : Id) (mid past : list Obs) :
  last_ready_open i (mid ++ ObsReady i :: past) = false →
  ∃ o, o ∈ mid ∧ reports i o.
Proof.
  induction mid as [|o mid IH]; simpl.
  - by rewrite decide_True.
  - case_decide; [done|]. destruct (is_report i o) eqn:Hrep.
    + intros _. exists o. split; [left|by apply is_report_reports].
    + intros (o' & Hin & Hr)%IH. exists o'. split; [by right|done].
Qed.

Lemma owing_after_report (i : Id) (mid rest : list Obs) :
  phases mid = 0 → (∃ o, o ∈ mid ∧ reports i o) → i ∉ owing (mid ++ rest).
Proof.
  unfold phases. induction mid as [|o mid IH]; simpl; intros HG (o' & Hin & Hr).
  { by apply elem_of_nil in Hin. }
  assert (count is_phase_start mid = 0) as HG' by lia.
  apply elem_of_cons in Hin as [->|Hin].
  - destruct Hr as [[n ->]| ->]; simpl; rewrite elem_of_Set_delete; tauto.
  - specialize (IH HG' (ex_intro _ o' (conj Hin Hr))).
    destruct o; simpl in *; try done; try lia;
      rewrite elem_of_Set_delete; tauto.
Qed.

Lemma owing_without_report (i : Id) (mid past : list Obs) (snap : list Id) :
  phases mid = 0 → i ∈ snap → (∀ o, o ∈ mid → ¬ reports i o) →
  i ∈ owing (mid ++ ObsPhaseStart snap :: past).
Proof.
  unfold phases. induction mid as [|o mid IH]; simpl; intros HG Hi Hno; [done|].
  assert (count is_phase_start mid = 0) as HG' by lia.
  assert (∀ o', o' ∈ mid → ¬ reports i o') as Hno'.
  { intros o' Ho'. apply Hno. by right. }
  specialize (IH HG' Hi Hno').
  pose proof (Hno o ltac:(left)) as Ho.
  destruct o; simpl in *; try done; try lia.
  - apply elem_of_Set_delete. split; [done|]. intros ->. apply Ho. left. eauto.
  - apply elem_of_Set_delete. split; [done|]. intros ->. apply Ho. by right.
Qed.

(** When nobody is owing, everybody of the snapshot has reported. *)
Lemma owing_nil_reported (mid past : list Obs) (snap : list Id) :
  phases mid = 0 → owing (mid ++ ObsPhaseStart snap :: past) = [] →
  ∀ i, i ∈ snap → ∃ o, o ∈ mid ∧ reports i o.
Proof.
  intros HG Hnil i Hi.
  destruct (decide (Exists (λ o, is_report i o = true) mid)) as [Hex|Hnex].
  - apply Exists_exists in Hex as (o & Hin & Hr). exists o.
    split; [done|by apply is_report_reports].
  - exfalso. assert (i ∈ owing (mid ++ ObsPhaseStart snap :: past)) as Hin.
    { apply owing_without_report; [done..|]. intros o Ho Hr.
      apply Hnex, Exists_exists. exists o. split; [done|by apply is_report_reports]. }
    rewrite Hnil in Hin. by apply elem_of_nil in Hin.
Qed.

(** The start of the phase with a given number, and the latest start. *)
Lemma phases_split (n : nat) (t : list Obs) :
  n < phases t →
  ∃ later snap past, t = later ++ ObsPhaseStart snap :: past ∧ phases past = n.
Proof.
  unfold phases. induction t as [|o t IH]; simpl; [lia|]. intros Hn.
  destruct (decide (n < count is_phase_start t)) as [Hlt|Hge].
  - destruct (IH Hlt) as (later & snap & past & -> & Hp).
    exists (o :: later), snap, past. done.
  - destruct o; simpl in *; try lia.
    exists [], snapshot, t. split; [done|lia].
Qed.

Lemma last_phase_split (t : list Obs) :
  0 < phases t →
  ∃ mid snap past, t = mid ++ ObsPhaseStart snap :: past ∧ phases mid = 0.
Proof.
  unfold phases. induction t as [|o t IH]; simpl; [lia|]. intros Hn.
  destruct (is_phase_start o) eqn:Ho.
  - destruct o; try done. by exists [], snapshot, t.
  - destruct IH as (mid & snap & past & -> & Hm); [lia|].
    exists (o :: mid), snap, past. simpl. rewrite Ho. done.
Qed.

Lemma phases_app (t1 t2 : list Obs) : phases (t1 ++ t2) = phases t1 + phases t2.
Proof. apply count_app. Qed.

Lemma trace_event (s : State) (later past : list Obs) (o : Obs) :
  Inv s → trace s = later ++ o :: past → event_ok o past.
Proof.
  intros HI Ht. pose proof (inv_events s HI) as He.
  rewrite each_event_split in He. by eapply He.
Qed.

(** ** What a turn does to [jobs] *)

Lemma jobs_emit_ready (i : Id) (s : State) : jobs (emit_ready i s) = jobs s.
Proof. unfold emit_ready. by destruct (Map_get i (jobMap s)). Qed.

Lemma jobs_foldl_emit_ready (l : list Id) (s : State) :
  jobs (foldl (λ s i, emit_ready i s) s l) = jobs s.
Proof.
  revert s. induction l as [|i l IH]; intros s; simpl; [done|].
  by rewrite IH, jobs_emit_ready.
Qed.

Lemma jobs_startNewPhase (s : State) : jobs (startNewPhase s) = jobs s.
Proof. unfold startNewPhase. simpl. by rewrite jobs_foldl_emit_ready. Qed.

Lemma jobs_startQueuedJob (s : State) : jobs (startQueuedJob s) = jobs s.
Proof.
  unfold startQueuedJob. destruct (queuedJobs s); [done|].
  simpl. by rewrite jobs_emit_ready.
Qed.

Lemma jobs_on_stepDone (i : Id) (n : nat) (s : State) : jobs (on_stepDone i n s) = jobs s.
Proof.
  unfold on_stepDone. case_decide.
  - by rewrite jobs_startNewPhase.
  - by rewrite jobs_startQueuedJob.
Qed.

Lemma jobs_on_jobDone (i : Id) (s : State) :
  jobs (on_jobDone i s) = Set_delete i (jobs s).
Proof.
  unfold on_jobDone. case_decide.
  - by rewrite jobs_startNewPhase.
  - by rewrite jobs_startQueuedJob.
Qed.

Lemma jobs_phase (me : nat) (s : State) : jobs (phase me s) = jobs s.
Proof.
  unfold phase. destruct (syncers s !! me); [|done]. simpl.
  case_decide; [|done]. unfold emit_stepDone. simpl.
  destruct (handlers s); [|done]. by rewrite jobs_on_stepDone.
Qed.

Lemma jobs_exec (me : nat) (k : Job) (s : State) : jobs (exec me k s) = jobs s.
Proof.
  revert s. induction k; intros s; simpl; try done.
  - rewrite IHk. unfold work. by destruct (syncers s !! me).
  - by rewrite jobs_phase.
Qed.

(** A turn leaves [jobs] alone, unless it is the turn in which a job that
    has settled tells the coordinator; that turn deletes the job. *)
Lemma jobs_step (me : nat) (s : State) :
  handlers s = true →
  jobs (step me s) = jobs s ∨
  ∃ this r, syncers s !! me = Some this ∧ jobPromise this = Settled r ∧
            jobs (step me s) = Set_delete (id this) (jobs s).
Proof.
  intros Hh. unfold step. destruct (syncers s !! me) as [this|] eqn:Hme; [|by left].
  destruct (jobPromise this) as [k|k|r|r] eqn:Hst; try by left.
  - left. apply jobs_exec.
  - right. exists this, r. repeat split; try done. simpl.
    unfold emit_jobDone. rewrite Hh. by rewrite jobs_on_jobDone.
Qed.

Lemma take_min {A} (n : nat) (l : list A) : take (n `min` length l) l = take n l.
Proof.
  destruct (decide (n ≤ length l)).
  - by rewrite Nat.min_l.
  - rewrite Nat.min_r by lia. by rewrite !take_ge by lia.
Qed.

Lemma drop_min {A} (n : nat) (l : list A) : drop (n `min` length l) l = drop n l.
Proof.
  destruct (decide (n ≤ length l)).
  - by rewrite Nat.min_l.
  - rewrite Nat.min_r by lia. by rewrite !drop_ge by lia.
Qed.

Lemma each_job_done_once (i : Id) (t : list Obs) :
  each_event event_ok t → count (is_job_done i) t ≤ 1.
Proof.
  induction t as [|o t IH]; simpl; [lia|]. intros [Ho Ht]. specialize (IH Ht).
  destruct (is_job_done i o) eqn:Hd; [|lia].
  destruct o; try done. simpl in Hd. apply bool_decide_eq_true in Hd as ->.
  simpl in Ho. apply is_job_done_elem in Ho. lia.
Qed.

Lemma lookup_ids (s : State) (i : Id) :
  i ∈ ids s → ∃ me this, syncers s !! me = Some this ∧ id this = i.
Proof.
  intros (this & -> & Hin)%list_elem_of_fmap.
  apply list_elem_of_lookup in Hin as [me Hme]. eauto.
Qed.

Lemma Inv_jobs_done (s : State) (i : Id) :
  Inv s → i ∈ ids s → (i ∈ jobs s ↔ ObsJobDone i ∉ trace s).
Proof.
  intros HI (me & this & Hme & <-)%lookup_ids.
  pose proof (Inv_job _ _ _ HI Hme) as (_ & _ & Hok).
  destruct (jobPromise this); tauto.
Qed.

(** Every identifier the coordinator looks up is a key of [jobMap]. *)
Lemma Map_get_jobs (s : State) (i : Id) :
  Inv s → i ∈ jobs s → ∃ ix this,
    Map_get i (jobMap s) = Some ix ∧ syncers s !! ix = Some this ∧ id this = i.
Proof.
  intros HI Hi. apply (inv_jobs_ids s HI) in Hi.
  apply lookup_ids in Hi as (me & this & Hme & <-).
  exists me, this. split; [|done]. apply (inv_map s HI).
  unfold ids. by rewrite list_lookup_fmap, Hme.
Qed.

Lemma length_syncers_exec (me : nat) (k : Job) (s : State) :
  length (syncers (exec me k s)) = length (syncers s).
Proof.
  pose proof (frame_ids _ _ (frame_exec me k s)) as Hids. unfold ids in Hids.
  by rewrite <- (length_fmap id), Hids, length_fmap.
Qed.

Lemma length_syncers_construct (uuid : Id) (d : Descriptor) (s : State) :
  length (syncers (construct uuid d s)) = S (length (syncers s)).
Proof.
  unfold construct. rewrite length_syncers_exec. simpl.
  rewrite length_app. simpl. lia.
Qed.

Lemma length_syncers_constructed (uuidv1 : nat → Id) (jobList : list Descriptor) (s : State) :
  length (syncers (constructed uuidv1 jobList s)) = length (syncers s) + length jobList.
Proof.
  revert s. induction jobList as [|d l IH]; intros s; simpl; [lia|].
  rewrite IH, length_syncers_construct. lia.
Qed.

(** ** A run used to exercise the theorems

    Three jobs of two phases each, the second of which fails in its last
    phase, run with a cap of two. *)

Definition two_phases : Job :=
  AwaitPhase (Work 1 (AwaitPhase (Work 2 (Return 10)))).
Definition failing : Job :=
  AwaitPhase (Work 1 (AwaitPhase (Throw 7))).
Definition ex_jobList : list Descriptor :=
  [mkDescriptor (λ _, two_phases) 0; mkDescriptor (λ _, failing) 1;
   mkDescriptor (λ _, two_phases) 2].
Definition ex_uuidv1 (n : nat) : Id := 100 + n.
Definition ex_heap : gmap Ref (list Value) :=
  {[ 0 := [VData 5]; 1 := []; 2 := [] ]}.
Definition ex_start : State :=
  phaseSyncedSettle ex_uuidv1 ex_jobList (Some 2%Z) ex_heap.
Definition ex_sched : list nat := [0; 1; 2; 0; 1; 2; 0; 1; 2; 0; 1; 2].

Lemma ex_uuidv1_inj (a b : nat) : ex_uuidv1 a = ex_uuidv1 b → a = b.
Proof. unfold ex_uuidv1. lia. Qed.

Example ex_start_trace :
  reverse (trace ex_start) =
  [ObsInvoke 100 [VSyncer 0; VData 5]; ObsArm 100;
   ObsInvoke 101 [VSyncer 1]; ObsArm 101;
   ObsInvoke 102 [VSyncer 2]; ObsArm 102;
   ObsPhaseStart [100; 101; 102]; ObsReady 100; ObsReady 101].
Proof. vm_compute. reflexivity. Qed.

Example ex_run_trace :
  reverse (trace (run ex_sched ex_start)) =
  [ObsInvoke 100 [VSyncer 0; VData 5]; ObsArm 100;
   ObsInvoke 101 [VSyncer 1]; ObsArm 101;
   ObsInvoke 102 [VSyncer 2]; ObsArm 102;
   ObsPhaseStart [100; 101; 102]; ObsReady 100; ObsReady 101;
   ObsWork 100 1 1; ObsArm 100; ObsStepDone 100 1; ObsReady 102;
   ObsWork 101 1 1; ObsArm 101; ObsStepDone 101 1;
   ObsWork 102 1 1; ObsArm 102; ObsStepDone 102 1;
   ObsPhaseStart [100; 101; 102]; ObsReady 100; ObsReady 101;
   ObsWork 100 2 2; ObsJobDone 100; ObsReady 102;
   ObsJobDone 101; ObsWork 102 2 2; ObsJobDone 102; ObsPhaseStart []].
Proof. vm_compute. reflexivity. Qed.

Example ex_run_aggregate :
  aggregate (run ex_sched ex_start) = Some [Fulfilled 10; Rejected 7; Fulfilled 10].
Proof. vm_compute. reflexivity. Qed.

(** * The properties of the coordinator *)

(** C3 (cap respected at phase start).  In a state whose [jobs] is a set
    and whose [jobMap] finds every object, and for a cap [c] that is not
    negative, [startNewPhase] signals ['ready'] to the first
    [min c (number of active jobs)] jobs of its snapshot, in snapshot
    order, and to no other; the remaining active jobs become [queuedJobs];
    [phasePendingJobs] becomes the whole of [jobs]; [jobs] is unchanged. *)
Theorem cap_at_phase_start (s : State) :
  map_ok s → NoDup (jobs s) → (0 ≤ concurrency s)%Z →
  let c := Z.to_nat (concurrency s) in
  let s' := startNewPhase s in
  trace s' = reverse (ObsReady <$> take c (jobs s)) ++ ObsPhaseStart (jobs s) :: trace s ∧
  length (take c (jobs s)) = c `min` length (jobs s) ∧
  syncers s' = fire_all (take c (jobs s)) <$> syncers s ∧
  queuedJobs s' = drop c (jobs s) ∧
  take c (jobs s) ++ queuedJobs s' = jobs s ∧
  phasePendingJobs s' = jobs s ∧
  jobs s' = jobs s.
Proof.
  intros Hm Hnd Hc c s'. subst c s'. rewrite startNewPhase_eq by done. simpl.
  rewrite slice_0. unfold slice_from. rewrite rel_index_nonneg by done.
  rewrite take_min, drop_min, length_take, take_drop. done.
Qed.

Lemma ex_running (sched : list nat) : Running (run sched ex_start).
Proof. exact (run_running ex_uuidv1 ex_uuidv1_inj sched ex_jobList (Some 2%Z) ex_heap). Qed.

Lemma cap_at_phase_start_witness :
  let s := run [0; 1; 2] ex_start in
  let c := Z.to_nat (concurrency s) in
  let s' := startNewPhase s in
  trace s' = reverse (ObsReady <$> take c (jobs s)) ++ ObsPhaseStart (jobs s) :: trace s ∧
  length (take c (jobs s)) = c `min` length (jobs s) ∧
  syncers s' = fire_all (take c (jobs s)) <$> syncers s ∧
  queuedJobs s' = drop c (jobs s) ∧
  take c (jobs s) ++ queuedJobs s' = jobs s ∧
  phasePendingJobs s' = jobs s ∧
  jobs s' = jobs s.
Proof.
  intros s. apply (cap_at_phase_start s).
  - exact (inv_map s (proj1 (ex_running [0; 1; 2]))).
  - exact (inv_jobs_nodup s (proj1 (ex_running [0; 1; 2]))).
  - vm_compute. discriminate.
Defined.

(** C8 (coordinator set invariants).  After the call returns and after
    every turn of the loop since (each processes at most one notification,
    with the phase start or the release of a queued job that follows from
    it): [phasePendingJobs] and [queuedJobs] are subsets of [jobs]; [jobs]
    started as the set of all job identifiers and is a sublist of what it
    was before the turn; a turn that changes [jobs] is the turn in which
    one job that has settled sends ['jobDone'], and it deletes exactly
    that job; a job is in [jobs] if and only if its ['jobDone'] has not
    been sent, and no ['jobDone'] is sent twice. *)
Theorem coordinator_set_invariants (uuidv1 : nat → Id) (jobList : list Descriptor)
    (c : option Z) (h : gmap Ref (list Value)) (sched : list nat) :
  (∀ a b, uuidv1 a = uuidv1 b → a = b) →
  let s0 := phaseSyncedSettle uuidv1 jobList c h in
  let s := run sched s0 in
  phasePendingJobs s ⊆ jobs s ∧
  queuedJobs s ⊆ jobs s ∧
  jobs s0 = uuidv1 <$> seq 0 (length jobList) ∧
  jobs s `sublist_of` jobs s0 ∧
  (∀ me, jobs (step me s) `sublist_of` jobs s) ∧
  (∀ me, jobs (step me s) = jobs s ∨
         ∃ this r, syncers s !! me = Some this ∧ jobPromise this = Settled r ∧
                   id this ∈ jobs s ∧ (ObsJobDone (id this) ∉ trace s) ∧
                   jobs (step me s) = Set_delete (id this) (jobs s)) ∧
  (∀ i, i ∈ ids s → (i ∈ jobs s ↔ ObsJobDone i ∉ trace s)) ∧
  (∀ i, count (is_job_done i) (trace s) ≤ 1).
Proof.
  intros Hinj s0 s.
  destruct (run_running uuidv1 Hinj sched jobList c h) as [HI HG]. fold s0 s in HI, HG.
  split; [apply HI|]. split.
  { intros x Hx. by apply (inv_pending s HI), (inv_queued s HI). }
  split.
  { unfold s0. rewrite phaseSyncedSettle_unfold. cbv zeta. rewrite jobs_startNewPhase.
    pose proof (constructed_built uuidv1 Hinj jobList _ (init_built uuidv1 c h)) as HB.
    etrans; [apply (registered_jobs uuidv1 Hinj _ HB)|].
    rewrite (built_ids _ _ HB). by rewrite length_syncers_constructed. }
  split; [apply (frame_run sched s0)|].
  split; [intros me; apply (frame_step me s)|].
  split.
  { intros me. destruct (jobs_step me s (inv_handlers s HI))
      as [?|(this & r & Hme & Hst & Hj)]; [by left|right].
    exists this, r. pose proof (Inv_job _ _ _ HI Hme) as (_ & _ & Hok).
    rewrite Hst in Hok. tauto. }
  split; [intros i; by apply Inv_jobs_done|].
  intros i. apply each_job_done_once, HI.
Qed.

Lemma coordinator_set_invariants_witness :
  let s0 := phaseSyncedSettle ex_uuidv1 ex_jobList (Some 2%Z) ex_heap in
  let s := run ex_sched s0 in
  phasePendingJobs s ⊆ jobs s ∧
  queuedJobs s ⊆ jobs s ∧
  jobs s0 = ex_uuidv1 <$> seq 0 (length ex_jobList) ∧
  jobs s `sublist_of` jobs s0 ∧
  (∀ me, jobs (step me s) `sublist_of` jobs s) ∧
  (∀ me, jobs (step me s) = jobs s ∨
         ∃ this r, syncers s !! me = Some this ∧ jobPromise this = Settled r ∧
                   id this ∈ jobs s ∧ (ObsJobDone (id this) ∉ trace s) ∧
                   jobs (step me s) = Set_delete (id this) (jobs s)) ∧
  (∀ i, i ∈ ids s → (i ∈ jobs s ↔ ObsJobDone i ∉ trace s)) ∧
  (∀ i, count (is_job_done i) (trace s) ≤ 1).
Proof.
  apply (coordinator_set_invariants ex_uuidv1 ex_jobList (Some 2%Z) ex_heap ex_sched).
  intros a b Hab. unfold ex_uuidv1 in Hab. lia.
Defined.

(** C9 (no double release within a phase).  In the trace of every run,
    between two ['ready'] signals to the same job there is a ['stepDone']
    or a ['jobDone'] sent by that job, and a phase start: the two signals
    belong to different phases.  (The trace is newest first, so the later
    signal is the one written first.) *)
Theorem no_double_release (uuidv1 : nat → Id) (jobList : list Descriptor)
    (c : option Z) (h : gmap Ref (list Value)) (sched : list nat) :
  (∀ a b, uuidv1 a = uuidv1 b → a = b) →
  ∀ later i mid past,
    trace (run sched (phaseSyncedSettle uuidv1 jobList c h)) =
      later ++ ObsReady i :: mid ++ ObsReady i :: past →
    (∃ o, o ∈ mid ∧ reports i o) ∧ 0 < phases mid.
Proof.
  intros Hinj later i mid past Ht.
  destruct (run_running uuidv1 Hinj sched jobList c h) as [HI _].
  destruct (trace_event _ _ _ _ HI Ht) as [Hopen Howing].
  apply last_ready_open_split in Hopen. split; [done|].
  destruct (decide (phases mid = 0)) as [H0|]; [|lia].
  exfalso. by eapply owing_after_report.
Qed.

Lemma no_double_release_witness :
  let mid :=
    [ObsPhaseStart [100; 101; 102];
     ObsStepDone 102 1; ObsArm 102; ObsWork 102 1 1;
     ObsStepDone 101 1; ObsArm 101; ObsWork 101 1 1; ObsReady 102;
     ObsStepDone 100 1; ObsArm 100; ObsWork 100 1 1; ObsReady 101] in
  (∃ o, o ∈ mid ∧ reports 100 o) ∧ 0 < phases mid.
Proof.
  intros mid.
  apply (no_double_release ex_uuidv1 ex_jobList (Some 2%Z) ex_heap ex_sched
           ex_uuidv1_inj
           [ObsPhaseStart []; ObsJobDone 102; ObsWork 102 2 2; ObsJobDone 101;
            ObsReady 102; ObsJobDone 100; ObsWork 100 2 2; ObsReady 101]
           100 mid
           [ObsPhaseStart [100; 101; 102]; ObsArm 102; ObsInvoke 102 [VSyncer 2];
            ObsArm 101; ObsInvoke 101 [VSyncer 1];
            ObsArm 100; ObsInvoke 100 [VSyncer 0; VData 5]]).
  vm_compute. reflexivity.
Defined.

(** C1 (barrier correctness).  In the trace of every run: work that a job
    does in phase [k+1] (its phase counter is [k+2]) comes after the start
    of phase [k+1], which comes after a notification ([stepDone] or
    [jobDone]) from every job of the snapshot taken at the start of phase
    [k], all of them sent since that start; every phase is started with
    nobody of the running phase still pending; and ['ready'] is only ever
    sent to a job that is pending in the phase that is running. *)
Theorem barrier_correctness (uuidv1 : nat → Id) (jobList : list Descriptor)
    (c : option Z) (h : gmap Ref (list Value)) (sched : list nat) :
  (∀ a b, uuidv1 a = uuidv1 b → a = b) →
  let t := trace (run sched (phaseSyncedSettle uuidv1 jobList c h)) in
  (∀ later i k w past, t = later ++ ObsWork i (S (S k)) w :: past →
     ∃ since snap' mid snap before,
       past = since ++ ObsPhaseStart snap' :: mid ++ ObsPhaseStart snap :: before ∧
       phases before = k ∧ phases mid = 0 ∧
       ∀ j, j ∈ snap → ∃ o, o ∈ mid ∧ reports j o) ∧
  (∀ later snap past, t = later ++ ObsPhaseStart snap :: past → owing past = []) ∧
  (∀ later i past, t = later ++ ObsReady i :: past → i ∈ owing past).
Proof.
  intros Hinj t.
  destruct (run_running uuidv1 Hinj sched jobList c h) as [HI _]. fold t in HI.
  split; [|split].
  - intros later i k w past Ht.
    destruct (trace_event _ _ _ _ HI Ht) as (HG & _ & _).
    destruct (phases_split (S k) past) as (since & snap' & rest & -> & Hrest); [lia|].
    destruct (last_phase_split rest) as (mid & snap & before & -> & Hmid); [lia|].
    exists since, snap', mid, snap, before. split; [done|].
    rewrite phases_app, Hmid in Hrest. unfold phases in Hrest. simpl in Hrest.
    split; [unfold phases; lia|]. split; [done|].
    assert (owing (mid ++ ObsPhaseStart snap :: before) = []) as Hnil.
    { apply (trace_event _ (later ++ ObsWork i (S (S k)) w :: since)
               (mid ++ ObsPhaseStart snap :: before) (ObsPhaseStart snap') HI).
      fold t. rewrite Ht. by rewrite <- app_assoc. }
    by eapply owing_nil_reported.
  - intros later snap past Ht. apply (trace_event _ _ _ _ HI Ht).
  - intros later i past Ht. apply (trace_event _ _ _ _ HI Ht).
Qed.

Lemma barrier_correctness_witness :
  let past :=
    [ObsReady 101; ObsReady 100; ObsPhaseStart [100; 101; 102];
     ObsStepDone 102 1; ObsArm 102; ObsWork 102 1 1;
     ObsStepDone 101 1; ObsArm 101; ObsWork 101 1 1; ObsReady 102;
     ObsStepDone 100 1; ObsArm 100; ObsWork 100 1 1;
     ObsReady 101; ObsReady 100; ObsPhaseStart [100; 101; 102];
     ObsArm 102; ObsInvoke 102 [VSyncer 2]; ObsArm 101; ObsInvoke 101 [VSyncer 1];
     ObsArm 100; ObsInvoke 100 [VSyncer 0; VData 5]] in
  ∃ since snap' mid snap before,
    past = since ++ ObsPhaseStart snap' :: mid ++ ObsPhaseStart snap :: before ∧
    phases before = 0 ∧ phases mid = 0 ∧
    ∀ j, j ∈ snap → ∃ o, o ∈ mid ∧ reports j o.
Proof.
  intros past.
  apply (proj1 (barrier_correctness ex_uuidv1 ex_jobList (Some 2%Z) ex_heap ex_sched
                  ex_uuidv1_inj)
           [ObsPhaseStart []; ObsJobDone 102; ObsWork 102 2 2; ObsJobDone 101;
            ObsReady 102; ObsJobDone 100]
           100 0 2 past).
  vm_compute. reflexivity.
Defined.

Lemma lookup_frame (s s' : State) (me : nat) (this : PhaseSyncer) :
  frame s s' → syncers s !! me = Some this →
  ∃ this', syncers s' !! me = Some this' ∧ id this' = id this.
Proof.
  intros Hf Hme. pose proof (frame_ids _ _ Hf) as Hids. unfold ids in Hids.
  assert ((id <$> syncers s') !! me = Some (id this)) as Hl.
  { by rewrite Hids, list_lookup_fmap, Hme. }
  rewrite list_lookup_fmap in Hl.
  destruct (syncers s' !! me) as [this'|]; simplify_eq/=. eauto.
Qed.

(** C6 (exactly one termination notification).  In every state of every
    run and for every job: the number of ['jobDone'] notifications sent
    with the job's identifier is one if [jobPromise] has settled and zero
    otherwise; when the job function has settled, whether fulfilled or
    rejected, the next turn of the job sends the ['jobDone'] with its
    identifier, once, and settles [jobPromise] with the same outcome; and
    after that the job has no turn that does anything.  The phase counter
    of the job plays no part. *)
Theorem exactly_once_jobDone (uuidv1 : nat → Id) (jobList : list Descriptor)
    (c : option Z) (h : gmap Ref (list Value)) (sched : list nat) :
  (∀ a b, uuidv1 a = uuidv1 b → a = b) →
  let s := run sched (phaseSyncedSettle uuidv1 jobList c h) in
  ∀ me this, syncers s !! me = Some this →
    count (is_job_done (id this)) (trace s) =
      match jobPromise this with Finished _ => 1 | _ => 0 end ∧
    (∀ v, exec me (Return v) s = upd me (set_jobPromise (Settled (Fulfilled v))) s) ∧
    (∀ e, exec me (Throw e) s = upd me (set_jobPromise (Settled (Rejected e))) s) ∧
    (∀ r, jobPromise this = Settled r →
       ∃ later this',
         trace (step me s) = later ++ ObsJobDone (id this) :: trace s ∧
         count (is_job_done (id this)) later = 0 ∧
         syncers (step me s) !! me = Some this' ∧
         jobPromise this' = Finished r) ∧
    (∀ r, jobPromise this = Finished r → step me s = s).
Proof.
  intros Hinj s me this Hme.
  pose proof (run_running uuidv1 Hinj sched jobList c h) as HR. fold s in HR.
  destruct HR as [HI HG].
  pose proof (Inv_job _ _ _ HI Hme) as (_ & _ & Hok).
  pose proof (each_job_done_once (id this) (trace s) (inv_events s HI)) as Hle.
  split; [|split; [done|split; [done|split]]].
  - destruct (jobPromise this); try (apply is_job_done_elem; tauto).
    destruct Hok as (_ & _ & Hin).
    assert (0 < count (is_job_done (id this)) (trace s)); [|lia].
    apply count_pos. exists (ObsJobDone (id this)). split; [done|].
    simpl. by apply bool_decide_eq_true.
  - intros r Hst.
    pose proof (step_inv me s (conj HI HG)) as [HI' _].
    pose proof (each_job_done_once (id this) _ (inv_events _ HI')) as Hle'.
    assert (∃ later, trace (step me s) = later ++ ObsJobDone (id this) :: trace s)
      as [later Hlater].
    { rewrite (step_Settled me s this r) by done. unfold emit_jobDone. simpl.
      rewrite (inv_handlers s HI).
      destruct (frame_on_jobDone (id this)
                  (record (ObsJobDone (id this)) (upd me (set_jobPromise (Finished r)) s)))
        as [_ _ _ _ _ _ [later Hl]].
      exists later. by rewrite Hl. }
    assert (∃ this', syncers (step me s) !! me = Some this' ∧ jobPromise this' = Finished r)
      as (this' & Hme' & Hst').
    { unfold step. rewrite Hme, Hst. simpl. rewrite list_lookup_alter_eq.
      destruct (lookup_frame s (emit_jobDone (id this) s) me this
                  (frame_emit_jobDone _ _) Hme) as (x & -> & _).
      simpl. eauto. }
    exists later, this'. split; [done|]. split; [|done].
    rewrite Hlater, count_app in Hle'. simpl in Hle'.
    rewrite bool_decide_true in Hle' by done. lia.
  - intros r Hst. unfold step. by rewrite Hme, Hst.
Qed.

Lemma exactly_once_jobDone_witness :
  let s := run ex_sched (phaseSyncedSettle ex_uuidv1 ex_jobList (Some 2%Z) ex_heap) in
  let this := mkPhaseSyncer 101 2 0 (Finished (Rejected 7)) in
  count (is_job_done (id this)) (trace s) =
    match jobPromise this with Finished _ => 1 | _ => 0 end ∧
  (∀ v, exec 1 (Return v) s = upd 1 (set_jobPromise (Settled (Fulfilled v))) s) ∧
  (∀ e, exec 1 (Throw e) s = upd 1 (set_jobPromise (Settled (Rejected e))) s) ∧
  (∀ r, jobPromise this = Settled r →
     ∃ later this',
       trace (step 1 s) = later ++ ObsJobDone (id this) :: trace s ∧
       count (is_job_done (id this)) later = 0 ∧
       syncers (step 1 s) !! 1 = Some this' ∧
       jobPromise this' = Finished r) ∧
  (∀ r, jobPromise this = Finished r → step 1 s = s).
Proof.
  intros s this.
  apply (exactly_once_jobDone ex_uuidv1 ex_jobList (Some 2%Z) ex_heap ex_sched
           ex_uuidv1_inj 1 this).
  vm_compute. reflexivity.
Defined.

(** ** What a listener can do

    In any state, a listener of [ctrlEmitter] leaves every phase counter
    alone, and all it adds to the trace are phase starts and ['ready']
    signals. *)

Definition cntrs (s : State) : list nat := phaseCntr <$> syncers s.

Definition signal (o : Obs) : Prop := is_ready o = true ∨ is_phase_start o = true.

Record handled (s s' : State) : Prop := {
  handled_cntrs : cntrs s' = cntrs s;
  handled_trace : ∃ later, trace s' = later ++ trace s ∧ ∀ o, o ∈ later → signal o
}.

Lemma handled_refl (s : State) : handled s s.
Proof. split; [done|]. exists []. split; [done|]. by intros o ?%elem_of_nil. Qed.

Lemma handled_trans (s1 s2 s3 : State) : handled s1 s2 → handled s2 s3 → handled s1 s3.
Proof.
  intros [Hc1 (l1 & Ht1 & Hs1)] [Hc2 (l2 & Ht2 & Hs2)]. split; [congruence|].
  exists (l2 ++ l1). split; [by rewrite Ht2, Ht1, app_assoc|].
  intros o [?|?]%elem_of_app; auto.
Qed.

Lemma cntrs_alter_fire_ready (ix : nat) (l : list PhaseSyncer) :
  phaseCntr <$> alter fire_ready ix l = phaseCntr <$> l.
Proof.
  apply list_eq. intros j. rewrite !list_lookup_fmap.
  destruct (decide (j = ix)) as [->|Hne].
  - rewrite list_lookup_alter_eq. destruct (l !! ix) as [h|]; simpl; [|done].
    unfold fire_ready. by destruct (jobEmitter h).
  - by rewrite list_lookup_alter_ne.
Qed.

Lemma handled_emit_ready (i : Id) (s : State) : handled s (emit_ready i s).
Proof.
  unfold emit_ready. destruct (Map_get i (jobMap s)); split; simpl.
  - apply cntrs_alter_fire_ready.
  - exists [ObsReady i]. split; [done|]. intros o ->%list_elem_of_singleton. by left.
  - done.
  - exists [ObsReady i]. split; [done|]. intros o ->%list_elem_of_singleton. by left.
Qed.

Lemma handled_foldl_emit_ready (l : list Id) (s : State) :
  handled s (foldl (λ s i, emit_ready i s) s l).
Proof.
  revert s. induction l as [|i l IH]; intros s; simpl; [apply handled_refl|].
  eapply handled_trans; [apply (handled_emit_ready i)|apply IH].
Qed.

Lemma handled_startNewPhase (s : State) : handled s (startNewPhase s).
Proof.
  unfold startNewPhase.
  destruct (handled_foldl_emit_ready (slice (jobs s) 0 (concurrency s))
              (record (ObsPhaseStart (jobs s)) s)) as [Hc (later & Ht & Hs)].
  split; [done|]. exists (later ++ [ObsPhaseStart (jobs s)]). simpl. split.
  - rewrite Ht. simpl. by rewrite <- app_assoc.
  - intros o [?|Ho]%elem_of_app; [auto|].
    apply list_elem_of_singleton in Ho as ->. by right.
Qed.

Lemma handled_startQueuedJob (s : State) : handled s (startQueuedJob s).
Proof.
  unfold startQueuedJob. destruct (queuedJobs s) as [|i q]; [apply handled_refl|].
  destruct (handled_emit_ready i s) as [Hc Ht]. by split.
Qed.

Lemma handled_on_stepDone (i : Id) (n : nat) (s : State) : handled s (on_stepDone i n s).
Proof.
  unfold on_stepDone. case_decide.
  - destruct (handled_startNewPhase
                (set_phasePendingJobs (Set_delete i (phasePendingJobs s)) s)) as [Hc Ht].
    by split.
  - destruct (handled_startQueuedJob
                (set_phasePendingJobs (Set_delete i (phasePendingJobs s)) s)) as [Hc Ht].
    by split.
Qed.

Lemma handled_on_jobDone (i : Id) (s : State) : handled s (on_jobDone i s).
Proof.
  unfold on_jobDone. case_decide.
  - destruct (handled_startNewPhase
                (set_phasePendingJobs (Set_delete i (phasePendingJobs s))
                   (set_queuedJobs (Set_delete i (queuedJobs s))
                      (set_jobs (Set_delete i (jobs s)) s)))) as [Hc Ht].
    by split.
  - destruct (handled_startQueuedJob
                (set_phasePendingJobs (Set_delete i (phasePendingJobs s))
                   (set_queuedJobs (Set_delete i (queuedJobs s))
                      (set_jobs (Set_delete i (jobs s)) s)))) as [Hc Ht].
    by split.
Qed.

(** [phase()] in any state: what it writes, and what it does to the
    counter. *)
Lemma phase_call (me : nat) (s : State) (this : PhaseSyncer) :
  syncers s !! me = Some this →
  ∃ later this',
    trace (phase me s) =
      later ++ (if decide (0 < phaseCntr this)
                then [ObsStepDone (id this) (phaseCntr this)] else [])
            ++ ObsArm (id this) :: trace s ∧
    (∀ o, o ∈ later → signal o) ∧
    (phaseCntr this = 0 ∨ handlers s = false → later = []) ∧
    syncers (phase me s) !! me = Some this' ∧
    id this' = id this ∧
    phaseCntr this' = S (phaseCntr this).
Proof.
  intros Hme. unfold phase. rewrite Hme.
  set (s1 := record (ObsArm (id this)) (upd me arm s)).
  assert (∃ later,
    handled (record (ObsStepDone (id this) (phaseCntr this)) s1)
            (emit_stepDone (id this) (phaseCntr this) s1) ∧
    trace (emit_stepDone (id this) (phaseCntr this) s1) =
      later ++ ObsStepDone (id this) (phaseCntr this) :: trace s1 ∧
    (∀ o, o ∈ later → signal o) ∧ (handlers s = false → later = []))
    as (later & Hh & Ht & Hsig & Hoff).
  { unfold emit_stepDone. change (handlers s1) with (handlers s).
    destruct (handlers s).
    - pose proof (handled_on_stepDone (id this) (phaseCntr this)
                    (record (ObsStepDone (id this) (phaseCntr this)) s1)) as Hh.
      destruct (handled_trace _ _ Hh) as (later & Ht & Hsig).
      exists later. split; [exact Hh|]. split; [exact Ht|]. split; [exact Hsig|done].
    - exists []. split; [apply handled_refl|]. split; [done|].
      split; [|done]. by intros o ?%elem_of_nil. }
  assert (∀ s2, cntrs s2 = cntrs s1 → frame s1 s2 →
            ∃ this', syncers (upd me incr s2) !! me = Some this' ∧
                     id this' = id this ∧ phaseCntr this' = S (phaseCntr this))
    as Hincr.
  { intros s2 Hc Hf.
    assert (syncers s1 !! me = Some (arm this)) as Hme1.
    { simpl. by rewrite list_lookup_alter_eq, Hme. }
    destruct (lookup_frame s1 s2 me (arm this) Hf Hme1) as (h2 & Hme2 & Hid2).
    exists (incr h2). simpl. rewrite list_lookup_alter_eq, Hme2. simpl.
    split; [done|]. split; [done|]. f_equal.
    assert (cntrs s2 !! me = cntrs s1 !! me) as Hl by (by rewrite Hc).
    unfold cntrs in Hl. rewrite !list_lookup_fmap, Hme1, Hme2 in Hl.
    by simplify_eq/=. }
  case_decide as Hpos.
  - destruct (Hincr (emit_stepDone (id this) (phaseCntr this) s1))
      as (this' & Hme' & Hid' & Hc').
    { rewrite (handled_cntrs _ _ Hh). done. }
    { apply frame_emit_stepDone. }
    exists later, this'. simpl. rewrite Ht. repeat split; try done.
    intros [?|?]; [lia|auto].
  - destruct (Hincr s1) as (this' & Hme' & Hid' & Hc'); [done|apply frame_refl|].
    exists [], this'. repeat split; try done. by intros o ?%elem_of_nil.
Qed.

(** ** Who is released in a turn *)

Lemma fire_all_nil (h : PhaseSyncer) : fire_all [] h = h.
Proof. unfold fire_all. rewrite decide_False; [done|apply not_elem_of_nil]. Qed.

Lemma fire_all_singleton (i : Id) (h : PhaseSyncer) : fire_all [i] h = fire i h.
Proof.
  unfold fire_all, fire. destruct (decide (id h = i)) as [Heq|Hne].
  - rewrite decide_True; [done|]. rewrite Heq. left.
  - rewrite decide_False; [done|]. by intros ?%list_elem_of_singleton.
Qed.

(** The jobs [L] that the tail of a listener signals, the objects after
    it, and what it writes. *)
Lemma advance_released (s : State) :
  Inv s →
  let s' := if decide (length (phasePendingJobs s) = 0) then startNewPhase s
            else startQueuedJob s in
  ∃ L later,
    trace s' = later ++ trace s ∧
    syncers s' = fire_all L <$> syncers s ∧
    (∀ i, ObsReady i ∈ later ↔ i ∈ L).
Proof.
  intros HI. simpl. case_decide.
  - rewrite startNewPhase_eq by apply HI. simpl.
    exists (slice (jobs s) 0 (concurrency s)),
           (reverse (ObsReady <$> slice (jobs s) 0 (concurrency s))
              ++ [ObsPhaseStart (jobs s)]).
    split; [by rewrite <- app_assoc|]. split; [done|].
    intros i. rewrite elem_of_readies, list_elem_of_singleton. split.
    + intros [(j & [= ->] & Hj)|[=]]. done.
    + intros Hi. left. eauto.
  - destruct (queuedJobs s) as [|i q] eqn:Hq.
    + unfold startQueuedJob. rewrite Hq. exists [], []. split; [done|]. split.
      * rewrite <- (list_fmap_id (syncers s)) at 1. apply list_fmap_ext.
        intros _ h _. by rewrite fire_all_nil.
      * intros i. split; by intros ?%elem_of_nil.
    + rewrite (startQueuedJob_eq s i q) by (done || apply HI). simpl.
      exists [i], [ObsReady i]. split; [done|]. split.
      * apply list_fmap_ext. intros _ h _. by rewrite fire_all_singleton.
      * intros j. rewrite !list_elem_of_singleton. split; [by intros [= ->]|by intros ->].
Qed.

(** What a turn of the job at [me] does to the objects of the others. *)
Definition others_fired (me : nat) (L : list Id) (s s' : State) : Prop :=
  ∀ ix, ix ≠ me → syncers s' !! ix = fire_all L <$> syncers s !! ix.

Lemma others_fired_upd (me : nat) (f : PhaseSyncer → PhaseSyncer) (s : State) :
  others_fired me [] s (upd me f s).
Proof.
  intros ix Hne. simpl. rewrite list_lookup_alter_ne by done.
  destruct (syncers s !! ix); simpl; [by rewrite fire_all_nil|done].
Qed.

Lemma others_fired_advance (me : nat) (f : PhaseSyncer → PhaseSyncer)
    (L : list Id) (s sm s' : State) :
  syncers sm = alter f me (syncers s) → syncers s' = fire_all L <$> syncers sm →
  others_fired me L s s'.
Proof.
  intros Hm Hs ix Hne. rewrite Hs, Hm, list_lookup_fmap.
  by rewrite list_lookup_alter_ne.
Qed.

Lemma exec_others (me : nat) (k k0 : Job) (s : State) (this : PhaseSyncer) :
  Running s → syncers s !! me = Some this → jobPromise this = Runnable k0 →
  ∃ L later,
    trace (exec me k s) = later ++ trace s ∧
    (∀ i, ObsReady i ∈ later ↔ i ∈ L) ∧
    others_fired me L s (exec me k s).
Proof.
  revert s this. induction k as [v|e|w k IH|k IH|k IH]; intros s this [HI HG] Hme Hst.
  1, 2, 4: exists [], []; split; [done|]; split;
           [intros i; split; by intros ?%elem_of_nil|apply others_fired_upd].
  - simpl. destruct (IH (work me w s) this) as (L & later & Ht & HL & Ho).
    { split; [by eapply work_inv|]. unfold work. by rewrite Hme. }
    { unfold work. by rewrite Hme. }
    { done. }
    exists L, (later ++ [ObsWork (id this) (phaseCntr this) w]).
    unfold work in *. rewrite Hme in *. split; [by rewrite Ht, <- app_assoc|].
    split; [|done]. intros i. rewrite <- HL, elem_of_app, list_elem_of_singleton.
    split; [by intros [?|[=]]|auto].
  - destruct (decide (phaseCntr this = 0)) as [H0|H0].
    + rewrite (exec_AwaitPhase_first me k s this) by done.
      exists [], [ObsArm (id this)]. split; [done|]. split.
      * intros i. rewrite list_elem_of_singleton. split; [by intros [=]|by intros ?%elem_of_nil].
      * apply (others_fired_upd me (parked k)).
    + rewrite (exec_AwaitPhase_report me k s this) by (done || lia).
      unfold emit_stepDone. simpl. rewrite (inv_handlers s HI).
      set (sm := set_phasePendingJobs (Set_delete (id this) (phasePendingJobs s))
                   (record (ObsStepDone (id this) (phaseCntr this))
                      (record (ObsArm (id this)) (upd me (parked k) s)))).
      destruct (advance_released sm) as (L & later & Ht & Hs & HL).
      { eapply report_inv; [done..|lia]. }
      change (on_stepDone (id this) (phaseCntr this)
                (record (ObsStepDone (id this) (phaseCntr this))
                   (record (ObsArm (id this)) (upd me (parked k) s))))
        with (if decide (length (phasePendingJobs sm) = 0) then startNewPhase sm
              else startQueuedJob sm).
      exists L, (later ++ [ObsStepDone (id this) (phaseCntr this); ObsArm (id this)]).
      split; [by rewrite Ht, <- app_assoc|].
      split.
      * intros i. rewrite <- HL, elem_of_app, !elem_of_cons.
        split; [|auto]. intros [?|[[=]|[[=]|?%elem_of_nil]]]; done.
      * by apply (others_fired_advance me (parked k) L s sm).
Qed.

Lemma step_others (me : nat) (s : State) :
  Running s →
  ∃ L later,
    trace (step me s) = later ++ trace s ∧
    (∀ i, ObsReady i ∈ later ↔ i ∈ L) ∧
    others_fired me L s (step me s).
Proof.
  intros HR.
  assert (∃ L later, trace s = later ++ trace s ∧
            (∀ i, ObsReady i ∈ later ↔ i ∈ L) ∧ others_fired me L s s) as Hsame.
  { exists [], []. split; [done|]. split; [intros i; split; by intros ?%elem_of_nil|].
    intros ix _. destruct (syncers s !! ix); simpl; [by rewrite fire_all_nil|done]. }
  destruct (syncers s !! me) as [this|] eqn:Hme.
  2: { unfold step. by rewrite Hme. }
  destruct (jobPromise this) as [k|k|r|r] eqn:Hst.
  - unfold step. rewrite Hme, Hst. by eapply exec_others.
  - unfold step. by rewrite Hme, Hst.
  - rewrite (step_Settled me s this r) by done. destruct HR as [HI HG].
    unfold emit_jobDone. simpl. rewrite (inv_handlers s HI).
    set (sm := set_phasePendingJobs (Set_delete (id this) (phasePendingJobs s))
                 (set_queuedJobs (Set_delete (id this) (queuedJobs s))
                    (set_jobs (Set_delete (id this) (jobs s))
                       (record (ObsJobDone (id this))
                          (upd me (set_jobPromise (Finished r)) s))))).
    destruct (advance_released sm) as (L & later & Ht & Hs & HL).
    { by eapply done_inv. }
    change (on_jobDone (id this)
              (record (ObsJobDone (id this)) (upd me (set_jobPromise (Finished r)) s)))
      with (if decide (length (phasePendingJobs sm) = 0) then startNewPhase sm
            else startQueuedJob sm).
    exists L, (later ++ [ObsJobDone (id this)]).
    split; [by rewrite Ht, <- app_assoc|].
    split.
    + intros i. rewrite <- HL, elem_of_app, list_elem_of_singleton.
      split; [by intros [?|[=]]|auto].
    + by apply (others_fired_advance me (set_jobPromise (Finished r)) L s sm).
  - unfold step. by rewrite Hme, Hst.
Qed.

(** A job that runs awaits [phase()]: it is suspended afterwards, unless
    the listener of its own ['stepDone'] released it on the spot, which
    the listener armed beforehand has caught. *)
Lemma await_phase_outcome (me : nat) (k k0 : Job) (s : State) (this : PhaseSyncer) :
  Running s → syncers s !! me = Some this → jobPromise this = Runnable k0 →
  ∃ later this',
    trace (exec me (AwaitPhase k) s) =
      later ++ (if decide (0 < phaseCntr this)
                then [ObsStepDone (id this) (phaseCntr this)] else [])
            ++ ObsArm (id this) :: trace s ∧
    syncers (exec me (AwaitPhase k) s) !! me = Some this' ∧
    phaseCntr this' = S (phaseCntr this) ∧
    ((jobPromise this' = Waiting k ∧ jobEmitter this' ≠ 0 ∧
      ObsReady (id this) ∉ later) ∨
     (jobPromise this' = Runnable k ∧ jobEmitter this' = 0 ∧
      ObsReady (id this) ∈ later)).
Proof.
  intros [HI HG] Hme Hst. destruct (decide (phaseCntr this = 0)) as [H0|H0].
  - rewrite (exec_AwaitPhase_first me k s this) by done.
    rewrite decide_False by lia. exists [], (parked k this). simpl.
    rewrite list_lookup_alter_eq, Hme. simpl.
    split; [done|]. split; [done|]. split; [done|]. left.
    split; [done|]. split; [done|]. apply not_elem_of_nil.
  - rewrite (exec_AwaitPhase_report me k s this) by (done || lia).
    rewrite decide_True by lia.
    unfold emit_stepDone. simpl. rewrite (inv_handlers s HI).
    set (sm := set_phasePendingJobs (Set_delete (id this) (phasePendingJobs s))
                 (record (ObsStepDone (id this) (phaseCntr this))
                    (record (ObsArm (id this)) (upd me (parked k) s)))).
    destruct (advance_released sm) as (L & later & Ht & Hs & HL).
    { eapply report_inv; [done..|lia]. }
    change (on_stepDone (id this) (phaseCntr this)
              (record (ObsStepDone (id this) (phaseCntr this))
                 (record (ObsArm (id this)) (upd me (parked k) s))))
      with (if decide (length (phasePendingJobs sm) = 0) then startNewPhase sm
            else startQueuedJob sm).
    exists later, (fire_all L (parked k this)). split; [by rewrite Ht|].
    split.
    { rewrite Hs. simpl. by rewrite list_lookup_fmap, list_lookup_alter_eq, Hme. }
    unfold fire_all, fire_ready. simpl.
    destruct (decide (id this ∈ L)) as [Hin|Hin]; simpl; (split; [done|]).
    + right. split; [done|]. split; [done|]. by apply HL.
    + left. split; [done|]. split; [done|]. intros Hr. by apply Hin, HL.
Qed.

(** What one call of [phase()] by the job at [me] does, [this] being the
    object of the job before the call: the arming is written first; then,
    exactly when the counter is positive, one ['stepDone'] with the job's
    identifier and counter; what follows is the listener's (['ready']
    signals and phase starts); the counter is one more afterwards. *)
Definition phase_call_contract (s : State) (me : nat) (this : PhaseSyncer) : Prop :=
  ∃ later this',
    trace (phase me s) =
      later ++ (if decide (0 < phaseCntr this)
                then [ObsStepDone (id this) (phaseCntr this)] else [])
            ++ ObsArm (id this) :: trace s ∧
    (∀ o, o ∈ later → signal o) ∧
    (phaseCntr this = 0 ∨ handlers s = false → later = []) ∧
    syncers (phase me s) !! me = Some this' ∧
    id this' = id this ∧
    phaseCntr this' = S (phaseCntr this).

(** What holds of the job at [me] in a state [s] of a run: the calls it
    has made are as many as its counter says and its ['stepDone']
    notifications one less; no turn lowers the counter.  If it runs and
    awaits [phase()], then afterwards it is suspended, its listener still
    armed, exactly if no ['ready'] was sent to it within the call, after
    the arming; a ['ready'] sent to it within the call (by the listener
    of its own ['stepDone']) is heard, because the listener was armed
    first: the job is then due to resume with what follows the call.  If
    it is suspended, its own turn does nothing; over the turn of any
    other job it stays suspended exactly if no ['ready'] is sent to it in
    that turn, and a ['ready'] that is sent to it resumes it: its
    listener is gone and it is due to go on with what follows the call,
    which its next turn runs. *)
Definition phase_run_contract (s : State) (me : nat) (this : PhaseSyncer) : Prop :=
  count (is_arm (id this)) (trace s) = phaseCntr this ∧
  count (is_step_done (id this)) (trace s) = pred (phaseCntr this) ∧
  (∀ j this', syncers (step j s) !! me = Some this' →
     phaseCntr this ≤ phaseCntr this') ∧
  (∀ k0 k, jobPromise this = Runnable k0 →
     ∃ later this',
       trace (exec me (AwaitPhase k) s) =
         later ++ (if decide (0 < phaseCntr this)
                   then [ObsStepDone (id this) (phaseCntr this)] else [])
               ++ ObsArm (id this) :: trace s ∧
       syncers (exec me (AwaitPhase k) s) !! me = Some this' ∧
       phaseCntr this' = S (phaseCntr this) ∧
       ((jobPromise this' = Waiting k ∧ jobEmitter this' ≠ 0 ∧
         ObsReady (id this) ∉ later) ∨
        (jobPromise this' = Runnable k ∧ jobEmitter this' = 0 ∧
         ObsReady (id this) ∈ later))) ∧
  (∀ k, jobPromise this = Waiting k →
     jobEmitter this ≠ 0 ∧
     step me s = s ∧
     ∀ j, ∃ later this',
       trace (step j s) = later ++ trace s ∧
       syncers (step j s) !! me = Some this' ∧
       phaseCntr this' = phaseCntr this ∧
       ((jobPromise this' = Waiting k ∧ jobEmitter this' ≠ 0 ∧
         ObsReady (id this) ∉ later) ∨
        (jobPromise this' = Runnable k ∧ jobEmitter this' = 0 ∧
         ObsReady (id this) ∈ later ∧
         step me (step j s) = exec me k (step j s)))).

(** C5 (contract of the phase-boundary operation).  Every call of
    [phase()], in any state, arms the wait before anything is sent, sends
    one ['stepDone'] if and only if the counter of the job is positive, and
    adds one to the counter ([phase_call_contract]); and in every state of
    every run each job's counter counts its calls, never decreases, its
    ['stepDone'] notifications are one per call after the first, and the
    job is suspended from an awaited call until a ['ready'] is sent to it
    after the arming, and no longer: while none is sent it stays
    suspended, and the first one that is sent, be it within the call
    itself, resumes it ([phase_run_contract]). *)
Theorem phase_contract (uuidv1 : nat → Id) (jobList : list Descriptor)
    (c : option Z) (h : gmap Ref (list Value)) (sched : list nat) :
  (∀ a b, uuidv1 a = uuidv1 b → a = b) →
  (∀ s me this, syncers s !! me = Some this → phase_call_contract s me this) ∧
  (∀ me this,
     syncers (run sched (phaseSyncedSettle uuidv1 jobList c h)) !! me = Some this →
     phase_run_contract (run sched (phaseSyncedSettle uuidv1 jobList c h)) me this).
Proof.
  intros Hinj. split; [intros s me this; apply phase_call|].
  set (s := run sched (phaseSyncedSettle uuidv1 jobList c h)).
  intros me this Hme. unfold phase_run_contract.
  pose proof (run_running uuidv1 Hinj sched jobList c h) as HR. fold s in HR.
  pose proof (Inv_job _ _ _ (proj1 HR) Hme) as (Ha & Hs & Hok).
  split; [done|]. split; [done|]. split; [|split].
  - intros j this' Hme'.
    pose proof (step_inv j s HR) as [HI' _].
    pose proof (Inv_job _ _ _ HI' Hme') as (Ha' & _).
    destruct (lookup_frame s (step j s) me this (frame_step j s) Hme)
      as (x & Hx & Hid). rewrite Hme' in Hx. simplify_eq.
    destruct (frame_trace _ _ (frame_step j s)) as [later Hl].
    rewrite Hl, count_app, Hid in Ha'. lia.
  - intros k0 k Hst. by eapply await_phase_outcome.
  - intros k Hst. rewrite Hst in Hok. destruct Hok as (He & _).
    split; [done|]. split; [unfold step; by rewrite Hme, Hst|].
    intros j. destruct (decide (j = me)) as [->|Hne].
    { exists [], this. unfold step. rewrite Hme, Hst.
      split; [done|]. split; [done|]. split; [done|]. left.
      split; [done|]. split; [done|]. apply not_elem_of_nil. }
    destruct (step_others j s HR) as (L & later & Ht & HL & Ho).
    assert (syncers (step j s) !! me = Some (fire_all L this)) as Hme'.
    { rewrite (Ho me) by done. by rewrite Hme. }
    exists later, (fire_all L this). split; [done|]. split; [done|].
    unfold fire_all, fire_ready in *.
    destruct (decide (id this ∈ L)) as [Hin|Hin].
    + destruct (jobEmitter this) as [|e]; [done|]. simpl. rewrite Hst. simpl.
      split; [done|]. right. split; [done|]. split; [done|].
      split; [by apply HL|].
      unfold step at 1. rewrite Hme'. simpl. by rewrite Hst.
    + split; [done|]. left. split; [done|]. split; [done|].
      intros Hr. by apply Hin, HL.
Qed.

Lemma phase_contract_witness :
  let s := run [0] (phaseSyncedSettle ex_uuidv1 ex_jobList (Some 2%Z) ex_heap) in
  let this := mkPhaseSyncer 101 1 0 (Runnable (Work 1 (AwaitPhase (Throw 7)))) in
  let s0 := run [] (phaseSyncedSettle ex_uuidv1 ex_jobList (Some 2%Z) ex_heap) in
  let queued :=
    mkPhaseSyncer 102 1 1 (Waiting (Work 1 (AwaitPhase (Work 2 (Return 10))))) in
  phase_call_contract s 1 this ∧ phase_run_contract s 1 this ∧
  phase_run_contract s0 2 queued.
Proof.
  intros s this s0 queued.
  destruct (phase_contract ex_uuidv1 ex_jobList (Some 2%Z) ex_heap [0] ex_uuidv1_inj)
    as [Hcall Hrun].
  destruct (phase_contract ex_uuidv1 ex_jobList (Some 2%Z) ex_heap [] ex_uuidv1_inj)
    as [_ Hrun0].
  split; [|split].
  - apply Hcall. vm_compute. reflexivity.
  - apply Hrun. vm_compute. reflexivity.
  - apply Hrun0. vm_compute. reflexivity.
Defined.

(** The third job of the example is queued when the call returns, and
    waits; the turn in which the first job reports its step sends it a
    ['ready'], and it is due to resume; its own turn then runs what
    follows its [await phase()]. *)
Example ready_resumes :
  let s0 := phaseSyncedSettle ex_uuidv1 ex_jobList (Some 2%Z) ex_heap in
  syncers s0 !! 2 =
    Some (mkPhaseSyncer 102 1 1 (Waiting (Work 1 (AwaitPhase (Work 2 (Return 10)))))) ∧
  syncers (step 0 s0) !! 2 =
    Some (mkPhaseSyncer 102 1 0 (Runnable (Work 1 (AwaitPhase (Work 2 (Return 10)))))) ∧
  trace (step 0 s0) =
    [ObsReady 102; ObsStepDone 100 1; ObsArm 100; ObsWork 100 1 1] ++ trace s0 ∧
  trace (step 2 (step 0 s0)) =
    [ObsStepDone 102 1; ObsArm 102; ObsWork 102 1 1] ++ trace (step 0 s0).
Proof. vm_compute. repeat split; reflexivity. Qed.

(** ** The caller's arrays *)

(** The jobs, by their place in the job list, whose descriptor holds the
    array [r]; in the order of the list. *)
Definition users (r : Ref) (jobList : list Descriptor) : list nat :=
  omap (λ x, x) (imap (λ me d, if decide (args d = r) then Some me else None) jobList).

Lemma users_app (r : Ref) (l1 l2 : list Descriptor) :
  users r (l1 ++ l2) =
  users r l1 ++ omap (λ x, x) (imap (λ me d, if decide (args d = r)
                                           then Some (length l1 + me) else None) l2).
Proof. unfold users. by rewrite imap_app, omap_app. Qed.

Lemma users_snoc (r : Ref) (l : list Descriptor) (d : Descriptor) :
  users r (l ++ [d]) = users r l ++ (if decide (args d = r) then [length l] else []).
Proof.
  rewrite users_app. simpl. rewrite Nat.add_0_r. by case_decide.
Qed.

Lemma elem_of_users (r : Ref) (jobList : list Descriptor) (me : nat) :
  me ∈ users r jobList ↔ args <$> jobList !! me = Some r.
Proof.
  induction jobList as [|d l IH] using rev_ind.
  - split; [by intros ?%elem_of_nil|done].
  - rewrite users_snoc, elem_of_app, IH.
    destruct (decide (me < length l)) as [Hlt|Hge].
    + rewrite lookup_app_l by done. split; [|auto].
      intros [?|Hin]; [done|]. case_decide; [|by apply elem_of_nil in Hin].
      apply list_elem_of_singleton in Hin. lia.
    + rewrite lookup_app_r by lia. rewrite (lookup_ge_None_2 l) by lia.
      destruct (decide (me = length l)) as [->|Hne].
      * rewrite Nat.sub_diag. simpl. split.
        -- intros [[=]|Hin]. case_decide; [congruence|by apply elem_of_nil in Hin].
        -- intros [= Hr]. right. rewrite decide_True by done. left.
      * destruct (me - length l) as [|x] eqn:Hx; [lia|]. simpl. split; [|done].
        intros [[=]|Hin]. case_decide; [|by apply elem_of_nil in Hin].
        apply list_elem_of_singleton in Hin. lia.
Qed.

Lemma constructed_snoc (uuidv1 : nat → Id) (l : list Descriptor) (d : Descriptor) (s : State) :
  constructed uuidv1 (l ++ [d]) s =
  construct (uuidv1 (length (syncers (constructed uuidv1 l s)))) d (constructed uuidv1 l s).
Proof. unfold constructed. by rewrite foldl_snoc. Qed.

Lemma heap_construct (uuid : Id) (d : Descriptor) (s : State) :
  heap (construct uuid d s) =
  <[args d := VSyncer (length (syncers s)) :: default [] (heap s !! args d)]> (heap s).
Proof. unfold construct. by rewrite (frame_heap _ _ (frame_exec _ _ _)). Qed.

Lemma trace_construct (uuid : Id) (d : Descriptor) (s : State) :
  ∃ later, trace (construct uuid d s) =
    later ++ ObsInvoke uuid (VSyncer (length (syncers s)) :: default [] (heap s !! args d))
          :: trace s.
Proof.
  unfold construct.
  match goal with
  | |- ∃ later, trace (exec ?me ?k ?s1) = _ =>
      destruct (frame_trace _ _ (frame_exec me k s1)) as [later Hl]
  end.
  exists later. by rewrite Hl.
Qed.

(** Every array holds, in front of what it held, the objects of the jobs
    that were given it, the last one first. *)
Lemma heap_constructed (uuidv1 : nat → Id) (jobList : list Descriptor)
    (c : option Z) (h : gmap Ref (list Value)) (r : Ref) :
  heap (constructed uuidv1 jobList (init c h)) !! r =
  if decide (users r jobList = []) then h !! r
  else Some ((VSyncer <$> reverse (users r jobList)) ++ default [] (h !! r)).
Proof.
  induction jobList as [|d l IH] using rev_ind; [done|].
  rewrite constructed_snoc, heap_construct, users_snoc.
  rewrite length_syncers_constructed. simpl.
  destruct (decide (args d = r)) as [<-|Hne].
  - rewrite lookup_insert_eq, IH.
    rewrite (decide_False (P := users (args d) l ++ [length l] = []))
      by (by destruct (users (args d) l)).
    rewrite reverse_app. simpl. f_equal. f_equal.
    case_decide as Hu; [by rewrite Hu|done].
  - rewrite lookup_insert_ne by done. rewrite app_nil_r. apply IH.
Qed.

Lemma heap_constructed_default (uuidv1 : nat → Id) (jobList : list Descriptor)
    (c : option Z) (h : gmap Ref (list Value)) (r : Ref) :
  default [] (heap (constructed uuidv1 jobList (init c h)) !! r) =
  (VSyncer <$> reverse (users r jobList)) ++ default [] (h !! r).
Proof.
  rewrite heap_constructed. case_decide as Hu; [|done]. by rewrite Hu.
Qed.

(** The arguments job [me] of the list is invoked with: its own object,
    then its array as it is at that moment. *)
Definition argv (jobList : list Descriptor) (h : gmap Ref (list Value))
    (me : nat) (d : Descriptor) : list Value :=
  VSyncer me :: (VSyncer <$> reverse (users (args d) (take me jobList)))
             ++ default [] (h !! args d).

Lemma invoke_constructed (uuidv1 : nat → Id) (jobList : list Descriptor)
    (c : option Z) (h : gmap Ref (list Value)) (me : nat) (d : Descriptor) :
  jobList !! me = Some d →
  ObsInvoke (uuidv1 me) (argv jobList h me d)
    ∈ trace (constructed uuidv1 jobList (init c h)).
Proof.
  induction jobList as [|d' l IH] using rev_ind; [done|]. intros Hme.
  rewrite constructed_snoc.
  destruct (trace_construct (uuidv1 (length (syncers (constructed uuidv1 l (init c h)))))
              d' (constructed uuidv1 l (init c h))) as [later ->].
  rewrite length_syncers_constructed. simpl.
  destruct (decide (me < length l)) as [Hlt|Hge].
  - rewrite lookup_app_l in Hme by done. apply elem_of_app. right. right.
    unfold argv in *. rewrite take_app_le by lia. by apply IH.
  - assert (me = length l) as ->.
    { apply lookup_lt_Some in Hme. rewrite length_app in Hme. simpl in Hme. lia. }
    rewrite list_lookup_middle in Hme by done. simplify_eq.
    apply elem_of_app. right. apply elem_of_cons. left. unfold argv.
    rewrite heap_constructed_default, take_app_length. done.
Qed.

Lemma omap_all_None {A} (l : list (option A)) :
  (∀ j x, l !! j = Some x → x = None) → omap (λ x, x) l = [].
Proof.
  induction l as [|x l IH]; intros Hl; [done|].
  rewrite (Hl 0 x) by done. simpl. apply IH. intros j y Hj. by apply (Hl (S j)).
Qed.

Lemma users_latest (jobList : list Descriptor) (me : nat) (d : Descriptor) :
  jobList !! me = Some d →
  (∀ me', me < me' → args <$> jobList !! me' ≠ Some (args d)) →
  users (args d) jobList = users (args d) (take me jobList) ++ [me].
Proof.
  intros Hme Hlater. pose proof (lookup_lt_Some _ _ _ Hme) as Hlt.
  rewrite <- (take_drop_middle jobList me d Hme) at 1.
  rewrite users_app. f_equal. rewrite length_take, Nat.min_l by lia.
  rewrite imap_cons. simpl. rewrite decide_True by done. rewrite Nat.add_0_r.
  f_equal. apply omap_all_None. intros j x Hj.
  rewrite list_lookup_imap in Hj.
  destruct (drop (S me) jobList !! j) as [d'|] eqn:Hd'; simplify_eq/=.
  case_decide as Hr; [|done]. exfalso.
  rewrite lookup_drop in Hd'. apply (Hlater (S me + j)); [lia|].
  by rewrite Hd'; simpl; rewrite Hr.
Qed.

Lemma heap_phaseSyncedSettle (uuidv1 : nat → Id) (jobList : list Descriptor)
    (c : option Z) (h : gmap Ref (list Value)) :
  heap (phaseSyncedSettle uuidv1 jobList c h) = heap (constructed uuidv1 jobList (init c h)).
Proof.
  rewrite phaseSyncedSettle_unfold. cbv zeta.
  by rewrite (frame_heap _ _ (frame_startNewPhase _)).
Qed.

Lemma trace_phaseSyncedSettle (uuidv1 : nat → Id) (jobList : list Descriptor)
    (c : option Z) (h : gmap Ref (list Value)) :
  ∃ later, trace (phaseSyncedSettle uuidv1 jobList c h) =
           later ++ trace (constructed uuidv1 jobList (init c h)).
Proof.
  rewrite phaseSyncedSettle_unfold. cbv zeta.
  match goal with
  | |- ∃ later, trace (startNewPhase ?s4) = _ =>
      destruct (frame_trace _ _ (frame_startNewPhase s4)) as [later Hl]
  end.
  exists later. by rewrite Hl.
Qed.

(** C10 (the argument arrays are mutated in place).  When
    [phaseSyncedSettle] returns, every array of the caller holds, in front
    of what it held before the call, the PhaseSyncer objects of the jobs
    whose descriptor names it, the last such job first, and an array that
    no descriptor names is as it was; each job function was invoked with
    its own object followed by the content its array had at that moment
    (so with the objects of earlier jobs on the same array); the first
    element of a job's array is therefore the object of a job on that
    array, and when no later descriptor shares the array the array is
    exactly the argument list the job's function was invoked with, its own
    object first.  Nothing in the run touches the arrays afterwards. *)
Theorem args_mutated_in_place (uuidv1 : nat → Id) (jobList : list Descriptor)
    (c : option Z) (h : gmap Ref (list Value)) (sched : list nat) :
  let s := phaseSyncedSettle uuidv1 jobList c h in
  (∀ r, heap s !! r =
        if decide (users r jobList = []) then h !! r
        else Some ((VSyncer <$> reverse (users r jobList)) ++ default [] (h !! r))) ∧
  (∀ me d, jobList !! me = Some d →
     ObsInvoke (uuidv1 me) (argv jobList h me d) ∈ trace s ∧
     (∃ last rest, heap s !! args d = Some (VSyncer last :: rest) ∧
                   args <$> jobList !! last = Some (args d)) ∧
     ((∀ me', me < me' → args <$> jobList !! me' ≠ Some (args d)) →
      heap s !! args d = Some (argv jobList h me d))) ∧
  heap (run sched s) = heap s.
Proof.
  intros s. unfold s. split; [|split].
  - intros r. rewrite heap_phaseSyncedSettle. apply heap_constructed.
  - intros me d Hme. rewrite heap_phaseSyncedSettle, heap_constructed.
    assert (me ∈ users (args d) jobList) as Hin.
    { apply elem_of_users. by rewrite Hme. }
    rewrite decide_False by (intros Hu; rewrite Hu in Hin; by apply elem_of_nil in Hin).
    split; [|split].
    + destruct (trace_phaseSyncedSettle uuidv1 jobList c h) as [later ->].
      apply elem_of_app. right. by apply invoke_constructed.
    + destruct (reverse (users (args d) jobList)) as [|last rest] eqn:Hrev.
      { apply (f_equal reverse) in Hrev. rewrite reverse_involutive in Hrev.
        rewrite Hrev in Hin. by apply elem_of_nil in Hin. }
      exists last, ((VSyncer <$> rest) ++ default [] (h !! args d)).
      split; [done|]. apply elem_of_users, elem_of_reverse. rewrite Hrev. left.
    + intros Hlater. rewrite (users_latest jobList me d Hme Hlater).
      rewrite reverse_app. done.
  - apply (frame_heap _ _ (frame_run sched _)).
Qed.

Example args_shared_array :
  let jobList := [mkDescriptor (λ _, Return 1) 0; mkDescriptor (λ _, Return 2) 0] in
  let s := phaseSyncedSettle ex_uuidv1 jobList None {[ 0 := [VData 5] ]} in
  heap s !! 0 = Some [VSyncer 1; VSyncer 0; VData 5] ∧
  reverse (trace s) =
    [ObsInvoke 100 [VSyncer 0; VData 5]; ObsInvoke 101 [VSyncer 1; VSyncer 0; VData 5];
     ObsPhaseStart [100; 101]; ObsReady 100].
Proof. vm_compute. split; reflexivity. Qed.

(** ** The outcome of a job *)

(** How the job function ends. *)
Fixpoint outcome (k : Job) : Result :=
  match k with
  | Return v => Fulfilled v
  | Throw e => Rejected e
  | Work _ k' => outcome k'
  | Await k' => outcome k'
  | AwaitPhase k' => outcome k'
  end.

(** The outcome a job is heading for, or has. *)
Definition outcome_of (st : Status) : Result :=
  match st with
  | Runnable k => outcome k
  | Waiting k => outcome k
  | Settled r => r
  | Finished r => r
  end.

Definition outcomes (s : State) : list Result :=
  (λ h, outcome_of (jobPromise h)) <$> syncers s.

Lemma outcomes_alter (f : PhaseSyncer → PhaseSyncer) (me : nat) (l : list PhaseSyncer) :
  (∀ h, outcome_of (jobPromise (f h)) = outcome_of (jobPromise h)) →
  (λ h, outcome_of (jobPromise h)) <$> alter f me l =
  (λ h, outcome_of (jobPromise h)) <$> l.
Proof.
  intros Hf. apply list_eq. intros j. rewrite !list_lookup_fmap.
  destruct (decide (j = me)) as [->|Hne].
  - rewrite list_lookup_alter_eq. destruct (l !! me); simpl; [by rewrite Hf|done].
  - by rewrite list_lookup_alter_ne.
Qed.

Lemma outcomes_alter_const (f : PhaseSyncer → PhaseSyncer) (r : Result) (me : nat)
    (l : list PhaseSyncer) :
  (∀ h, outcome_of (jobPromise (f h)) = r) →
  (λ h, outcome_of (jobPromise h)) <$> alter f me l =
  <[me := r]> ((λ h, outcome_of (jobPromise h)) <$> l).
Proof.
  intros Hf. apply list_eq. intros j. rewrite !list_lookup_fmap.
  destruct (decide (j = me)) as [->|Hne].
  - rewrite list_lookup_alter_eq. destruct (l !! me) as [x|] eqn:Hx; simpl.
    + rewrite list_lookup_insert_eq; [by rewrite Hf|].
      rewrite length_fmap. by eapply lookup_lt_Some.
    + rewrite list_insert_ge; [by rewrite list_lookup_fmap, Hx|].
      rewrite length_fmap. by apply lookup_ge_None.
  - rewrite list_lookup_alter_ne, list_lookup_insert_ne by done.
    by rewrite list_lookup_fmap.
Qed.

Lemma outcome_fire_ready (h : PhaseSyncer) :
  outcome_of (jobPromise (fire_ready h)) = outcome_of (jobPromise h).
Proof. unfold fire_ready. destruct (jobEmitter h); [done|]. simpl. by destruct (jobPromise h). Qed.

Lemma outcomes_emit_ready (i : Id) (s : State) : outcomes (emit_ready i s) = outcomes s.
Proof.
  unfold emit_ready. destruct (Map_get i (jobMap s)); [|done].
  apply outcomes_alter, outcome_fire_ready.
Qed.

Lemma outcomes_foldl_emit_ready (l : list Id) (s : State) :
  outcomes (foldl (λ s i, emit_ready i s) s l) = outcomes s.
Proof.
  revert s. induction l as [|i l IH]; intros s; simpl; [done|].
  by rewrite IH, outcomes_emit_ready.
Qed.

Lemma outcomes_startNewPhase (s : State) : outcomes (startNewPhase s) = outcomes s.
Proof.
  unfold startNewPhase.
  exact (outcomes_foldl_emit_ready _ (record (ObsPhaseStart (jobs s)) s)).
Qed.

Lemma outcomes_startQueuedJob (s : State) : outcomes (startQueuedJob s) = outcomes s.
Proof.
  unfold startQueuedJob. destruct (queuedJobs s) as [|i q]; [done|].
  exact (outcomes_emit_ready i s).
Qed.

Lemma outcomes_on_stepDone (i : Id) (n : nat) (s : State) :
  outcomes (on_stepDone i n s) = outcomes s.
Proof.
  unfold on_stepDone. case_decide.
  - by rewrite outcomes_startNewPhase.
  - by rewrite outcomes_startQueuedJob.
Qed.

Lemma outcomes_on_jobDone (i : Id) (s : State) : outcomes (on_jobDone i s) = outcomes s.
Proof.
  unfold on_jobDone. case_decide.
  - by rewrite outcomes_startNewPhase.
  - by rewrite outcomes_startQueuedJob.
Qed.

Lemma outcomes_phase (me : nat) (s : State) : outcomes (phase me s) = outcomes s.
Proof.
  unfold phase. destruct (syncers s !! me) as [this|]; [|done].
  unfold outcomes at 1. simpl. rewrite outcomes_alter by done.
  fold (outcomes (if decide (0 < phaseCntr this)
                  then emit_stepDone (id this) (phaseCntr this)
                         (record (ObsArm (id this)) (upd me arm s))
                  else record (ObsArm (id this)) (upd me arm s))).
  assert (outcomes (record (ObsArm (id this)) (upd me arm s)) = outcomes s) as Harm.
  { unfold outcomes. simpl. by apply outcomes_alter. }
  case_decide; [|done]. unfold emit_stepDone. simpl.
  destruct (handlers s); [|done]. by rewrite outcomes_on_stepDone.
Qed.

Lemma outcomes_exec (me : nat) (k : Job) (s : State) :
  outcomes (exec me k s) = <[me := outcome k]> (outcomes s).
Proof.
  revert s. induction k; intros s; simpl.
  - by apply outcomes_alter_const.
  - by apply outcomes_alter_const.
  - rewrite IHk. unfold work. by destruct (syncers s !! me).
  - by apply outcomes_alter_const.
  - unfold outcomes at 1. simpl.
    rewrite (outcomes_alter_const (await k) (outcome k)).
    + fold (outcomes (phase me s)). by rewrite outcomes_phase.
    + intros h. unfold await. by destruct (jobEmitter h).
Qed.

Lemma outcomes_step (me : nat) (s : State) : outcomes (step me s) = outcomes s.
Proof.
  unfold step. destruct (syncers s !! me) as [this|] eqn:Hme; [|done].
  assert (outcomes s !! me = Some (outcome_of (jobPromise this))) as Hout.
  { unfold outcomes. by rewrite list_lookup_fmap, Hme. }
  destruct (jobPromise this) as [k|k|r|r] eqn:Hst; try done.
  - rewrite outcomes_exec. by apply list_insert_id.
  - unfold outcomes at 1. simpl.
    rewrite (outcomes_alter_const (set_jobPromise (Finished r)) r) by done.
    fold (outcomes (emit_jobDone (id this) s)).
    assert (outcomes (emit_jobDone (id this) s) = outcomes s) as ->.
    { unfold emit_jobDone. destruct (handlers s); [|done].
      by rewrite outcomes_on_jobDone. }
    by apply list_insert_id.
Qed.

Lemma outcomes_run (sched : list nat) (s : State) : outcomes (run sched s) = outcomes s.
Proof.
  revert s. induction sched as [|me sched IH]; intros s; simpl; [done|].
  by rewrite IH, outcomes_step.
Qed.

Lemma outcomes_construct (uuid : Id) (d : Descriptor) (s : State) :
  outcomes (construct uuid d s) =
  outcomes s ++
  [outcome (fun_ d (VSyncer (length (syncers s)) :: default [] (heap s !! args d)))].
Proof.
  unfold construct. rewrite outcomes_exec. unfold outcomes. simpl.
  rewrite fmap_app. simpl.
  rewrite <- (length_fmap (λ h, outcome_of (jobPromise h)) (syncers s)).
  rewrite list_insert_id; [done|]. by rewrite list_lookup_middle.
Qed.

Lemma outcomes_constructed (uuidv1 : nat → Id) (jobList : list Descriptor)
    (c : option Z) (h : gmap Ref (list Value)) (me : nat) (d : Descriptor) :
  jobList !! me = Some d →
  outcomes (constructed uuidv1 jobList (init c h)) !! me =
  Some (outcome (fun_ d (argv jobList h me d))).
Proof.
  induction jobList as [|d' l IH] using rev_ind; [done|]. intros Hme.
  rewrite constructed_snoc, outcomes_construct.
  rewrite length_syncers_constructed. simpl.
  assert (length (outcomes (constructed uuidv1 l (init c h))) = length l) as Hlen.
  { unfold outcomes. by rewrite length_fmap, length_syncers_constructed. }
  destruct (decide (me < length l)) as [Hlt|Hge].
  - rewrite lookup_app_l in Hme by done. rewrite lookup_app_l by lia.
    unfold argv in *. rewrite take_app_le by lia. by apply IH.
  - assert (me = length l) as ->.
    { apply lookup_lt_Some in Hme. rewrite length_app in Hme. simpl in Hme. lia. }
    rewrite list_lookup_middle in Hme by done. simplify_eq.
    rewrite list_lookup_middle by done. unfold argv.
    by rewrite heap_constructed_default, take_app_length.
Qed.

Lemma outcomes_phaseSyncedSettle (uuidv1 : nat → Id) (jobList : list Descriptor)
    (c : option Z) (h : gmap Ref (list Value)) :
  outcomes (phaseSyncedSettle uuidv1 jobList c h) =
  outcomes (constructed uuidv1 jobList (init c h)).
Proof. rewrite phaseSyncedSettle_unfold. cbv zeta. by rewrite outcomes_startNewPhase. Qed.

(** ** The aggregate *)

Lemma lookups_seq {A} (l : list A) :
  (λ ix, l !! ix) <$> seq 0 (length l) = Some <$> l.
Proof.
  apply list_eq. intros j. rewrite !list_lookup_fmap.
  destruct (l !! j) as [x|] eqn:Hj; simpl.
  - rewrite lookup_seq_lt by (by eapply lookup_lt_Some). simpl. by rewrite Hj.
  - rewrite lookup_seq_ge; [done|]. by apply lookup_ge_None.
Qed.

Lemma pSettle_Some (l : list PhaseSyncer) : pSettle (Some <$> l) = mapM settled l.
Proof.
  unfold pSettle. induction l as [|x l IH]; [done|].
  rewrite fmap_cons. simpl. by rewrite IH.
Qed.

(** In a run, [jobMap.values()] are the objects in the order in which they
    were constructed. *)
Lemma aggregate_run (uuidv1 : nat → Id) (jobList : list Descriptor)
    (c : option Z) (h : gmap Ref (list Value)) (sched : list nat) :
  (∀ a b, uuidv1 a = uuidv1 b → a = b) →
  let s := run sched (phaseSyncedSettle uuidv1 jobList c h) in
  length (syncers s) = length jobList ∧
  ids s = uuidv1 <$> seq 0 (length jobList) ∧
  aggregate s = mapM settled (syncers s).
Proof.
  intros Hinj s.
  pose proof (constructed_built uuidv1 Hinj jobList _ (init_built uuidv1 c h)) as HB.
  set (s1 := constructed uuidv1 jobList (init c h)) in *.
  assert (frame (registered s1) s) as Hf.
  { unfold s. rewrite phaseSyncedSettle_unfold. cbv zeta. fold s1.
    eapply frame_trans; [apply frame_startNewPhase|apply frame_run]. }
  assert (ids s = ids s1) as Hids by apply (frame_ids _ _ Hf).
  assert (length (syncers s) = length jobList) as Hlen.
  { rewrite <- (length_fmap id (syncers s)). fold (ids s). rewrite Hids.
    unfold ids. rewrite length_fmap. unfold s1.
    by rewrite length_syncers_constructed. }
  split; [done|]. split.
  { rewrite Hids, (built_ids _ _ HB). unfold s1.
    by rewrite length_syncers_constructed. }
  unfold aggregate. rewrite (frame_jobMap _ _ Hf).
  rewrite (registered_jobMap uuidv1 Hinj s1 HB).
  unfold Map_values. rewrite imap_values.
  assert (length (syncers s1) = length (syncers s)) as ->.
  { rewrite Hlen. unfold s1. by rewrite length_syncers_constructed. }
  by rewrite lookups_seq, pSettle_Some.
Qed.

(** C2 (the aggregate is complete and in input order).  In every state of
    every run: the aggregate is unresolved exactly as long as some job's
    [jobPromise] has not settled; and once it has resolved it has one entry
    for each job of the input list, the entry at a job's place in the list
    being the way that job's function ended (its fulfilled value or its
    rejection reason) on the arguments it was invoked with, whatever the
    order in which the jobs finished, every job having sent its
    ['jobDone']. *)
Theorem aggregate_in_input_order (uuidv1 : nat → Id) (jobList : list Descriptor)
    (c : option Z) (h : gmap Ref (list Value)) (sched : list nat) :
  (∀ a b, uuidv1 a = uuidv1 b → a = b) →
  let s := run sched (phaseSyncedSettle uuidv1 jobList c h) in
  (aggregate s = None ↔
   ∃ me this, syncers s !! me = Some this ∧ ∀ r, jobPromise this ≠ Finished r) ∧
  (∀ rs, aggregate s = Some rs →
     length rs = length jobList ∧
     ∀ me d, jobList !! me = Some d →
       ObsInvoke (uuidv1 me) (argv jobList h me d) ∈ trace s ∧
       ObsJobDone (uuidv1 me) ∈ trace s ∧
       rs !! me = Some (outcome (fun_ d (argv jobList h me d)))).
Proof.
  intros Hinj s.
  destruct (aggregate_run uuidv1 jobList c h sched Hinj) as (Hlen & Hids & Hagg).
  fold s in Hlen, Hids, Hagg.
  pose proof (run_running uuidv1 Hinj sched jobList c h) as [HI _]. fold s in HI.
  rewrite Hagg. split.
  - rewrite mapM_None, Exists_exists. split.
    + intros (this & Hin & Hnone). apply list_elem_of_lookup in Hin as [me Hme].
      exists me, this. split; [done|]. intros r Hr. unfold settled in Hnone.
      by rewrite Hr in Hnone.
    + intros (me & this & Hme & Hnot). exists this.
      split; [by eapply list_elem_of_lookup_2|].
      unfold settled. destruct (jobPromise this) eqn:Hst; try done. by destruct (Hnot r).
  - intros rs Hrs. apply mapM_Some in Hrs.
    split; [by rewrite <- (Forall2_length _ _ _ Hrs)|].
    intros me d Hme.
    assert (me < length (syncers s)) as Hlt.
    { rewrite Hlen. by eapply lookup_lt_Some. }
    destruct (lookup_lt_is_Some_2 _ _ Hlt) as [this Hthis].
    destruct (Forall2_lookup_l _ _ _ _ _ Hrs Hthis) as (r & Hr & Hset).
    unfold settled in Hset. destruct (jobPromise this) as [| | |r'] eqn:Hst; try done.
    simplify_eq.
    assert (id this = uuidv1 me) as Hid.
    { assert (ids s !! me = Some (id this)) as Hl.
      { unfold ids. by rewrite list_lookup_fmap, Hthis. }
      rewrite Hids, list_lookup_fmap in Hl.
      rewrite lookup_seq_lt in Hl by (by eapply lookup_lt_Some, Hme).
      simpl in Hl. by simplify_eq. }
    split; [|split].
    + destruct (frame_trace _ _ (frame_run sched (phaseSyncedSettle uuidv1 jobList c h)))
        as [later Hl]. fold s in Hl. rewrite Hl.
      destruct (trace_phaseSyncedSettle uuidv1 jobList c h) as [later' ->].
      rewrite !elem_of_app. right. right. by apply invoke_constructed.
    + pose proof (Inv_job _ _ _ HI Hthis) as (_ & _ & Hok).
      rewrite Hst in Hok. rewrite <- Hid. tauto.
    + rewrite Hr. f_equal.
      assert (outcomes s !! me = Some r) as Hout.
      { unfold outcomes. by rewrite list_lookup_fmap, Hthis; simpl; rewrite Hst. }
      unfold s in Hout.
      rewrite outcomes_run, outcomes_phaseSyncedSettle in Hout.
      rewrite (outcomes_constructed uuidv1 jobList c h me d Hme) in Hout.
      by simplify_eq.
Qed.

Lemma aggregate_in_input_order_witness :
  let s := run ex_sched (phaseSyncedSettle ex_uuidv1 ex_jobList (Some 2%Z) ex_heap) in
  let rs := [Fulfilled 10; Rejected 7; Fulfilled 10] in
  let d := mkDescriptor (λ _, failing) 1 in
  length rs = length ex_jobList ∧
  ObsInvoke (ex_uuidv1 1) (argv ex_jobList ex_heap 1 d) ∈ trace s ∧
  ObsJobDone (ex_uuidv1 1) ∈ trace s ∧
  rs !! 1 = Some (outcome (fun_ d (argv ex_jobList ex_heap 1 d))).
Proof.
  intros s rs d.
  destruct (aggregate_in_input_order ex_uuidv1 ex_jobList (Some 2%Z) ex_heap ex_sched
              ex_uuidv1_inj) as [_ Hsome].
  destruct (Hsome rs) as [Hlen Hentries].
  { vm_compute. reflexivity. }
  split; [exact Hlen|]. apply (Hentries 1 d). reflexivity.
Defined.

(** ** What construction writes *)

(** An event that the job with identifier [i] writes in a turn of its own
    while no listener is registered. *)
Definition own (i : Id) (o : Obs) : Prop :=
  match o with
  | ObsWork j _ _ => j = i
  | ObsArm j => j = i
  | ObsStepDone j _ => j = i
  | _ => False
  end.

(** The identifiers of the jobs whose function was invoked, newest first. *)
Definition invocations (t : list Obs) : list Id :=
  omap (λ o, match o with ObsInvoke i _ => Some i | _ => None end) t.

Lemma exec_own (me : nat) (k : Job) (s : State) (this : PhaseSyncer) :
  handlers s = false → syncers s !! me = Some this →
  ∃ later, trace (exec me k s) = later ++ trace s ∧ ∀ o, o ∈ later → own (id this) o.
Proof.
  revert s. induction k as [v|e|w k IH|k IH|k IH]; intros s Hoff Hme.
  1, 2, 4: exists []; split; [done|]; by intros o ?%elem_of_nil.
  - simpl. destruct (IH (work me w s)) as (later & Ht & Hown).
    { unfold work. by rewrite Hme. }
    { unfold work. by rewrite Hme. }
    exists (later ++ [ObsWork (id this) (phaseCntr this) w]).
    unfold work in *. rewrite Hme in *. split; [by rewrite Ht, <- app_assoc|].
    intros o [?|Ho]%elem_of_app; [auto|].
    by apply list_elem_of_singleton in Ho as ->.
  - destruct (phase_call me s this Hme) as (later & this' & Ht & _ & Hnil & _).
    rewrite (Hnil (or_intror Hoff)) in Ht. simpl in Ht.
    exists ((if decide (0 < phaseCntr this)
             then [ObsStepDone (id this) (phaseCntr this)] else [])
            ++ [ObsArm (id this)]).
    split; [simpl; by rewrite Ht, <- app_assoc|].
    intros o [Ho|Ho]%elem_of_app.
    + case_decide; [|by apply elem_of_nil in Ho].
      by apply list_elem_of_singleton in Ho as ->.
    + by apply list_elem_of_singleton in Ho as ->.
Qed.

Lemma construct_own (uuid : Id) (d : Descriptor) (s : State) :
  handlers s = false →
  ∃ later,
    trace (construct uuid d s) =
      later ++ ObsInvoke uuid (VSyncer (length (syncers s)) :: default [] (heap s !! args d))
            :: trace s ∧
    ∀ o, o ∈ later → own uuid o.
Proof.
  intros Hoff. unfold construct.
  match goal with
  | |- ∃ later, trace (exec ?me ?k ?s1) = _ ∧ _ =>
      destruct (exec_own me k s1 (mkPhaseSyncer uuid 0 0 (Runnable k)) Hoff)
        as (later & Hl & Hown)
  end.
  { simpl. by rewrite lookup_app_r, Nat.sub_diag. }
  exists later. split; [by rewrite Hl|done].
Qed.

Lemma construct_opens (uuid : Id) (d : Descriptor) (s : State) (k : Job) :
  fun_ d (VSyncer (length (syncers s)) :: default [] (heap s !! args d)) = AwaitPhase k →
  trace (construct uuid d s) =
  ObsArm uuid
    :: ObsInvoke uuid (VSyncer (length (syncers s)) :: default [] (heap s !! args d))
    :: trace s.
Proof.
  intros Hk. unfold construct. rewrite Hk.
  by erewrite exec_AwaitPhase_first;
    [|simpl; by rewrite lookup_app_r, Nat.sub_diag|].
Qed.

Lemma invocations_own (i : Id) (later : list Obs) :
  (∀ o, o ∈ later → own i o) → invocations later = [].
Proof.
  induction later as [|o later IH]; intros Hown; [done|].
  pose proof (Hown o ltac:(left)) as Ho. unfold invocations in *.
  destruct o; try done; simpl; apply IH; intros; apply Hown; by right.
Qed.

Lemma invocations_constructed (uuidv1 : nat → Id) (jobList : list Descriptor)
    (c : option Z) (h : gmap Ref (list Value)) :
  (∀ a b, uuidv1 a = uuidv1 b → a = b) →
  invocations (trace (constructed uuidv1 jobList (init c h))) =
  reverse (uuidv1 <$> seq 0 (length jobList)).
Proof.
  intros Hinj. induction jobList as [|d l IH] using rev_ind; [done|].
  pose proof (constructed_built uuidv1 Hinj l _ (init_built uuidv1 c h)) as HB.
  rewrite constructed_snoc.
  destruct (construct_own (uuidv1 (length (syncers (constructed uuidv1 l (init c h)))))
              d _ (built_handlers _ _ HB)) as (later & -> & Hown).
  assert (∀ t1 t2, invocations (t1 ++ t2) = invocations t1 ++ invocations t2) as Happ.
  { intros t1 t2. unfold invocations. by rewrite omap_app. }
  rewrite Happ, (invocations_own _ later Hown). simpl.
  change (uuidv1 (length (syncers (constructed uuidv1 l (init c h))))
            :: invocations (trace (constructed uuidv1 l (init c h))) =
          reverse (uuidv1 <$> seq 0 (length (l ++ [d])))).
  rewrite IH, length_syncers_constructed, length_app. simpl.
  rewrite Nat.add_1_r, seq_S, fmap_app, reverse_app. done.
Qed.

(** A job whose function opens with [await phase()] has armed its wait,
    and done no work, when construction is over. *)
Lemma opens_constructed (uuidv1 : nat → Id) (jobList : list Descriptor)
    (c : option Z) (h : gmap Ref (list Value)) (me : nat) (d : Descriptor) :
  (∀ a b, uuidv1 a = uuidv1 b → a = b) →
  jobList !! me = Some d → (∀ a, ∃ k, fun_ d a = AwaitPhase k) →
  ObsArm (uuidv1 me) ∈ trace (constructed uuidv1 jobList (init c h)) ∧
  ∀ n w, ObsWork (uuidv1 me) n w ∉ trace (constructed uuidv1 jobList (init c h)).
Proof.
  intros Hinj. induction jobList as [|d' l IH] using rev_ind; [done|].
  intros Hme Hopens.
  pose proof (constructed_built uuidv1 Hinj l _ (init_built uuidv1 c h)) as HB.
  rewrite constructed_snoc.
  assert (length (syncers (constructed uuidv1 l (init c h))) = length l) as Hlen.
  { by rewrite length_syncers_constructed. }
  destruct (decide (me < length l)) as [Hlt|Hge].
  - rewrite lookup_app_l in Hme by done. destruct (IH Hme Hopens) as [Harm Hwork].
    destruct (construct_own (uuidv1 (length (syncers (constructed uuidv1 l (init c h)))))
                d' _ (built_handlers _ _ HB)) as (later & -> & Hown).
    split; [apply elem_of_app; right; by right|].
    intros n w [Hin|[[=]|Hin]%elem_of_cons]%elem_of_app; [|by eapply Hwork].
    apply Hown in Hin. simpl in Hin. apply Hinj in Hin. lia.
  - assert (me = length l) as ->.
    { apply lookup_lt_Some in Hme. rewrite length_app in Hme. simpl in Hme. lia. }
    rewrite list_lookup_middle in Hme by done. simplify_eq.
    destruct (Hopens (VSyncer (length (syncers (constructed uuidv1 l (init c h))))
                        :: default [] (heap (constructed uuidv1 l (init c h)) !! args d)))
      as [k Hk].
    rewrite (construct_opens _ d _ k Hk), Hlen.
    split; [left|].
    intros n w [[=]|[[=]|Hin]%elem_of_cons]%elem_of_cons.
    apply (built_quiet _ _ HB) in Hin. simpl in Hin. destruct Hin as [_ Hin].
    rewrite (built_ids _ _ HB), Hlen in Hin. by apply (uuid_fresh uuidv1 Hinj) in Hin.
Qed.

Lemma split_suffix {A} (later past pre t0 : list A) (o : A) :
  later ++ o :: past = pre ++ t0 → o ∈ t0 ∨ ∃ x, past = x ++ t0.
Proof.
  revert pre. induction later as [|a later IH]; intros [|p pre] Heq; simplify_eq/=.
  - left. left.
  - right. eauto.
  - left. apply elem_of_cons. right. apply elem_of_app. right. left.
  - by apply (IH pre).
Qed.

Lemma concurrency_constructed (uuidv1 : nat → Id) (jobList : list Descriptor) (s : State) :
  concurrency (constructed uuidv1 jobList s) = concurrency s.
Proof.
  revert s. induction jobList as [|d l IH]; intros s; simpl; [done|].
  fold (constructed uuidv1 l (construct (uuidv1 (length (syncers s))) d s)).
  rewrite IH. unfold construct.
  by rewrite (frame_concurrency _ _ (frame_exec _ _ _)).
Qed.

(** The trace when [phaseSyncedSettle] returns: what construction wrote,
    then the first phase start, then the first cohort. *)
Lemma trace_start (uuidv1 : nat → Id) (jobList : list Descriptor)
    (c : option Z) (h : gmap Ref (list Value)) :
  (∀ a b, uuidv1 a = uuidv1 b → a = b) →
  let all := uuidv1 <$> seq 0 (length jobList) in
  trace (phaseSyncedSettle uuidv1 jobList c h) =
  reverse (ObsReady <$> slice all 0 (default 1%Z c))
    ++ ObsPhaseStart all :: trace (constructed uuidv1 jobList (init c h)).
Proof.
  intros Hinj all.
  pose proof (constructed_built uuidv1 Hinj jobList _ (init_built uuidv1 c h)) as HB.
  destruct (registered_inv uuidv1 Hinj _ HB) as [HI _].
  rewrite phaseSyncedSettle_unfold. cbv zeta.
  change (set_handlers true _) with (registered (constructed uuidv1 jobList (init c h))).
  pose proof (startNewPhase_eq _ (inv_map _ HI) (inv_jobs_nodup _ HI)) as Heq.
  rewrite (registered_jobs uuidv1 Hinj _ HB), (built_ids _ _ HB) in Heq.
  rewrite length_syncers_constructed in Heq.
  change (concurrency (registered (constructed uuidv1 jobList (init c h))))
    with (concurrency (constructed uuidv1 jobList (init c h))) in Heq.
  rewrite concurrency_constructed in Heq. rewrite Heq. done.
Qed.

Definition eager : Job := Work 7 (Return 0).

(** C4, as stated, fails: with a cap of one and two jobs that never call
    [phase()], the function of the second job has done its work when
    [phaseSyncedSettle] returns, and no ['ready'] was ever sent to it. *)
Lemma capped_initial_start_counterexample :
  let s := phaseSyncedSettle ex_uuidv1
             [mkDescriptor (λ _, eager) 0; mkDescriptor (λ _, eager) 1] (Some 1%Z) ∅ in
  trace s = [ObsReady 100; ObsPhaseStart [100; 101];
             ObsWork 101 0 7; ObsInvoke 101 [VSyncer 1];
             ObsWork 100 0 7; ObsInvoke 100 [VSyncer 0]] ∧
  ObsWork 101 0 7 ∈ trace s ∧ ObsReady 101 ∉ trace s.
Proof.
  assert (trace (phaseSyncedSettle ex_uuidv1
             [mkDescriptor (λ _, eager) 0; mkDescriptor (λ _, eager) 1] (Some 1%Z) ∅) =
          [ObsReady 100; ObsPhaseStart [100; 101];
           ObsWork 101 0 7; ObsInvoke 101 [VSyncer 1];
           ObsWork 100 0 7; ObsInvoke 100 [VSyncer 0]]) as Ht.
  { vm_compute. reflexivity. }
  cbv zeta. rewrite Ht. split; [done|]. split.
  - apply elem_of_cons. right. apply elem_of_cons. right. left.
  - rewrite !not_elem_of_cons. repeat split; try done. apply not_elem_of_nil.
Qed.

(** C4, amended (start of the run).  When [phaseSyncedSettle] returns,
    every job function has been invoked, in the order of the job list, and
    has run up to its first suspension, all of it before the first phase
    start; the coordinator has then signalled ['ready'] to the first
    [concurrency] jobs ([min concurrency n] of them for a cap that is not
    negative) and to no other.  After that, in every run, no job does work
    that follows a call of [phase()] before a ['ready'] has been sent to
    it; so a job whose function opens with [await phase()] does none of
    its work before a ['ready'] has been sent to it. *)
Theorem gated_start (uuidv1 : nat → Id) (jobList : list Descriptor)
    (c : option Z) (h : gmap Ref (list Value)) (sched : list nat) :
  (∀ a b, uuidv1 a = uuidv1 b → a = b) →
  let all := uuidv1 <$> seq 0 (length jobList) in
  let cap := default 1%Z c in
  let s0 := phaseSyncedSettle uuidv1 jobList c h in
  (∃ t0, trace s0 = reverse (ObsReady <$> slice all 0 cap) ++ ObsPhaseStart all :: t0 ∧
         invocations t0 = reverse all ∧
         ∀ o, o ∈ t0 → is_ready o = false ∧ is_phase_start o = false) ∧
  ((0 ≤ cap)%Z → length (slice all 0 cap) = Z.to_nat cap `min` length jobList) ∧
  (∀ later i n w past,
     trace (run sched s0) = later ++ ObsWork i (S n) w :: past → ObsReady i ∈ past) ∧
  (∀ me d, jobList !! me = Some d → (∀ a, ∃ k, fun_ d a = AwaitPhase k) →
     ∀ later n w past,
       trace (run sched s0) = later ++ ObsWork (uuidv1 me) n w :: past →
       ObsReady (uuidv1 me) ∈ past).
Proof.
  intros Hinj all cap s0.
  pose proof (constructed_built uuidv1 Hinj jobList _ (init_built uuidv1 c h)) as HB.
  pose proof (run_running uuidv1 Hinj sched jobList c h) as [HI _]. fold s0 in HI.
  pose proof (trace_start uuidv1 jobList c h Hinj) as Hstart. cbv zeta in Hstart.
  fold all cap s0 in Hstart.
  split; [|split; [|split]].
  - exists (trace (constructed uuidv1 jobList (init c h))). split; [done|].
    split; [by apply invocations_constructed|].
    intros o Ho. apply (built_quiet _ _ HB) in Ho. by destruct o.
  - intros Hc. rewrite slice_0, rel_index_nonneg by done.
    rewrite length_take. unfold all. rewrite length_fmap, length_seq. lia.
  - intros later i n w past Ht.
    destruct (trace_event _ _ _ _ HI Ht) as (_ & _ & Hr). apply Hr. lia.
  - intros me d Hme Hopens later n w past Ht.
    destruct (opens_constructed uuidv1 jobList c h me d Hinj Hme Hopens) as [Harm Hwork].
    destruct (trace_event _ _ _ _ HI Ht) as (_ & Hcount & Hr). apply Hr.
    destruct (frame_trace _ _ (frame_run sched s0)) as [new Hnew].
    rewrite Hnew, Hstart in Ht.
    rewrite (app_assoc new), (cons_middle (ObsPhaseStart all)), app_assoc in Ht.
    symmetry in Ht.
    apply split_suffix in Ht as [Hin|[x ->]]; [by apply Hwork in Hin|].
    rewrite <- Hcount, count_app.
    assert (0 < count (is_arm (uuidv1 me)) (trace (constructed uuidv1 jobList (init c h))));
      [|lia].
    apply count_pos. exists (ObsArm (uuidv1 me)). split; [done|].
    simpl. by apply bool_decide_eq_true.
Qed.

Lemma gated_start_witness :
  let past :=
    [ObsReady 101; ObsReady 100; ObsPhaseStart [100; 101; 102];
     ObsArm 102; ObsInvoke 102 [VSyncer 2]; ObsArm 101; ObsInvoke 101 [VSyncer 1];
     ObsArm 100; ObsInvoke 100 [VSyncer 0; VData 5]] in
  ObsReady (ex_uuidv1 0) ∈ past.
Proof.
  intros past.
  destruct (gated_start ex_uuidv1 ex_jobList (Some 2%Z) ex_heap [0] ex_uuidv1_inj)
    as (_ & _ & _ & Hopens).
  apply (Hopens 0 (mkDescriptor (λ _, two_phases) 0) eq_refl
           (λ _, ex_intro _ _ eq_refl)
           [ObsReady 102; ObsStepDone 100 1; ObsArm 100] 1 1 past).
  vm_compute. reflexivity.
Defined.

(** ** The way a job ends is invisible to the coordinator *)

(** A job function with its ending masked. *)
Fixpoint course (k : Job) : Job :=
  match k with
  | Return _ => Return 0
  | Throw _ => Return 0
  | Work w k' => Work w (course k')
  | Await k' => Await (course k')
  | AwaitPhase k' => AwaitPhase (course k')
  end.

Definition veil_status (st : Status) : Status :=
  match st with
  | Runnable k => Runnable (course k)
  | Waiting k => Waiting (course k)
  | Settled _ => Settled (Fulfilled 0)
  | Finished _ => Finished (Fulfilled 0)
  end.

Definition veil_syncer (h : PhaseSyncer) : PhaseSyncer :=
  set_jobPromise (veil_status (jobPromise h)) h.

(** The state with the ending of the job at [me] masked. *)
Definition veil (me : nat) (s : State) : State := upd me veil_syncer s.

Lemma commutes_veil : commutes veil_syncer.
Proof.
  intros [i n [|e] st]; unfold fire_ready, veil_syncer; simpl; [done|].
  by destruct st.
Qed.

Lemma upd_comm (me j : nat) (f g : PhaseSyncer → PhaseSyncer) (s : State) :
  me ≠ j → upd me g (upd j f s) = upd j f (upd me g s).
Proof.
  intros Hne. unfold upd, set_syncers. simpl. f_equal. by apply list_alter_alter_ne.
Qed.

Lemma upd_same (me : nat) (f f' g : PhaseSyncer → PhaseSyncer) (s : State) :
  (∀ h, g (f h) = f' (g h)) → upd me g (upd me f s) = upd me f' (upd me g s).
Proof.
  intros Hfg. rewrite !upd_upd. apply upd_ext. intros h _. apply Hfg.
Qed.

Lemma lookup_veil (me j : nat) (s : State) :
  syncers (veil me s) !! j =
  (if decide (j = me) then veil_syncer else (λ h, h)) <$> syncers s !! j.
Proof.
  simpl. case_decide as Hj.
  - subst j. by rewrite list_lookup_alter_eq.
  - rewrite list_lookup_alter_ne by done. by destruct (syncers s !! j).
Qed.

Lemma veil_upd_other (me j : nat) (f : PhaseSyncer → PhaseSyncer) (s : State) :
  j ≠ me → upd j f (veil me s) = veil me (upd j f s).
Proof. intros Hne. unfold veil. by rewrite upd_comm. Qed.

Lemma veil_upd_self (me : nat) (f f' : PhaseSyncer → PhaseSyncer) (s : State) :
  (∀ h, veil_syncer (f h) = f' (veil_syncer h)) →
  upd me f' (veil me s) = veil me (upd me f s).
Proof. intros Hf. unfold veil. symmetry. by apply upd_same. Qed.

Lemma veil_upd (me j : nat) (f : PhaseSyncer → PhaseSyncer) (s : State) :
  (∀ h, veil_syncer (f h) = f (veil_syncer h)) →
  upd j f (veil me s) = veil me (upd j f s).
Proof.
  intros Hf. destruct (decide (j = me)) as [->|Hne].
  - by apply veil_upd_self.
  - by apply veil_upd_other.
Qed.

Lemma veil_work (me j w : nat) (s : State) : work j w (veil me s) = veil me (work j w s).
Proof.
  unfold work. rewrite lookup_veil.
  destruct (syncers s !! j) as [h|]; simpl; [|done]. by case_decide.
Qed.

Lemma veil_phase (me j : nat) (s : State) : phase j (veil me s) = veil me (phase j s).
Proof.
  unfold phase. rewrite lookup_veil.
  destruct (syncers s !! j) as [h|]; simpl; [|done].
  assert (id ((if decide (j = me) then veil_syncer else λ h, h) h) = id h) as ->
    by (by case_decide).
  assert (phaseCntr ((if decide (j = me) then veil_syncer else λ h, h) h) = phaseCntr h)
    as -> by (by case_decide).
  rewrite (veil_upd me j arm) by done.
  change (record (ObsArm (id h)) (veil me (upd j arm s)))
    with (veil me (record (ObsArm (id h)) (upd j arm s))).
  case_decide.
  - unfold veil at 1. rewrite <- upd_emit_stepDone by apply commutes_veil.
    by rewrite <- (veil_upd me j incr).
  - by rewrite (veil_upd me j incr).
Qed.

Lemma veil_await (k : Job) (h : PhaseSyncer) :
  veil_syncer (await k h) = await (course k) (veil_syncer h).
Proof. destruct h as [i n [|e] st]; done. Qed.

(** The turn of another job does not see the mask. *)
Lemma veil_exec_other (me j : nat) (k : Job) (s : State) :
  j ≠ me → exec j k (veil me s) = veil me (exec j k s).
Proof.
  intros Hne. revert s. induction k as [v|e|w k IH|k IH|k IH]; intros s; simpl.
  - by apply veil_upd_other.
  - by apply veil_upd_other.
  - by rewrite veil_work, IH.
  - by apply veil_upd_other.
  - by rewrite veil_phase, veil_upd_other.
Qed.

(** The turn of the job itself goes the same way, whatever its ending. *)
Lemma veil_exec_self (me : nat) (k : Job) (s : State) :
  exec me (course k) (veil me s) = veil me (exec me k s).
Proof.
  revert s. induction k as [v|e|w k IH|k IH|k IH]; intros s; simpl.
  - by apply veil_upd_self.
  - by apply veil_upd_self.
  - by rewrite veil_work, IH.
  - by apply veil_upd_self.
  - rewrite veil_phase. apply veil_upd_self, veil_await.
Qed.

Lemma veil_step (me j : nat) (s : State) : step j (veil me s) = veil me (step j s).
Proof.
  unfold step. rewrite lookup_veil.
  destruct (syncers s !! j) as [this|] eqn:Hj; simpl; [|done].
  destruct (decide (j = me)) as [->|Hne].
  - unfold veil_syncer at 1. simpl.
    destruct (jobPromise this) as [k|k|r|r]; simpl; try done.
    + apply veil_exec_self.
    + unfold veil at 1. rewrite <- upd_emit_jobDone by apply commutes_veil.
      fold (veil me (emit_jobDone (id this) s)). by apply veil_upd_self.
  - destruct (jobPromise this) as [k|k|r|r]; try done.
    + by apply veil_exec_other.
    + unfold veil at 1. rewrite <- upd_emit_jobDone by apply commutes_veil.
      fold (veil me (emit_jobDone (id this) s)). by apply veil_upd_other.
Qed.

Lemma veil_run (me : nat) (sched : list nat) (s : State) :
  run sched (veil me s) = veil me (run sched s).
Proof.
  revert s. induction sched as [|j sched IH]; intros s; simpl; [done|].
  by rewrite veil_step, IH.
Qed.

(** *** Construction under the mask *)

Lemma veil_syncers_length (me : nat) (s : State) :
  length (syncers (veil me s)) = length (syncers s).
Proof. simpl. apply length_alter. Qed.

Lemma alter_snoc_other {A} (f : A → A) (me : nat) (l : list A) (x : A) :
  length l ≠ me → alter f me (l ++ [x]) = alter f me l ++ [x].
Proof.
  intros Hne. apply list_eq. intros j.
  destruct (decide (j = me)) as [->|Hj].
  - rewrite list_lookup_alter_eq.
    destruct (decide (me < length l)) as [Hlt|Hge].
    + rewrite !lookup_app_l by (rewrite ?length_alter; done).
      by rewrite list_lookup_alter_eq.
    + rewrite !lookup_ge_None_2; [done| |].
      * rewrite length_app, length_alter. simpl. lia.
      * rewrite length_app. simpl. lia.
  - rewrite list_lookup_alter_ne by done.
    destruct (decide (j < length l)) as [Hlt|Hge].
    + rewrite !lookup_app_l by (rewrite ?length_alter; done).
      by rewrite list_lookup_alter_ne.
    + rewrite !lookup_app_r by (rewrite ?length_alter; lia).
      by rewrite length_alter.
Qed.

Lemma alter_snoc_last {A} (f : A → A) (l : list A) (x : A) :
  alter f (length l) (l ++ [x]) = l ++ [f x].
Proof.
  apply list_eq. intros j. destruct (decide (j = length l)) as [->|Hj].
  - rewrite list_lookup_alter_eq. by rewrite !list_lookup_middle.
  - rewrite list_lookup_alter_ne by done.
    destruct (decide (j < length l)) as [Hlt|Hge].
    + by rewrite !lookup_app_l.
    + rewrite !lookup_ge_None_2; [done| |]; rewrite length_app; simpl; lia.
Qed.

(** Constructing the object of another job. *)
Lemma veil_construct_other (me : nat) (uuid : Id) (d : Descriptor) (s : State) :
  length (syncers s) ≠ me →
  construct uuid d (veil me s) = veil me (construct uuid d s).
Proof.
  intros Hne. unfold construct. rewrite veil_syncers_length.
  change (heap (veil me s)) with (heap s). cbv zeta.
  rewrite <- veil_exec_other by done. f_equal.
  unfold veil, upd, record, set_heap, set_syncers. simpl. f_equal.
  by rewrite alter_snoc_other.
Qed.

(** Constructing the object of the job itself: only the course of its
    function is left to see. *)
Lemma veil_construct_self (uuid : Id) (d d' : Descriptor) (s : State) :
  args d' = args d →
  (∀ a, course (fun_ d' a) = course (fun_ d a)) →
  veil (length (syncers s)) (construct uuid d' s) =
  veil (length (syncers s)) (construct uuid d s).
Proof.
  intros Hargs Hcourse. unfold construct. cbv zeta.
  rewrite <- !veil_exec_self, Hargs, Hcourse. f_equal.
  unfold veil, upd, record, set_heap, set_syncers. simpl. f_equal.
  rewrite !alter_snoc_last. unfold veil_syncer. simpl. by rewrite Hcourse.
Qed.

Section masked_construction.
Variable uuidv1 : nat → Id.

Lemma veil_constructed (me : nat) (l : list Descriptor) (s s' : State) :
  me < length (syncers s) → veil me s' = veil me s →
  veil me (constructed uuidv1 l s') = veil me (constructed uuidv1 l s).
Proof.
  revert s s'. induction l as [|x l IH]; intros s s' Hlt Heq; simpl; [done|].
  assert (length (syncers s') = length (syncers s)) as Hlen.
  { by rewrite <- (veil_syncers_length me s'), Heq, veil_syncers_length. }
  apply IH.
  - rewrite length_syncers_construct. lia.
  - rewrite Hlen. rewrite <- !veil_construct_other by lia. by rewrite Heq.
Qed.

Lemma constructed_app (l1 l2 : list Descriptor) (s : State) :
  constructed uuidv1 (l1 ++ l2) s = constructed uuidv1 l2 (constructed uuidv1 l1 s).
Proof. unfold constructed. by rewrite foldl_app. Qed.

Lemma imap_veil (me : nat) (l : list PhaseSyncer) :
  imap (λ ix ps, (id ps, ix)) (alter veil_syncer me l) = imap (λ ix ps, (id ps, ix)) l.
Proof.
  apply list_eq. intros j. rewrite !list_lookup_imap.
  destruct (decide (j = me)) as [->|Hj].
  - rewrite list_lookup_alter_eq. by destruct (l !! me).
  - by rewrite list_lookup_alter_ne.
Qed.

Lemma veil_registered (me : nat) (s : State) :
  registered (veil me s) = veil me (registered s).
Proof. unfold registered. simpl. rewrite !imap_veil. done. Qed.

(** Two job lists that differ in how one job's function ends start the
    run from states that differ in that job's [jobPromise] only. *)
Lemma veil_phaseSyncedSettle (jobList : list Descriptor) (c : option Z)
    (h : gmap Ref (list Value)) (me : nat) (d d' : Descriptor) :
  jobList !! me = Some d →
  args d' = args d →
  (∀ a, course (fun_ d' a) = course (fun_ d a)) →
  veil me (phaseSyncedSettle uuidv1 (<[me := d']> jobList) c h) =
  veil me (phaseSyncedSettle uuidv1 jobList c h).
Proof.
  intros Hme Hargs Hcourse.
  rewrite !phaseSyncedSettle_unfold. cbv zeta.
  fold (registered (constructed uuidv1 (<[me:=d']> jobList) (init c h))).
  fold (registered (constructed uuidv1 jobList (init c h))).
  unfold veil. rewrite !upd_startNewPhase by apply commutes_veil.
  fold (veil me (registered (constructed uuidv1 (<[me:=d']> jobList) (init c h)))).
  fold (veil me (registered (constructed uuidv1 jobList (init c h)))).
  rewrite <- !veil_registered. f_equal. f_equal.
  destruct (list_elem_of_split_length _ _ _ Hme) as (l1 & l2 & -> & Hlen).
  assert (<[me:=d']> (l1 ++ d :: l2) = l1 ++ d' :: l2) as ->.
  { subst me. rewrite insert_app_r_alt by done. by rewrite Nat.sub_diag. }
  rewrite !constructed_app. simpl.
  assert (length (syncers (constructed uuidv1 l1 (init c h))) = me) as Hl.
  { rewrite length_syncers_constructed. simpl. lia. }
  apply veil_constructed.
  - rewrite length_syncers_construct. lia.
  - pose proof (veil_construct_self
        (uuidv1 (length (syncers (constructed uuidv1 l1 (init c h))))) d d'
        (constructed uuidv1 l1 (init c h)) Hargs Hcourse) as Heq.
    by rewrite Hl in Heq at 1 3.
Qed.
End masked_construction.

(** *** What the mask leaves to see *)

Lemma settled_veil (h : PhaseSyncer) :
  is_Some (settled (veil_syncer h)) ↔ is_Some (settled h).
Proof.
  unfold settled, veil_syncer. simpl.
  destruct (jobPromise h); simpl; split; intros [x Hx]; try done; eauto.
Qed.

Lemma veil_eq_lookup (me j : nat) (s s' : State) :
  veil me s' = veil me s →
  (if decide (j = me) then veil_syncer else (λ h, h)) <$> syncers s' !! j =
  (if decide (j = me) then veil_syncer else (λ h, h)) <$> syncers s !! j.
Proof. intros Heq. rewrite <- !lookup_veil. by rewrite Heq. Qed.

Lemma veil_eq_other (me j : nat) (s s' : State) :
  veil me s' = veil me s → j ≠ me → syncers s' !! j = syncers s !! j.
Proof.
  intros Heq Hne. pose proof (veil_eq_lookup me j s s' Heq) as Hl.
  rewrite decide_False in Hl by done.
  by destruct (syncers s' !! j), (syncers s !! j); simplify_eq/=.
Qed.

Lemma veil_eq_settled (me : nat) (s s' : State) :
  veil me s' = veil me s →
  Forall (is_Some ∘ settled) (syncers s) → Forall (is_Some ∘ settled) (syncers s').
Proof.
  intros Heq Hall. apply Forall_lookup. intros j x Hj.
  pose proof (veil_eq_lookup me j s s' Heq) as Hl. rewrite Hj in Hl.
  destruct (syncers s !! j) as [y|] eqn:Hy; [|done].
  pose proof (Forall_lookup_1 _ _ _ _ Hall Hy) as Hs. simpl in Hl, Hs |- *.
  destruct (decide (j = me)) as [_|_].
  - apply settled_veil.
    assert (veil_syncer x = veil_syncer y) as -> by congruence.
    by apply settled_veil.
  - by assert (x = y) as -> by congruence.
Qed.

Lemma mapM_settled_lookup (l : list PhaseSyncer) (rs : list Result) (j : nat) :
  mapM settled l = Some rs → rs !! j = l !! j ≫= settled.
Proof.
  intros Hrs%mapM_Some. destruct (l !! j) as [x|] eqn:Hx; simpl.
  - destruct (Forall2_lookup_l _ _ _ _ _ Hrs Hx) as (r & -> & Hr). by rewrite Hr.
  - apply lookup_ge_None. rewrite <- (Forall2_length _ _ _ Hrs). by apply lookup_ge_None.
Qed.

(** * Further properties of the coordinator *)

(** ** Turns in normal form, and an induction principle for runs *)

(** What both listeners do once they have updated the sets. *)
Definition advance (s : State) : State :=
  if decide (length (phasePendingJobs s) = 0) then startNewPhase s
  else startQueuedJob s.

(** The state in which the listener of ['stepDone'] takes its decision,
    for a job at [me] that awaits [phase()] with [k] left to do. *)
Definition reported (me : nat) (k : Job) (this : PhaseSyncer) (s : State) : State :=
  set_phasePendingJobs (Set_delete (id this) (phasePendingJobs s))
    (record (ObsStepDone (id this) (phaseCntr this))
       (record (ObsArm (id this)) (upd me (parked k) s))).

(** The same for the listener of ['jobDone']. *)
Definition ended (me : nat) (r : Result) (this : PhaseSyncer) (s : State) : State :=
  set_phasePendingJobs (Set_delete (id this) (phasePendingJobs s))
    (set_queuedJobs (Set_delete (id this) (queuedJobs s))
       (set_jobs (Set_delete (id this) (jobs s))
          (record (ObsJobDone (id this))
             (upd me (set_jobPromise (Finished r)) s)))).

Lemma exec_reported (me : nat) (k : Job) (s : State) (this : PhaseSyncer) :
  handlers s = true → syncers s !! me = Some this → 0 < phaseCntr this →
  exec me (AwaitPhase k) s = advance (reported me k this s).
Proof.
  intros Hh Hme H0. rewrite (exec_AwaitPhase_report me k s this) by done.
  unfold emit_stepDone. simpl. by rewrite Hh.
Qed.

Lemma step_ended (me : nat) (s : State) (this : PhaseSyncer) (r : Result) :
  handlers s = true → syncers s !! me = Some this → jobPromise this = Settled r →
  step me s = advance (ended me r this s).
Proof.
  intros Hh Hme Hst. rewrite (step_Settled me s this r) by done.
  unfold emit_jobDone. simpl. by rewrite Hh.
Qed.

(** The three ways [advance] can go. *)
Lemma advance_cases (s : State) :
  Inv s →
  (phasePendingJobs s = [] ∧
   advance s =
   mkState (concurrency s) (handlers s)
     (fire_all (slice (jobs s) 0 (concurrency s)) <$> syncers s) (jobMap s)
     (jobs s) (slice_from (jobs s) (concurrency s)) (jobs s) (heap s)
     (reverse (ObsReady <$> slice (jobs s) 0 (concurrency s))
        ++ ObsPhaseStart (jobs s) :: trace s)) ∨
  (phasePendingJobs s ≠ [] ∧ queuedJobs s = [] ∧ advance s = s) ∨
  (phasePendingJobs s ≠ [] ∧ ∃ i q,
     queuedJobs s = i :: q ∧
     advance s =
     mkState (concurrency s) (handlers s) (fire i <$> syncers s) (jobMap s)
       (jobs s) q (phasePendingJobs s) (heap s) (ObsReady i :: trace s)).
Proof.
  intros HI. unfold advance. case_decide as Hlen.
  - left. split; [by apply nil_length_inv|].
    apply startNewPhase_eq; apply HI.
  - right. assert (phasePendingJobs s ≠ []) as Hne by (intros Heq; by rewrite Heq in Hlen).
    destruct (queuedJobs s) as [|i q] eqn:Hq.
    + left. split; [done|]. split; [done|]. unfold startQueuedJob. by rewrite Hq.
    + right. split; [done|]. exists i, q. split; [done|].
      apply startQueuedJob_eq; [apply HI|done|apply HI].
Qed.

Section run_invariant.
Variable Q : State → Prop.
Hypothesis Q_work : ∀ me w s this k,
  Running s → Q s → syncers s !! me = Some this → jobPromise this = Runnable k →
  Q (work me w s).
Hypothesis Q_suspend : ∀ me s this k k',
  Running s → Q s → syncers s !! me = Some this → jobPromise this = Runnable k →
  Q (upd me (set_jobPromise (Runnable k')) s).
Hypothesis Q_settle : ∀ me s this k r,
  Running s → Q s → syncers s !! me = Some this → jobPromise this = Runnable k →
  Q (upd me (set_jobPromise (Settled r)) s).
Hypothesis Q_park : ∀ me s this k k',
  Running s → Q s → syncers s !! me = Some this → jobPromise this = Runnable k →
  phaseCntr this = 0 →
  Q (record (ObsArm (id this)) (upd me (parked k') s)).
Hypothesis Q_report : ∀ me s this k k',
  Running s → Q s → syncers s !! me = Some this → jobPromise this = Runnable k →
  0 < phaseCntr this → Inv (reported me k' this s) →
  Q (advance (reported me k' this s)).
Hypothesis Q_end : ∀ me s this r,
  Running s → Q s → syncers s !! me = Some this → jobPromise this = Settled r →
  Inv (ended me r this s) →
  Q (advance (ended me r this s)).

Lemma exec_invariant (me : nat) (k k0 : Job) (s : State) (this : PhaseSyncer) :
  Running s → Q s → syncers s !! me = Some this → jobPromise this = Runnable k0 →
  Q (exec me k s).
Proof.
  revert s this. induction k as [v|e|w k IH|k IH|k IH]; intros s this HR HQ Hme Hst.
  - by eapply Q_settle.
  - by eapply Q_settle.
  - simpl. apply (IH (work me w s) this); [| |by unfold work; rewrite Hme|done].
    + destruct HR as [HI HG]. split; [by eapply work_inv|].
      unfold work. by rewrite Hme.
    + by eapply Q_work.
  - by eapply Q_suspend.
  - destruct (decide (phaseCntr this = 0)) as [H0|H0].
    + rewrite (exec_AwaitPhase_first me k s this) by done. by eapply Q_park.
    + rewrite (exec_reported me k s this) by (done || lia || apply HR).
      eapply Q_report; [done..|lia|]. eapply report_inv; [apply HR|done..|lia].
Qed.

Lemma step_invariant (me : nat) (s : State) : Running s → Q s → Q (step me s).
Proof.
  intros HR HQ. destruct (syncers s !! me) as [this|] eqn:Hme.
  2: { unfold step. by rewrite Hme. }
  destruct (jobPromise this) as [k|k|r|r] eqn:Hst.
  - unfold step. rewrite Hme, Hst. by eapply exec_invariant.
  - unfold step. by rewrite Hme, Hst.
  - rewrite (step_ended me s this r) by (done || apply HR).
    eapply Q_end; [done..|]. eapply done_inv; [apply HR|done..].
  - unfold step. by rewrite Hme, Hst.
Qed.

Lemma run_invariant (sched : list nat) (s : State) :
  Running s → Q s → Q (run sched s).
Proof.
  revert s. induction sched as [|me sched IH]; intros s HR HQ; simpl; [done|].
  apply IH; [by apply step_inv|by apply step_invariant].
Qed.
End run_invariant.

(** ** No jobs *)

Lemma slice_nil {A} (from to : Z) : slice (@nil A) from to = [].
Proof. unfold slice. by rewrite drop_nil, take_nil. Qed.

Lemma run_no_syncers (sched : list nat) (s : State) : syncers s = [] → run sched s = s.
Proof.
  intros Hs. induction sched as [|me sched IH]; simpl; [done|].
  assert (step me s = s) as -> by (unfold step; by rewrite Hs).
  exact IH.
Qed.

(** X1 (no jobs).
    An empty job list: the call starts one phase with nobody in it, the
    aggregate has resolved to the empty list when the call returns, the
    caller's arrays are untouched and no turn of the loop changes
    anything. *)
Theorem no_jobs (uuidv1 : nat → Id) (c : option Z) (h : gmap Ref (list Value))
    (sched : list nat) :
  let s := run sched (phaseSyncedSettle uuidv1 [] c h) in
  aggregate s = Some [] ∧ trace s = [ObsPhaseStart []] ∧ syncers s = [] ∧
  jobs s = [] ∧ queuedJobs s = [] ∧ phasePendingJobs s = [] ∧ heap s = h.
Proof.
  intros s.
  assert (phaseSyncedSettle uuidv1 [] c h =
          mkState (default 1%Z c) true [] [] [] [] [] h [ObsPhaseStart []]) as Heq.
  { rewrite phaseSyncedSettle_unfold. cbv zeta.
    change (set_handlers true _)
      with (mkState (default 1%Z c) true [] [] [] [] [] h []).
    unfold startNewPhase. cbn [jobs concurrency].
    rewrite slice_nil. unfold slice_from. by rewrite drop_nil. }
  unfold s. rewrite Heq, run_no_syncers by done. done.
Qed.

(** ** A phase start under a negative cap *)

Lemma rel_index_neg (len : nat) (c : Z) :
  (c < 0)%Z → rel_index len c = len - Z.to_nat (- c) `min` len.
Proof. intros. unfold rel_index. rewrite decide_True by lia. lia. Qed.

(** X2 (phase start under a negative cap).
    [Array.prototype.slice] counts a negative index from the end, so a
    negative [concurrency] [-k] does not close the gate: a phase start
    then signals ['ready'] to all active jobs but the last [k] of the
    snapshot (to none if there are no more than [k]), and queues those
    last [k]. *)
Theorem negative_cap_at_phase_start (s : State) :
  map_ok s → NoDup (jobs s) → (concurrency s < 0)%Z →
  let n := length (jobs s) in
  let k := Z.to_nat (- concurrency s) `min` n in
  let s' := startNewPhase s in
  trace s' =
    reverse (ObsReady <$> take (n - k) (jobs s)) ++ ObsPhaseStart (jobs s) :: trace s ∧
  syncers s' = fire_all (take (n - k) (jobs s)) <$> syncers s ∧
  queuedJobs s' = drop (n - k) (jobs s) ∧
  length (queuedJobs s') = k ∧
  phasePendingJobs s' = jobs s ∧
  jobs s' = jobs s.
Proof.
  intros Hm Hnd Hc n k s'. subst n k s'. rewrite startNewPhase_eq by done. simpl.
  rewrite slice_0. unfold slice_from. rewrite rel_index_neg by done.
  rewrite length_drop. repeat split; try done. lia.
Qed.

Lemma negative_cap_at_phase_start_witness :
  let s := run [0; 1; 2] (phaseSyncedSettle ex_uuidv1 ex_jobList (Some (-1)%Z) ex_heap) in
  let n := length (jobs s) in
  let k := Z.to_nat (- concurrency s) `min` n in
  let s' := startNewPhase s in
  trace s' =
    reverse (ObsReady <$> take (n - k) (jobs s)) ++ ObsPhaseStart (jobs s) :: trace s ∧
  syncers s' = fire_all (take (n - k) (jobs s)) <$> syncers s ∧
  queuedJobs s' = drop (n - k) (jobs s) ∧
  length (queuedJobs s') = k ∧
  phasePendingJobs s' = jobs s ∧
  jobs s' = jobs s.
Proof.
  intros s. apply (negative_cap_at_phase_start s).
  - exact (inv_map s (proj1 (run_running ex_uuidv1 ex_uuidv1_inj [0; 1; 2]
                               ex_jobList (Some (-1)%Z) ex_heap))).
  - exact (inv_jobs_nodup s (proj1 (run_running ex_uuidv1 ex_uuidv1_inj [0; 1; 2]
                                      ex_jobList (Some (-1)%Z) ex_heap))).
  - vm_compute. reflexivity.
Defined.

(** ** The lookups of the coordinator *)

(** X3 (the lookups never miss).
    [jobMap.get(id)] is never [undefined] in a run: [jobMap] is never
    changed after it was built, its keys are the identifiers of the jobs
    in the order of the job list, and under every identifier that one of
    the three sets holds it finds the object that has this identifier; so
    a ['ready'] for an identifier of a set fires the emitter of that very
    job. *)
Theorem lookups_never_miss (uuidv1 : nat → Id) (jobList : list Descriptor)
    (c : option Z) (h : gmap Ref (list Value)) (sched : list nat) :
  (∀ a b, uuidv1 a = uuidv1 b → a = b) →
  let s := run sched (phaseSyncedSettle uuidv1 jobList c h) in
  Map_keys (jobMap s) = uuidv1 <$> seq 0 (length jobList) ∧
  Map_values (jobMap s) = seq 0 (length jobList) ∧
  (∀ i, i ∈ jobs s ∨ i ∈ queuedJobs s ∨ i ∈ phasePendingJobs s →
     ∃ ix this,
       Map_get i (jobMap s) = Some ix ∧ syncers s !! ix = Some this ∧ id this = i ∧
       emit_ready i s = upd ix fire_ready (record (ObsReady i) s)) ∧
  (∀ i, i ∉ uuidv1 <$> seq 0 (length jobList) → Map_get i (jobMap s) = None).
Proof.
  intros Hinj s.
  pose proof (run_running uuidv1 Hinj sched jobList c h) as [HI _]. fold s in HI.
  pose proof (constructed_built uuidv1 Hinj jobList _ (init_built uuidv1 c h)) as HB.
  set (s1 := constructed uuidv1 jobList (init c h)) in *.
  assert (frame (registered s1) s) as Hf.
  { unfold s. rewrite phaseSyncedSettle_unfold. cbv zeta. fold s1.
    eapply frame_trans; [apply frame_startNewPhase|apply frame_run]. }
  assert (jobMap s = imap (λ ix ps, (id ps, ix)) (syncers s1)) as Hmap.
  { rewrite (frame_jobMap _ _ Hf). apply (registered_jobMap uuidv1 Hinj s1 HB). }
  assert (length (syncers s1) = length jobList) as Hlen.
  { unfold s1. by rewrite length_syncers_constructed. }
  assert (ids s = uuidv1 <$> seq 0 (length jobList)) as Hids.
  { rewrite (frame_ids _ _ Hf). change (ids (registered s1)) with (ids s1).
    by rewrite (built_ids _ _ HB), Hlen. }
  split; [|split; [|split]].
  - unfold Map_keys. rewrite Hmap, imap_keys. fold (ids s1).
    by rewrite (built_ids _ _ HB), Hlen.
  - unfold Map_values. by rewrite Hmap, imap_values, Hlen.
  - intros i Hi.
    assert (i ∈ jobs s) as Hin.
    { destruct Hi as [Hi|[Hi|Hi]]; [done| |].
      - by apply (inv_pending s HI), (inv_queued s HI).
      - by apply (inv_pending s HI). }
    destruct (Map_get_jobs s i HI Hin) as (ix & this & Hget & Hix & Hid).
    exists ix, this. repeat split; try done. unfold emit_ready. by rewrite Hget.
  - intros i Hi. destruct (Map_get i (jobMap s)) as [ix|] eqn:Hget; [|done].
    apply (inv_map s HI) in Hget. exfalso. apply Hi. rewrite <- Hids.
    by eapply list_elem_of_lookup_2.
Qed.

Lemma lookups_never_miss_witness :
  let s := run [0; 1; 2] (phaseSyncedSettle ex_uuidv1 ex_jobList (Some 2%Z) ex_heap) in
  Map_keys (jobMap s) = ex_uuidv1 <$> seq 0 (length ex_jobList) ∧
  Map_values (jobMap s) = seq 0 (length ex_jobList) ∧
  (∀ i, i ∈ jobs s ∨ i ∈ queuedJobs s ∨ i ∈ phasePendingJobs s →
     ∃ ix this,
       Map_get i (jobMap s) = Some ix ∧ syncers s !! ix = Some this ∧ id this = i ∧
       emit_ready i s = upd ix fire_ready (record (ObsReady i) s)) ∧
  (∀ i, i ∉ ex_uuidv1 <$> seq 0 (length ex_jobList) → Map_get i (jobMap s) = None).
Proof.
  exact (lookups_never_miss ex_uuidv1 ex_jobList (Some 2%Z) ex_heap [0; 1; 2]
           ex_uuidv1_inj).
Defined.

(** ** Construction *)

(** X4 (construction is silent).
    While the objects are constructed, before the listeners are
    registered, nothing is sent to [ctrlEmitter]: when the last constructor
    has returned the trace holds only invocations, work done under counter
    [0] and the arming of a first [phase()] call; each job function has
    run to its first suspension or to its end, having called [phase()] at
    most once, and no [onFinally] callback has run.  So no ['stepDone']
    and no ['jobDone'] is sent before its listener is there. *)
Theorem construction_is_silent (uuidv1 : nat → Id) (jobList : list Descriptor)
    (c : option Z) (h : gmap Ref (list Value)) :
  (∀ a b, uuidv1 a = uuidv1 b → a = b) →
  let s1 := constructed uuidv1 jobList (init c h) in
  phaseSyncedSettle uuidv1 jobList c h = startNewPhase (registered s1) ∧
  handlers s1 = false ∧
  (∀ o, o ∈ trace s1 →
     match o with
     | ObsInvoke _ _ | ObsArm _ => True
     | ObsWork _ n _ => n = 0
     | _ => False
     end) ∧
  (∀ me this, syncers s1 !! me = Some this →
     id this = uuidv1 me ∧
     match jobPromise this with
     | Runnable _ | Settled _ => phaseCntr this = 0 ∧ jobEmitter this = 0
     | Waiting _ => phaseCntr this = 1 ∧ jobEmitter this ≠ 0
     | Finished _ => False
     end).
Proof.
  intros Hinj s1.
  pose proof (constructed_built uuidv1 Hinj jobList _ (init_built uuidv1 c h)) as HB.
  fold s1 in HB.
  split; [apply phaseSyncedSettle_unfold|]. split; [apply HB|]. split.
  - intros o Ho. pose proof (built_quiet _ _ HB o Ho) as Hq.
    destruct o; simpl in Hq; tauto.
  - intros me this Hme. split.
    + assert (ids s1 !! me = Some (id this)) as Hl.
      { unfold ids. by rewrite list_lookup_fmap, Hme. }
      rewrite (built_ids _ _ HB), list_lookup_fmap in Hl.
      rewrite lookup_seq_lt in Hl by (by eapply lookup_lt_Some). simpl in Hl.
      by simplify_eq.
    + pose proof (Forall_lookup_1 _ _ _ _ (built_job _ _ HB) Hme) as [_ Hj].
      destruct (jobPromise this); tauto.
Qed.

Lemma construction_is_silent_witness :
  let s1 := constructed ex_uuidv1 ex_jobList (init (Some 2%Z) ex_heap) in
  phaseSyncedSettle ex_uuidv1 ex_jobList (Some 2%Z) ex_heap =
    startNewPhase (registered s1) ∧
  handlers s1 = false ∧
  (∀ o, o ∈ trace s1 →
     match o with
     | ObsInvoke _ _ | ObsArm _ => True
     | ObsWork _ n _ => n = 0
     | _ => False
     end) ∧
  (∀ me this, syncers s1 !! me = Some this →
     id this = ex_uuidv1 me ∧
     match jobPromise this with
     | Runnable _ | Settled _ => phaseCntr this = 0 ∧ jobEmitter this = 0
     | Waiting _ => phaseCntr this = 1 ∧ jobEmitter this ≠ 0
     | Finished _ => False
     end).
Proof.
  exact (construction_is_silent ex_uuidv1 ex_jobList (Some 2%Z) ex_heap ex_uuidv1_inj).
Defined.

(** ** The end of a run *)

Lemma jobs_advance (s : State) : jobs (advance s) = jobs s.
Proof.
  unfold advance. case_decide; [apply jobs_startNewPhase|apply jobs_startQueuedJob].
Qed.

Lemma jobs_work (me w : nat) (s : State) : jobs (work me w s) = jobs s.
Proof. unfold work. by destruct (syncers s !! me). Qed.

(** With no job left, the last thing the coordinator did was to start a
    phase for nobody. *)
Definition closed (s : State) : Prop :=
  jobs s = [] → ∃ t, trace s = ObsPhaseStart [] :: t.

Lemma closed_startNewPhase (s : State) :
  map_ok s → NoDup (jobs s) → closed (startNewPhase s).
Proof.
  intros Hm Hnd. rewrite startNewPhase_eq by done. intros Hj. simpl in *.
  rewrite Hj, slice_nil. simpl. eauto.
Qed.

Lemma run_closed (sched : list nat) (s : State) :
  Running s → closed s → closed (run sched s).
Proof.
  apply run_invariant.
  - intros me w s0 this k [HI _] _ Hme Hst Hj. rewrite jobs_work in Hj.
    pose proof (Inv_job _ _ _ HI Hme) as (_ & _ & Hok). rewrite Hst in Hok.
    destruct Hok as (_ & Hin & _). rewrite Hj in Hin. by apply elem_of_nil in Hin.
  - intros me s0 this k k' [HI _] _ Hme Hst Hj. simpl in Hj.
    pose proof (Inv_job _ _ _ HI Hme) as (_ & _ & Hok). rewrite Hst in Hok.
    destruct Hok as (_ & Hin & _). rewrite Hj in Hin. by apply elem_of_nil in Hin.
  - intros me s0 this k r [HI _] _ Hme Hst Hj. simpl in Hj.
    pose proof (Inv_job _ _ _ HI Hme) as (_ & _ & Hok). rewrite Hst in Hok.
    destruct Hok as (_ & Hin & _). rewrite Hj in Hin. by apply elem_of_nil in Hin.
  - intros me s0 this k k' [HI _] _ Hme Hst _ Hj. simpl in Hj.
    pose proof (Inv_job _ _ _ HI Hme) as (_ & _ & Hok). rewrite Hst in Hok.
    destruct Hok as (_ & Hin & _). rewrite Hj in Hin. by apply elem_of_nil in Hin.
  - intros me s0 this k k' [HI _] _ Hme Hst _ _ Hj. rewrite jobs_advance in Hj.
    simpl in Hj.
    pose proof (Inv_job _ _ _ HI Hme) as (_ & _ & Hok). rewrite Hst in Hok.
    destruct Hok as (_ & Hin & _). rewrite Hj in Hin. by apply elem_of_nil in Hin.
  - intros me s0 this r _ _ Hme Hst HI'. unfold advance. case_decide as Hlen.
    + apply closed_startNewPhase; apply HI'.
    + intros Hj. rewrite jobs_startQueuedJob in Hj. exfalso. apply Hlen.
      destruct (phasePendingJobs (ended me r this s0)) as [|x l] eqn:Hp; [done|].
      assert (x ∈ jobs (ended me r this s0)) as Hx.
      { apply (inv_pending _ HI'). rewrite Hp. left. }
      rewrite Hj in Hx. by apply elem_of_nil in Hx.
Qed.

Lemma run_all_finished (sched : list nat) (s : State) :
  (∀ me this, syncers s !! me = Some this → ∃ r, jobPromise this = Finished r) →
  run sched s = s.
Proof.
  intros Hall. induction sched as [|me sched IH]; simpl; [done|].
  assert (step me s = s) as ->; [|exact IH].
  unfold step. destruct (syncers s !! me) as [this|] eqn:Hme; [|done].
  destruct (Hall me this Hme) as [r ->]. done.
Qed.

(** X5 (the end of a run).
    Once the aggregate has resolved the run is over: [jobs], [queuedJobs]
    and [phasePendingJobs] are empty, the last thing the coordinator did
    was to call [startNewPhase] for an empty snapshot, and no further turn
    of the loop changes anything. *)
Theorem resolved_run_is_over (uuidv1 : nat → Id) (jobList : list Descriptor)
    (c : option Z) (h : gmap Ref (list Value)) (sched : list nat)
    (rs : list Result) :
  (∀ a b, uuidv1 a = uuidv1 b → a = b) →
  let s := run sched (phaseSyncedSettle uuidv1 jobList c h) in
  aggregate s = Some rs →
  jobs s = [] ∧ queuedJobs s = [] ∧ phasePendingJobs s = [] ∧
  (∃ t, trace s = ObsPhaseStart [] :: t) ∧
  (∀ sched', run sched' s = s).
Proof.
  intros Hinj s Hrs.
  destruct (aggregate_run uuidv1 jobList c h sched Hinj) as (_ & _ & Hagg).
  fold s in Hagg. rewrite Hagg in Hrs.
  pose proof (run_running uuidv1 Hinj sched jobList c h) as [HI HG]. fold s in HI, HG.
  assert (∀ me this, syncers s !! me = Some this → ∃ r, jobPromise this = Finished r)
    as Hall.
  { intros me this Hme. apply mapM_Some in Hrs.
    destruct (Forall2_lookup_l _ _ _ _ _ Hrs Hme) as (r & _ & Hset).
    unfold settled in Hset. destruct (jobPromise this); try done. eauto. }
  assert (jobs s = []) as Hj.
  { destruct (jobs s) as [|i l] eqn:Hjs; [done|]. exfalso.
    assert (i ∈ jobs s) as Hi by (rewrite Hjs; left).
    pose proof (inv_jobs_ids s HI i Hi) as Hid.
    apply lookup_ids in Hid as (me & this & Hme & <-).
    pose proof (Inv_job _ _ _ HI Hme) as (_ & _ & Hok).
    destruct (Hall me this Hme) as [r Hr]. rewrite Hr in Hok. tauto. }
  assert (phasePendingJobs s = []) as Hp.
  { destruct (phasePendingJobs s) as [|i l] eqn:Hps; [done|]. exfalso.
    assert (i ∈ jobs s) as Hi by (apply (inv_pending s HI); rewrite Hps; left).
    rewrite Hj in Hi. by apply elem_of_nil in Hi. }
  assert (queuedJobs s = []) as Hq.
  { destruct (queuedJobs s) as [|i l] eqn:Hqs; [done|]. exfalso.
    assert (i ∈ phasePendingJobs s) as Hi by (apply (inv_queued s HI); rewrite Hqs; left).
    rewrite Hp in Hi. by apply elem_of_nil in Hi. }
  split; [done|]. split; [done|]. split; [done|]. split.
  - apply (run_closed sched (phaseSyncedSettle uuidv1 jobList c h)); [| |done].
    + by apply phaseSyncedSettle_running.
    + rewrite phaseSyncedSettle_unfold. cbv zeta.
      pose proof (constructed_built uuidv1 Hinj jobList _ (init_built uuidv1 c h)) as HB.
      destruct (registered_inv uuidv1 Hinj _ HB) as [HI0 _].
      apply closed_startNewPhase; apply HI0.
  - intros sched'. by apply run_all_finished.
Qed.

Lemma resolved_run_is_over_witness :
  let s := run ex_sched (phaseSyncedSettle ex_uuidv1 ex_jobList (Some 2%Z) ex_heap) in
  jobs s = [] ∧ queuedJobs s = [] ∧ phasePendingJobs s = [] ∧
  (∃ t, trace s = ObsPhaseStart [] :: t) ∧
  (∀ sched', run sched' s = s).
Proof.
  apply (resolved_run_is_over ex_uuidv1 ex_jobList (Some 2%Z) ex_heap ex_sched
           [Fulfilled 10; Rejected 7; Fulfilled 10] ex_uuidv1_inj).
  vm_compute. reflexivity.
Defined.

(** ** The running phase, read off the trace *)

(** The jobs that were signalled ['ready'] since the last phase start,
    the first one first. *)
Fixpoint released (t : list Obs) : list Id :=
  match t with
  | [] => []
  | ObsPhaseStart _ :: _ => []
  | ObsReady i :: t' => released t' ++ [i]
  | _ :: t' => released t'
  end.

(** The snapshot of [jobs] that the last phase start took. *)
Fixpoint snapshot (t : list Obs) : list Id :=
  match t with
  | [] => []
  | ObsPhaseStart snap :: _ => snap
  | _ :: t' => snapshot t'
  end.

Lemma released_start (l snap : list Id) (t : list Obs) :
  released (reverse (ObsReady <$> l) ++ ObsPhaseStart snap :: t) = l.
Proof.
  induction l as [|i l IH] using rev_ind; [done|].
  rewrite fmap_app, reverse_app. simpl. by rewrite IH.
Qed.

Lemma snapshot_start (l snap : list Id) (t : list Obs) :
  snapshot (reverse (ObsReady <$> l) ++ ObsPhaseStart snap :: t) = snap.
Proof.
  induction l as [|i l IH] using rev_ind; [done|].
  rewrite fmap_app, reverse_app. simpl. by rewrite IH.
Qed.

Lemma quiet_released (s : State) (t : list Obs) :
  (∀ o, o ∈ t → quiet s o) → released t = [].
Proof.
  induction t as [|o t IH]; intros Hq; [done|].
  pose proof (Hq o ltac:(left)) as Ho.
  destruct o; try done; simpl; apply IH; intros; apply Hq; by right.
Qed.

Lemma quiet_snapshot (s : State) (t : list Obs) :
  (∀ o, o ∈ t → quiet s o) → snapshot t = [].
Proof.
  induction t as [|o t IH]; intros Hq; [done|].
  pose proof (Hq o ltac:(left)) as Ho.
  destruct o; try done; simpl; apply IH; intros; apply Hq; by right.
Qed.

Lemma rel_index_all (len : nat) (c : Z) :
  (Z.of_nat len ≤ c)%Z → rel_index len c = len.
Proof. intros. unfold rel_index. rewrite decide_False by lia. lia. Qed.

Lemma length_Set_delete (i : Id) (l : list Id) : length (Set_delete i l) ≤ length l.
Proof. apply length_filter. Qed.

(** ** A cap that is no cap *)

Definition unqueued (s : State) : Prop :=
  (Z.of_nat (length (jobs s)) ≤ concurrency s)%Z ∧
  queuedJobs s = [] ∧
  released (trace s) = snapshot (trace s).

Lemma unqueued_advance (s : State) :
  Inv s → (Z.of_nat (length (jobs s)) ≤ concurrency s)%Z → queuedJobs s = [] →
  released (trace s) = snapshot (trace s) →
  unqueued (advance s).
Proof.
  intros HI Hc Hq Hr.
  destruct (advance_cases s HI) as [[_ ->]|[(_ & _ & ->)|(_ & i & q & Hq' & _)]].
  - split; [done|]. simpl. unfold slice_from. rewrite slice_0.
    rewrite rel_index_all by done.
    rewrite drop_all, firstn_all, released_start, snapshot_start. done.
  - done.
  - congruence.
Qed.

Lemma run_unqueued (sched : list nat) (s : State) :
  Running s → unqueued s → unqueued (run sched s).
Proof.
  apply run_invariant.
  - intros me w s0 this k _ HQ Hme _. unfold work. by rewrite Hme.
  - by intros me s0 this k k' _ HQ _ _.
  - by intros me s0 this k r _ HQ _ _.
  - by intros me s0 this k k' _ HQ _ _ _.
  - intros me s0 this k k' _ (Hc & Hq & Hr) _ _ _ HI'.
    by apply unqueued_advance.
  - intros me s0 this r _ (Hc & Hq & Hr) _ _ HI'.
    apply unqueued_advance; [done| | |done].
    + simpl. pose proof (length_Set_delete (id this) (jobs s0)). lia.
    + simpl. by rewrite Hq.
Qed.

(** X6 (a cap that is no cap).
    With a [concurrency] of at least the number of jobs nobody is ever
    queued: in every state of every run [queuedJobs] is empty, and the
    jobs signalled ['ready'] in the running phase are the whole snapshot
    of that phase, in snapshot order. *)
Theorem no_queue_under_wide_cap (uuidv1 : nat → Id) (jobList : list Descriptor)
    (c : option Z) (h : gmap Ref (list Value)) (sched : list nat) :
  (∀ a b, uuidv1 a = uuidv1 b → a = b) →
  (Z.of_nat (length jobList) ≤ default 1%Z c)%Z →
  let s := run sched (phaseSyncedSettle uuidv1 jobList c h) in
  queuedJobs s = [] ∧ released (trace s) = snapshot (trace s).
Proof.
  intros Hinj Hc s.
  apply (run_unqueued sched (phaseSyncedSettle uuidv1 jobList c h)).
  - by apply phaseSyncedSettle_running.
  - rewrite phaseSyncedSettle_unfold. cbv zeta.
    pose proof (constructed_built uuidv1 Hinj jobList _ (init_built uuidv1 c h)) as HB.
    destruct (registered_inv uuidv1 Hinj _ HB) as [HI0 Hp0].
    change (set_handlers true _) with (registered (constructed uuidv1 jobList (init c h))).
    set (s4 := registered (constructed uuidv1 jobList (init c h))) in *.
    assert (startNewPhase s4 = advance s4) as ->.
    { unfold advance. by rewrite Hp0. }
    apply unqueued_advance; [done| | |].
    + unfold s4. rewrite (registered_jobs uuidv1 Hinj _ HB).
      unfold ids. rewrite length_fmap, length_syncers_constructed. simpl.
      rewrite concurrency_constructed. simpl. lia.
    + apply HB.
    + simpl. by rewrite (quiet_released _ _ (built_quiet _ _ HB)),
                        (quiet_snapshot _ _ (built_quiet _ _ HB)).
Qed.

Lemma no_queue_under_wide_cap_witness :
  let s := run [0; 1; 2; 0] (phaseSyncedSettle ex_uuidv1 ex_jobList (Some 3%Z) ex_heap) in
  queuedJobs s = [] ∧ released (trace s) = snapshot (trace s).
Proof.
  apply (no_queue_under_wide_cap ex_uuidv1 ex_jobList (Some 3%Z) ex_heap [0; 1; 2; 0]
           ex_uuidv1_inj).
  simpl. lia.
Defined.

(** ** The order of release *)

Definition in_order (all : list Id) (s : State) : Prop :=
  released (trace s) ++ queuedJobs s `sublist_of` snapshot (trace s) ∧
  snapshot (trace s) `sublist_of` all.

Lemma sublist_Set_delete (i : Id) (l : list Id) : Set_delete i l `sublist_of` l.
Proof. apply sublist_filter. Qed.

Lemma in_order_advance (all : list Id) (s : State) :
  Inv s → jobs s `sublist_of` all →
  released (trace s) ++ queuedJobs s `sublist_of` snapshot (trace s) →
  snapshot (trace s) `sublist_of` all →
  in_order all (advance s).
Proof.
  intros HI Hj Hr Hs.
  destruct (advance_cases s HI) as [[_ ->]|[(_ & _ & ->)|(_ & i & q & Hq & ->)]].
  - split; simpl; rewrite ?released_start, snapshot_start; [|done].
    by rewrite slice_split.
  - done.
  - split; simpl; [|done]. rewrite Hq in Hr. by rewrite <- app_assoc.
Qed.

Lemma run_in_order (all : list Id) (sched : list nat) (s : State) :
  Running s → jobs s `sublist_of` all → in_order all s → in_order all (run sched s).
Proof.
  intros HR Hj HQ.
  cut (jobs (run sched s) `sublist_of` all ∧ in_order all (run sched s)); [tauto|].
  refine (run_invariant (λ s, jobs s `sublist_of` all ∧ in_order all s)
            _ _ _ _ _ _ sched s HR (conj Hj HQ)).
  - intros me w s0 this k _ HQ0 Hme _. unfold work. by rewrite Hme.
  - by intros me s0 this k k' _ HQ0 _ _.
  - by intros me s0 this k r _ HQ0 _ _.
  - by intros me s0 this k k' _ HQ0 _ _ _.
  - intros me s0 this k k' _ (Hj0 & Hr & Hs) _ _ _ HI'.
    split; [by rewrite jobs_advance|]. by apply in_order_advance.
  - intros me s0 this r _ (Hj0 & Hr & Hs) _ _ HI'.
    assert (jobs (ended me r this s0) `sublist_of` all) as Hj'.
    { simpl. etrans; [apply sublist_Set_delete|done]. }
    split; [by rewrite jobs_advance|]. apply in_order_advance; [done..| |done].
    simpl. etrans; [|exact Hr]. apply sublist_app; [done|apply sublist_Set_delete].
Qed.

(** X7 (order of release).
    Jobs are released in the order of the job list.  In every state of
    every run, the jobs signalled ['ready'] since the running phase
    started, in the order of the signals, followed by [queuedJobs] in
    queue order, are a sublist of the snapshot the phase started with,
    which is a sublist of the identifiers in job-list order; so within a
    phase no job is released before a job that precedes it in the list,
    and none is released twice. *)
Theorem release_in_list_order (uuidv1 : nat → Id) (jobList : list Descriptor)
    (c : option Z) (h : gmap Ref (list Value)) (sched : list nat) :
  (∀ a b, uuidv1 a = uuidv1 b → a = b) →
  let s := run sched (phaseSyncedSettle uuidv1 jobList c h) in
  released (trace s) ++ queuedJobs s `sublist_of` snapshot (trace s) ∧
  snapshot (trace s) `sublist_of` uuidv1 <$> seq 0 (length jobList) ∧
  NoDup (released (trace s) ++ queuedJobs s).
Proof.
  intros Hinj s.
  pose proof (constructed_built uuidv1 Hinj jobList _ (init_built uuidv1 c h)) as HB.
  destruct (registered_inv uuidv1 Hinj _ HB) as [HI0 Hp0].
  set (s4 := registered (constructed uuidv1 jobList (init c h))) in *.
  assert (phaseSyncedSettle uuidv1 jobList c h = advance s4) as Hs0.
  { rewrite phaseSyncedSettle_unfold. cbv zeta. unfold advance. by rewrite Hp0. }
  assert (jobs s4 = uuidv1 <$> seq 0 (length jobList)) as Hj4.
  { unfold s4. rewrite (registered_jobs uuidv1 Hinj _ HB), (built_ids _ _ HB).
    by rewrite length_syncers_constructed. }
  assert (in_order (uuidv1 <$> seq 0 (length jobList)) s) as [Hr Hs].
  { apply run_in_order.
    - by apply phaseSyncedSettle_running.
    - rewrite Hs0, jobs_advance. by rewrite Hj4.
    - rewrite Hs0. apply in_order_advance; [done|by rewrite Hj4| |].
      + simpl. rewrite (quiet_released _ _ (built_quiet _ _ HB)),
                       (quiet_snapshot _ _ (built_quiet _ _ HB)).
        by rewrite (built_queued _ _ HB).
      + simpl. rewrite (quiet_snapshot _ _ (built_quiet _ _ HB)).
        apply sublist_nil_l. }
  split; [done|]. split; [done|].
  eapply sublist_NoDup; [|exact Hr]. eapply sublist_NoDup; [|exact Hs].
  by apply uuids_NoDup.
Qed.

Lemma release_in_list_order_witness :
  let s := run [0; 1; 2; 0] (phaseSyncedSettle ex_uuidv1 ex_jobList (Some 2%Z) ex_heap) in
  released (trace s) ++ queuedJobs s `sublist_of` snapshot (trace s) ∧
  snapshot (trace s) `sublist_of` ex_uuidv1 <$> seq 0 (length ex_jobList) ∧
  NoDup (released (trace s) ++ queuedJobs s).
Proof.
  exact (release_in_list_order ex_uuidv1 ex_jobList (Some 2%Z) ex_heap [0; 1; 2; 0]
           ex_uuidv1_inj).
Defined.

(** ** Jobs that open with [await phase()] *)

(** The function calls [phase()] before it suspends on anything else or
    ends. *)
Fixpoint opens_with_phase (k : Job) : bool :=
  match k with
  | Work _ k' => opens_with_phase k'
  | AwaitPhase _ => true
  | _ => false
  end.

Definition gated (d : Descriptor) : Prop := ∀ a, opens_with_phase (fun_ d a) = true.

Definition parked_first (h : PhaseSyncer) : Prop :=
  phaseCntr h = 1 ∧ jobEmitter h = 1 ∧ ∃ k, jobPromise h = Waiting k.

Lemma syncers_work (me w : nat) (s : State) : syncers (work me w s) = syncers s.
Proof. unfold work. by destruct (syncers s !! me). Qed.

Lemma exec_opens (me : nat) (k : Job) (s : State) (this : PhaseSyncer) :
  opens_with_phase k = true → syncers s !! me = Some this → phaseCntr this = 0 →
  ∃ k', syncers (exec me k s) = alter (parked k') me (syncers s).
Proof.
  revert s. induction k as [v|e|w k IH|k IH|k IH]; intros s Hk Hme H0; try done.
  - simpl. destruct (IH (work me w s) Hk) as [k' Hk'].
    + by rewrite syncers_work.
    + done.
    + exists k'. by rewrite Hk', syncers_work.
  - exists k. by rewrite (exec_AwaitPhase_first me k s this).
Qed.

Lemma construct_gated (uuid : Id) (d : Descriptor) (s : State) :
  gated d → Forall parked_first (syncers s) →
  Forall parked_first (syncers (construct uuid d s)).
Proof.
  intros Hd Hall. unfold construct.
  set (me := length (syncers s)).
  set (args' := VSyncer me :: default [] (heap s !! args d)).
  set (this := mkPhaseSyncer uuid 0 0 (Runnable (fun_ d args'))).
  match goal with
  | |- Forall _ (syncers (exec me _ ?s2)) =>
      destruct (exec_opens me (fun_ d args') s2 this (Hd args')) as [k' ->]
  end.
  - simpl. by rewrite lookup_app_r, Nat.sub_diag.
  - done.
  - simpl. unfold me. rewrite alter_snoc_last. apply Forall_app. split; [done|].
    apply Forall_singleton. unfold parked_first. simpl. eauto.
Qed.

Lemma constructed_gated (uuidv1 : nat → Id) (jobList : list Descriptor) (s : State) :
  Forall gated jobList → Forall parked_first (syncers s) →
  Forall parked_first (syncers (constructed uuidv1 jobList s)).
Proof.
  revert s. induction jobList as [|d l IH]; intros s Hg Hall; simpl; [done|].
  apply Forall_cons in Hg as [Hd Hl]. apply IH; [done|]. by apply construct_gated.
Qed.

Lemma fmap_fire_all_nil (l : list PhaseSyncer) : fire_all [] <$> l = l.
Proof.
  rewrite <- (list_fmap_id l) at 2. apply list_fmap_ext. intros _ x _.
  apply fire_all_nil.
Qed.

(** A state in which no job is due is final. *)
Lemma run_idle (sched : list nat) (s : State) :
  (∀ me this, syncers s !! me = Some this →
     (∃ k, jobPromise this = Waiting k) ∨ ∃ r, jobPromise this = Finished r) →
  run sched s = s.
Proof.
  intros Hall. induction sched as [|me sched IH]; simpl; [done|].
  assert (step me s = s) as ->; [|exact IH].
  unfold step. destruct (syncers s !! me) as [this|] eqn:Hme; [|done].
  destruct (Hall me this Hme) as [[k ->]|[r ->]]; done.
Qed.

(** ** A closed gate *)

(** X8 (a closed gate).
    With [concurrency] [0] (or negative and no more than minus the number
    of jobs) and jobs that all open with [await phase()], the call returns
    with every job suspended in its first [phase()] and all of them
    queued; no ['ready'] was sent, and nothing can ever send one: no turn
    of the loop changes the state, and the aggregate never resolves. *)
Theorem closed_gate (uuidv1 : nat → Id) (jobList : list Descriptor)
    (c : option Z) (h : gmap Ref (list Value)) (sched : list nat) :
  (∀ a b, uuidv1 a = uuidv1 b → a = b) →
  jobList ≠ [] → Forall gated jobList →
  (default 1%Z c = 0 ∨ default 1%Z c ≤ - Z.of_nat (length jobList))%Z →
  let s0 := phaseSyncedSettle uuidv1 jobList c h in
  run sched s0 = s0 ∧
  aggregate s0 = None ∧
  released (trace s0) = [] ∧
  queuedJobs s0 = uuidv1 <$> seq 0 (length jobList) ∧
  Forall parked_first (syncers s0).
Proof.
  intros Hinj Hne Hg Hc s0.
  pose proof (constructed_built uuidv1 Hinj jobList _ (init_built uuidv1 c h)) as HB.
  destruct (registered_inv uuidv1 Hinj _ HB) as [HI0 Hp0].
  set (s1 := constructed uuidv1 jobList (init c h)) in *.
  assert (jobs (registered s1) = uuidv1 <$> seq 0 (length jobList)) as Hj.
  { rewrite (registered_jobs uuidv1 Hinj _ HB), (built_ids _ _ HB).
    unfold s1. by rewrite length_syncers_constructed. }
  assert (rel_index (length (jobs (registered s1))) (concurrency (registered s1)) = 0)
    as Hrel.
  { rewrite Hj, length_fmap, length_seq.
    change (concurrency (registered s1)) with (concurrency s1).
    unfold s1. rewrite concurrency_constructed. simpl.
    unfold rel_index. case_decide; lia. }
  assert (s0 =
          mkState (concurrency s1) true (syncers s1) (jobMap (registered s1))
            (jobs (registered s1)) (jobs (registered s1)) (jobs (registered s1))
            (heap s1) (ObsPhaseStart (jobs (registered s1)) :: trace s1)) as Hs0.
  { unfold s0. rewrite phaseSyncedSettle_unfold. cbv zeta. fold s1.
    change (set_handlers true _) with (registered s1).
    rewrite startNewPhase_eq by apply HI0.
    unfold slice_from. rewrite slice_0, Hrel, take_0, drop_0, fmap_fire_all_nil.
    reflexivity. }
  assert (Forall parked_first (syncers s0)) as Hall.
  { rewrite Hs0. simpl. unfold s1. by apply constructed_gated. }
  split; [|split; [|split; [|split]]]; [| | | |done].
  - apply run_idle. intros me this Hme.
    pose proof (Forall_lookup_1 _ _ _ _ Hall Hme) as (_ & _ & Hw). by left.
  - destruct (aggregate_run uuidv1 jobList c h [] Hinj) as (Hlen & _ & Hagg).
    change (run [] (phaseSyncedSettle uuidv1 jobList c h)) with s0 in Hlen, Hagg.
    rewrite Hagg.
    apply mapM_None. destruct (syncers s0) as [|x l] eqn:Hs.
    + by destruct jobList.
    + apply Exists_cons_hd. apply Forall_cons in Hall as [(_ & _ & k & Hk) _].
      unfold settled. by rewrite Hk.
  - by rewrite Hs0.
  - rewrite Hs0. exact Hj.
Qed.

Lemma closed_gate_witness :
  let s0 := phaseSyncedSettle ex_uuidv1 ex_jobList (Some 0%Z) ex_heap in
  run ex_sched s0 = s0 ∧
  aggregate s0 = None ∧
  released (trace s0) = [] ∧
  queuedJobs s0 = ex_uuidv1 <$> seq 0 (length ex_jobList) ∧
  Forall parked_first (syncers s0).
Proof.
  apply (closed_gate ex_uuidv1 ex_jobList (Some 0%Z) ex_heap ex_sched ex_uuidv1_inj).
  - discriminate.
  - repeat constructor.
  - left. reflexivity.
Defined.

(** ** What [advance] does to one job *)

Lemma fire_ready_unarmed (h : PhaseSyncer) : jobEmitter h = 0 → fire_ready h = h.
Proof. intros He. unfold fire_ready. by rewrite He. Qed.

(** The listeners leave alone a job that has no listener armed, and a job
    that is pending but not queued. *)
Lemma advance_keeps (s : State) (me : nat) (this : PhaseSyncer) :
  Inv s → syncers s !! me = Some this →
  jobEmitter this = 0 ∨ (id this ∈ phasePendingJobs s ∧ id this ∉ queuedJobs s) →
  syncers (advance s) !! me = Some this.
Proof.
  intros HI Hme Hor.
  destruct (advance_cases s HI) as [[Hp ->]|[(_ & _ & ->)|(_ & i & q & Hq & ->)]];
    [|done|]; simpl; rewrite list_lookup_fmap, Hme; simpl; f_equal.
  - unfold fire_all. case_decide; [|done]. apply fire_ready_unarmed.
    destruct Hor as [He|[Hin _]]; [done|]. rewrite Hp in Hin.
    by apply elem_of_nil in Hin.
  - unfold fire. case_decide as Hid; [|done]. apply fire_ready_unarmed.
    destruct Hor as [He|[_ Hnin]]; [done|]. exfalso. apply Hnin.
    rewrite Hq, Hid. left.
Qed.

Lemma advance_not_queued (s : State) (x : Id) :
  Inv s → x ∉ queuedJobs s → x ∈ phasePendingJobs s ∨ x ∉ jobs s →
  x ∉ queuedJobs (advance s).
Proof.
  intros HI Hq Hor.
  destruct (advance_cases s HI) as [[Hp ->]|[(_ & _ & ->)|(_ & i & q & Hq' & ->)]];
    [|done|]; simpl.
  - destruct Hor as [Hin|Hnin].
    + rewrite Hp in Hin. by apply elem_of_nil in Hin.
    + intros Hx. apply Hnin.
      destruct (slice_parts (jobs s) (concurrency s) (inv_jobs_nodup s HI))
        as (_ & _ & _ & Hfrom & _).
      by apply Hfrom.
  - rewrite Hq' in Hq. rewrite not_elem_of_cons in Hq. tauto.
Qed.

Lemma advance_pending (s : State) (x : Id) :
  Inv s → x ∈ phasePendingJobs s → x ∈ phasePendingJobs (advance s).
Proof.
  intros HI Hx.
  destruct (advance_cases s HI) as [[Hp ->]|[(_ & _ & ->)|(_ & i & q & Hq' & ->)]];
    [|done..]; simpl.
  by apply (inv_pending s HI).
Qed.

(** Identifiers tell the objects apart. *)
Lemma Inv_id_inj (s : State) (a b : nat) (ha hb : PhaseSyncer) :
  Inv s → syncers s !! a = Some ha → syncers s !! b = Some hb →
  id ha = id hb → a = b.
Proof.
  intros HI Ha Hb Hid. pose proof (map_ok_NoDup s (inv_map s HI)) as Hnd.
  eapply NoDup_lookup; [exact Hnd| |]; unfold ids; rewrite list_lookup_fmap.
  - by rewrite Ha.
  - rewrite Hb. simpl. by rewrite Hid.
Qed.

(** ** A signal that nobody hears *)

(** The function suspends on something else before it calls [phase()]
    for the first time. *)
Fixpoint awaits_first (k : Job) : bool :=
  match k with
  | Work _ k' => awaits_first k'
  | Await _ => true
  | _ => false
  end.

(** The job at [me] has not got past its first [phase()]: it has not
    called it yet, or it waits in it, pending and not queued. *)
Definition stuck (me : nat) (s : State) : Prop :=
  ∃ this, syncers s !! me = Some this ∧
    (id this ∉ queuedJobs s) ∧
    phaseCntr this ≤ 1 ∧
    (phaseCntr this = 1 → ∃ k, jobPromise this = Waiting k) ∧
    ((∀ r, jobPromise this ≠ Finished r) → id this ∈ phasePendingJobs s).

Lemma stuck_advance (me : nat) (s : State) (this : PhaseSyncer) :
  Inv s → syncers s !! me = Some this →
  id this ∉ queuedJobs s → phaseCntr this ≤ 1 →
  (phaseCntr this = 1 → ∃ k, jobPromise this = Waiting k) →
  ((∃ r, jobPromise this = Finished r) ∧ id this ∉ jobs s) ∨
    id this ∈ phasePendingJobs s →
  stuck me (advance s).
Proof.
  intros HI Hme Hq Hc Hw Hor. exists this.
  pose proof (Inv_job _ _ _ HI Hme) as (_ & _ & Hok).
  split; [|split; [|split; [done|split; [done|]]]].
  - apply advance_keeps; [done..|].
    destruct Hor as [[[r Hr] _]|Hin]; [|by right].
    left. rewrite Hr in Hok. tauto.
  - apply advance_not_queued; [done..|]. tauto.
  - intros Hnf. apply advance_pending; [done|].
    destruct Hor as [[[r Hr] _]|Hin]; [|done]. by destruct (Hnf r).
Qed.

Lemma stuck_upd (me a : nat) (f : PhaseSyncer → PhaseSyncer) (s : State)
    (this : PhaseSyncer) :
  stuck me s → syncers s !! a = Some this →
  id (f this) = id this →
  (a = me → phaseCntr (f this) ≤ 1 ∧
            (phaseCntr (f this) = 1 → ∃ k, jobPromise (f this) = Waiting k) ∧
            ∀ r, jobPromise this ≠ Finished r) →
  stuck me (upd a f s).
Proof.
  intros (h & Hme & Hq & Hc & Hw & Hp) Ha Hid Hf.
  destruct (decide (a = me)) as [->|Hne].
  - destruct (Hf eq_refl) as (Hc' & Hw' & Hnf). simplify_eq.
    exists (f h). simpl. rewrite list_lookup_alter_eq, Hme. simpl.
    rewrite Hid. split; [done|]. split; [done|]. split; [done|]. split; [done|].
    intros _. by apply Hp.
  - exists h. simpl. by rewrite list_lookup_alter_ne.
Qed.

Lemma run_stuck (me : nat) (sched : list nat) (s : State) :
  Running s → stuck me s → stuck me (run sched s).
Proof.
  apply run_invariant.
  - intros a w s0 this k _ HQ Ha _. unfold work. by rewrite Ha.
  - intros a s0 this k k' _ HQ Ha Hst.
    apply (stuck_upd me a _ s0 this); [done..|]. intros ->. simpl.
    destruct HQ as (h & Hme & _ & Hc & Hw & _). simplify_eq.
    split; [done|]. split.
    + intros H1. destruct (Hw H1) as [k0 Hk0]. congruence.
    + intros r. congruence.
  - intros a s0 this k r _ HQ Ha Hst.
    apply (stuck_upd me a _ s0 this); [done..|]. intros ->. simpl.
    destruct HQ as (h & Hme & _ & Hc & Hw & _). simplify_eq.
    split; [done|]. split.
    + intros H1. destruct (Hw H1) as [k0 Hk0]. congruence.
    + intros r'. congruence.
  - intros a s0 this k k' _ HQ Ha Hst H0.
    change (stuck me (upd a (parked k') s0)).
    apply (stuck_upd me a _ s0 this); [done..|]. intros ->. simpl.
    rewrite H0. split; [done|]. split; [eauto|]. intros r. congruence.
  - intros a s0 this k k' [HI _] (h & Hme & Hq & Hc & Hw & Hp) Ha Hst H0 HI'.
    assert (a ≠ me) as Hne.
    { intros ->. simplify_eq. destruct Hw as [k0 Hk0]; [lia|congruence]. }
    apply (stuck_advance me _ h); [done| |done..|].
    { simpl. by rewrite list_lookup_alter_ne. }
    pose proof (Inv_job _ _ _ HI Hme) as (_ & _ & Hok).
    destruct (jobPromise h) as [k0|k0|r0|r0] eqn:Hh.
    4: { left. split; [eauto|]. simpl. tauto. }
    all: right; simpl; apply elem_of_Set_delete; split; [by apply Hp|].
    all: intros Hid; apply Hne; symmetry; by eapply (Inv_id_inj s0).
  - intros a s0 this r [HI _] (h & Hme & Hq & Hc & Hw & Hp) Ha Hst HI'.
    destruct (decide (a = me)) as [->|Hne].
    + simplify_eq.
      apply (stuck_advance me _ (set_jobPromise (Finished r) h)); [done|..].
      * simpl. by rewrite list_lookup_alter_eq, Hme.
      * simpl. rewrite elem_of_Set_delete. tauto.
      * done.
      * simpl. intros H1. destruct (Hw H1) as [k0 Hk0]. congruence.
      * left. split; [simpl; eauto|]. simpl. rewrite elem_of_Set_delete. tauto.
    + assert (id h ≠ id this) as Hid.
      { intros Hid. apply Hne. symmetry. by eapply (Inv_id_inj s0). }
      apply (stuck_advance me _ h); [done|..|done|done|].
      * simpl. by rewrite list_lookup_alter_ne.
      * simpl. rewrite elem_of_Set_delete. tauto.
      * pose proof (Inv_job _ _ _ HI Hme) as (_ & _ & Hok).
        destruct (jobPromise h) as [k0|k0|r0|r0] eqn:Hh.
        4: { left. split; [eauto|]. simpl. rewrite elem_of_Set_delete. tauto. }
        all: right; simpl; apply elem_of_Set_delete; split; [by apply Hp|done].
Qed.

(** While the objects are constructed a job function touches its own
    object only. *)
Lemma exec_unheard (a : nat) (k : Job) (s : State) :
  handlers s = false →
  handlers (exec a k s) = false ∧
  ∀ j, j ≠ a → syncers (exec a k s) !! j = syncers s !! j.
Proof.
  revert s. induction k as [v|e|w k IH|k IH|k IH]; intros s Hh; simpl.
  - split; [done|]. intros j Hj. by rewrite list_lookup_alter_ne.
  - split; [done|]. intros j Hj. by rewrite list_lookup_alter_ne.
  - destruct (IH (work a w s)) as [Hh' Hl].
    { unfold work. by destruct (syncers s !! a). }
    split; [done|]. intros j Hj. by rewrite Hl, syncers_work.
  - split; [done|]. intros j Hj. by rewrite list_lookup_alter_ne.
  - unfold phase. destruct (syncers s !! a) as [this|] eqn:Ha; simpl.
    + unfold emit_stepDone. simpl. rewrite Hh.
      split; [by case_decide|]. intros j Hj.
      rewrite list_lookup_alter_ne by done.
      case_decide; simpl; by rewrite !list_lookup_alter_ne.
    + split; [done|]. intros j Hj. by rewrite list_lookup_alter_ne.
Qed.

Lemma exec_awaits (me : nat) (k : Job) (s : State) :
  awaits_first k = true →
  ∃ k', syncers (exec me k s) = alter (set_jobPromise (Runnable k')) me (syncers s).
Proof.
  revert s. induction k as [v|e|w k IH|k IH|k IH]; intros s Hk; try done.
  - simpl. destruct (IH (work me w s) Hk) as [k' Hk'].
    exists k'. by rewrite Hk', syncers_work.
  - by exists k.
Qed.

Lemma construct_unheard (uuid : Id) (d : Descriptor) (s : State) (j : nat) :
  handlers s = false → j < length (syncers s) →
  handlers (construct uuid d s) = false ∧
  syncers (construct uuid d s) !! j = syncers s !! j.
Proof.
  intros Hh Hj. unfold construct.
  match goal with
  | |- handlers (exec ?me ?k ?s2) = _ ∧ _ =>
      destruct (exec_unheard me k s2 Hh) as [Hh' Hl]
  end.
  split; [done|]. rewrite Hl by lia. simpl. by rewrite lookup_app_l.
Qed.

Lemma constructed_unheard (uuidv1 : nat → Id) (l : list Descriptor) (s : State) (j : nat) :
  handlers s = false → j < length (syncers s) →
  syncers (constructed uuidv1 l s) !! j = syncers s !! j.
Proof.
  revert s. induction l as [|d l IH]; intros s Hh Hj; simpl; [done|].
  destruct (construct_unheard (uuidv1 (length (syncers s))) d s j Hh Hj) as [Hh' Hl].
  fold (constructed uuidv1 l (construct (uuidv1 (length (syncers s))) d s)).
  rewrite IH; [done..|]. rewrite length_syncers_construct. lia.
Qed.

(** When the last constructor has returned, a job that awaits first is
    due to resume, and has not called [phase()]. *)
Lemma constructed_awaits (uuidv1 : nat → Id) (jobList : list Descriptor)
    (c : option Z) (h : gmap Ref (list Value)) (me : nat) (d : Descriptor) :
  (∀ a b, uuidv1 a = uuidv1 b → a = b) →
  jobList !! me = Some d → (∀ a, awaits_first (fun_ d a) = true) →
  ∃ k, syncers (constructed uuidv1 jobList (init c h)) !! me =
       Some (mkPhaseSyncer (uuidv1 me) 0 0 (Runnable k)).
Proof.
  intros Hinj Hme Hd.
  destruct (list_elem_of_split_length _ _ _ Hme) as (l1 & l2 & -> & ->).
  rewrite constructed_app. simpl.
  fold (constructed uuidv1 l2
          (construct (uuidv1 (length (syncers (constructed uuidv1 l1 (init c h))))) d
             (constructed uuidv1 l1 (init c h)))).
  pose proof (constructed_built uuidv1 Hinj l1 _ (init_built uuidv1 c h)) as HB.
  set (s1 := constructed uuidv1 l1 (init c h)) in *.
  assert (length (syncers s1) = length l1) as Hl.
  { unfold s1. rewrite length_syncers_constructed. simpl. lia. }
  pose proof (construct_built uuidv1 Hinj d s1 HB) as HB'.
  rewrite <- Hl.
  rewrite constructed_unheard.
  - unfold construct.
    match goal with
    | |- ∃ k, syncers (exec ?m ?body ?s2) !! _ = _ =>
        destruct (exec_awaits m body s2 (Hd _)) as [k' ->]
    end.
    exists k'. simpl. rewrite alter_snoc_last. by rewrite list_lookup_middle.
  - apply HB'.
  - rewrite length_syncers_construct. lia.
Qed.

Lemma stuck_start (uuidv1 : nat → Id) (jobList : list Descriptor)
    (c : option Z) (h : gmap Ref (list Value)) (me : nat) (d : Descriptor) :
  (∀ a b, uuidv1 a = uuidv1 b → a = b) →
  jobList !! me = Some d → (∀ a, awaits_first (fun_ d a) = true) →
  (Z.of_nat me < default 1%Z c)%Z →
  stuck me (phaseSyncedSettle uuidv1 jobList c h) ∧
  ObsReady (uuidv1 me) ∈ trace (phaseSyncedSettle uuidv1 jobList c h).
Proof.
  intros Hinj Hme Hd Hc.
  destruct (constructed_awaits uuidv1 jobList c h me d Hinj Hme Hd) as [k Hk].
  pose proof (constructed_built uuidv1 Hinj jobList _ (init_built uuidv1 c h)) as HB.
  destruct (registered_inv uuidv1 Hinj _ HB) as [HI0 Hp0].
  set (s1 := constructed uuidv1 jobList (init c h)) in *.
  assert (jobs (registered s1) = uuidv1 <$> seq 0 (length jobList)) as Hj.
  { rewrite (registered_jobs uuidv1 Hinj _ HB), (built_ids _ _ HB).
    unfold s1. by rewrite length_syncers_constructed. }
  assert (concurrency (registered s1) = default 1%Z c) as Hcc.
  { change (concurrency (registered s1)) with (concurrency s1).
    unfold s1. by rewrite concurrency_constructed. }
  assert (me < length jobList) as Hlt by (by eapply lookup_lt_Some).
  assert (uuidv1 me ∈ slice (jobs (registered s1)) 0 (concurrency (registered s1)))
    as Hin.
  { rewrite slice_0, Hj, Hcc, length_fmap, length_seq.
    apply (list_elem_of_lookup_2 _ me).
    rewrite lookup_take_lt.
    - rewrite list_lookup_fmap, lookup_seq_lt by done. done.
    - unfold rel_index. rewrite decide_False by lia. lia. }
  destruct (slice_parts (jobs (registered s1)) (concurrency (registered s1))
              (inv_jobs_nodup _ HI0)) as (_ & _ & Hslice & _ & _).
  destruct (Hslice _ Hin) as [Hjobs Hnq].
  rewrite phaseSyncedSettle_unfold. cbv zeta. fold s1.
  change (set_handlers true _) with (registered s1).
  rewrite startNewPhase_eq by apply HI0. split.
  - exists (mkPhaseSyncer (uuidv1 me) 0 0 (Runnable k)). simpl.
    split; [|split; [done|split; [lia|split; [done|done]]]].
    rewrite list_lookup_fmap.
    change (syncers (registered s1)) with (syncers s1). rewrite Hk. simpl.
    f_equal. unfold fire_all. by case_decide.
  - simpl. rewrite elem_of_app. left. rewrite elem_of_reverse.
    apply list_elem_of_fmap. eauto.
Qed.

(** X9 (a lost signal).
    A ['ready'] sent to a job that is not waiting in [phase()] is lost:
    an emitter delivers to the listeners it has at that moment.  So if a
    job among the first [concurrency] of the list suspends on something
    else before its first call of [phase()], the signal of the first
    phase start passes it by; in every run that job never gets past that
    call: once it has made it, it waits in it for ever, no second phase
    starts, and the aggregate never resolves. *)
Theorem lost_ready (uuidv1 : nat → Id) (jobList : list Descriptor)
    (c : option Z) (h : gmap Ref (list Value)) (sched : list nat)
    (me : nat) (d : Descriptor) :
  (∀ a b, uuidv1 a = uuidv1 b → a = b) →
  jobList !! me = Some d → (∀ a, awaits_first (fun_ d a) = true) →
  (Z.of_nat me < default 1%Z c)%Z →
  let s := run sched (phaseSyncedSettle uuidv1 jobList c h) in
  ObsReady (uuidv1 me) ∈ trace s ∧
  ∃ this, syncers s !! me = Some this ∧ id this = uuidv1 me ∧
    phaseCntr this ≤ 1 ∧
    (phaseCntr this = 1 →
       (∃ k, jobPromise this = Waiting k) ∧ phases (trace s) = 1 ∧
       aggregate s = None ∧ step me s = s).
Proof.
  intros Hinj Hme Hd Hc s.
  destruct (stuck_start uuidv1 jobList c h me d Hinj Hme Hd Hc) as [Hst0 Hr0].
  pose proof (run_running uuidv1 Hinj sched jobList c h) as [HI HG]. fold s in HI, HG.
  destruct (aggregate_run uuidv1 jobList c h sched Hinj) as (Hlen & Hids & Hagg).
  fold s in Hlen, Hids, Hagg.
  destruct (run_stuck me sched (phaseSyncedSettle uuidv1 jobList c h))
    as (this & Hthis & Hq & Hcn & Hw & Hp); [by apply phaseSyncedSettle_running|done|].
  fold s in Hthis, Hq, Hp.
  split.
  { destruct (frame_trace _ _ (frame_run sched (phaseSyncedSettle uuidv1 jobList c h)))
      as [later Hl]. fold s in Hl. rewrite Hl, elem_of_app. by right. }
  exists this. split; [done|]. split.
  { assert (ids s !! me = Some (id this)) as Hl.
    { unfold ids. by rewrite list_lookup_fmap, Hthis. }
    rewrite Hids, list_lookup_fmap in Hl.
    rewrite lookup_seq_lt in Hl by (by eapply lookup_lt_Some, Hme).
    simpl in Hl. by simplify_eq. }
  split; [done|]. intros H1. destruct (Hw H1) as [k Hk].
  split; [eauto|].
  pose proof (Inv_job _ _ _ HI Hthis) as (_ & _ & Hok). rewrite Hk in Hok.
  split; [|split].
  - destruct Hok as (_ & _ & _ & [[Heq _]|[Heq _]]); lia.
  - rewrite Hagg. apply mapM_None, Exists_exists. exists this.
    split; [by eapply list_elem_of_lookup_2|]. unfold settled. by rewrite Hk.
  - unfold step. by rewrite Hthis, Hk.
Qed.

(** A job that suspends on something else and then awaits [phase()]. *)
Definition late : Job := Await (AwaitPhase (Work 1 (Return 1))).

Lemma lost_ready_witness :
  let jobList := [mkDescriptor (λ _, late) 0; mkDescriptor (λ _, two_phases) 1] in
  let s := run [0; 1; 0; 1; 0; 1] (phaseSyncedSettle ex_uuidv1 jobList (Some 2%Z) ex_heap) in
  ObsReady (ex_uuidv1 0) ∈ trace s ∧
  ∃ this, syncers s !! 0 = Some this ∧ id this = ex_uuidv1 0 ∧
    phaseCntr this ≤ 1 ∧
    (phaseCntr this = 1 →
       (∃ k, jobPromise this = Waiting k) ∧ phases (trace s) = 1 ∧
       aggregate s = None ∧ step 0 s = s).
Proof.
  intros jobList.
  apply (lost_ready ex_uuidv1 jobList (Some 2%Z) ex_heap [0; 1; 0; 1; 0; 1] 0
           (mkDescriptor (λ _, late) 0) ex_uuidv1_inj).
  - reflexivity.
  - intros a. reflexivity.
  - reflexivity.
Defined.

Example lost_ready_run :
  let jobList := [mkDescriptor (λ _, late) 0; mkDescriptor (λ _, two_phases) 1] in
  let s := run [0; 1; 0; 1; 0; 1] (phaseSyncedSettle ex_uuidv1 jobList (Some 2%Z) ex_heap) in
  (jobPromise <$> syncers s) =
    [Waiting (Work 1 (Return 1)); Waiting (Work 2 (Return 10))] ∧
  reverse (trace s) =
    [ObsInvoke 100 [VSyncer 0; VData 5]; ObsInvoke 101 [VSyncer 1]; ObsArm 101;
     ObsPhaseStart [100; 101]; ObsReady 100; ObsReady 101;
     ObsArm 100; ObsWork 101 1 1; ObsArm 101; ObsStepDone 101 1].
Proof. vm_compute. split; reflexivity. Qed.

(** ** A queued job that ends *)

(** The jobs of the running phase that were signalled ['ready'] and have
    not reported since. *)
Definition in_flight (s : State) : list Id :=
  filter (λ i, last_ready_open i (trace s) = true) (phasePendingJobs s).

Lemma filter_local_iff (P P' : Id → Prop) `{∀ x, Decision (P x)} `{∀ x, Decision (P' x)}
    (l : list Id) :
  (∀ i, i ∈ l → (P' i ↔ P i)) → filter P' l = filter P l.
Proof.
  induction l as [|x l IH]; intros Hl; [done|].
  rewrite !filter_cons.
  rewrite IH by (intros; apply Hl; by right).
  pose proof (Hl x ltac:(left)) as Hx.
  destruct (decide (P' x)), (decide (P x)); tauto.
Qed.

Lemma filter_Set_delete (P : Id → Prop) `{∀ x, Decision (P x)} (x : Id) (l : list Id) :
  ¬ P x → filter P (Set_delete x l) = filter P l.
Proof.
  intros Hx. unfold Set_delete. induction l as [|y l IH]; [done|].
  rewrite !filter_cons. destruct (decide (y ≠ x)) as [Hne|Heq].
  - rewrite filter_cons, IH. done.
  - assert (y = x) as -> by (by destruct (decide (y = x))).
    rewrite IH. by rewrite decide_False.
Qed.

Lemma length_filter_one_more (P P' : Id → Prop)
    `{∀ x, Decision (P x)} `{∀ x, Decision (P' x)} (l : list Id) (j : Id) :
  NoDup l → j ∈ l → ¬ P j → P' j → (∀ i, i ∈ l → i ≠ j → (P' i ↔ P i)) →
  length (filter P' l) = S (length (filter P l)).
Proof.
  induction l as [|x l IH]; intros Hnd Hj HPj HP'j Hl.
  - by apply elem_of_nil in Hj.
  - apply NoDup_cons in Hnd as [Hx Hnd]. rewrite !filter_cons.
    apply elem_of_cons in Hj as [<-|Hj].
    + rewrite decide_True, decide_False by done. simpl. f_equal. f_equal.
      apply filter_local_iff. intros i Hi. apply Hl; [by right|].
      intros ->. done.
    + assert (x ≠ j) as Hne by (intros ->; done).
      pose proof (Hl x ltac:(left) Hne) as Hiff.
      pose proof (IH Hnd Hj HPj HP'j) as IH'.
      destruct (decide (P' x)), (decide (P x)); simpl; try tauto.
      all: rewrite IH'; [done|]; intros; apply Hl; [by right|done].
Qed.

Lemma pending_NoDup_advance (s : State) :
  Inv s → NoDup (phasePendingJobs s) → NoDup (phasePendingJobs (advance s)).
Proof.
  intros HI Hnd.
  destruct (advance_cases s HI) as [[_ ->]|[(_ & _ & ->)|(_ & i & q & _ & ->)]];
    [|done..].
  apply HI.
Qed.

Lemma run_pending_NoDup (sched : list nat) (s : State) :
  Running s → NoDup (phasePendingJobs s) → NoDup (phasePendingJobs (run sched s)).
Proof.
  intros HR HQ0.
  refine (run_invariant (λ s, NoDup (phasePendingJobs s)) _ _ _ _ _ _ sched s HR HQ0).
  - intros a w s0 this k _ HQ Ha _. unfold work. by rewrite Ha.
  - intros a s0 this k k' _ HQ _ _. exact HQ.
  - intros a s0 this k r _ HQ _ _. exact HQ.
  - intros a s0 this k k' _ HQ _ _ _. exact HQ.
  - intros a s0 this k k' _ HQ _ _ _ HI'. apply pending_NoDup_advance; [done|].
    simpl. by apply NoDup_Set_delete.
  - intros a s0 this r _ HQ _ _ HI'. apply pending_NoDup_advance; [done|].
    simpl. by apply NoDup_Set_delete.
Qed.

Lemma pending_NoDup (uuidv1 : nat → Id) (jobList : list Descriptor)
    (c : option Z) (h : gmap Ref (list Value)) (sched : list nat) :
  (∀ a b, uuidv1 a = uuidv1 b → a = b) →
  NoDup (phasePendingJobs (run sched (phaseSyncedSettle uuidv1 jobList c h))).
Proof.
  intros Hinj. apply run_pending_NoDup; [by apply phaseSyncedSettle_running|].
  rewrite phaseSyncedSettle_unfold. cbv zeta.
  pose proof (constructed_built uuidv1 Hinj jobList _ (init_built uuidv1 c h)) as HB.
  destruct (registered_inv uuidv1 Hinj _ HB) as [HI0 Hp0].
  rewrite startNewPhase_eq by apply HI0. simpl. apply HI0.
Qed.

(** X10 (a queued job that ends).
    A job that ends while it is still queued (it has done all it had to
    do without a second call of [phase()] and was never released) frees no
    slot, but its ['jobDone'] releases the next queued job all the same:
    nobody that was in flight has reported, and one more job is.  So more
    than [concurrency] jobs can be in flight in a phase. *)
Theorem queued_job_ends (uuidv1 : nat → Id) (jobList : list Descriptor)
    (c : option Z) (h : gmap Ref (list Value)) (sched : list nat)
    (me : nat) (this : PhaseSyncer) (r : Result) (j : Id) (q : list Id) :
  (∀ a b, uuidv1 a = uuidv1 b → a = b) →
  let s := run sched (phaseSyncedSettle uuidv1 jobList c h) in
  syncers s !! me = Some this → jobPromise this = Settled r →
  id this ∈ queuedJobs s → Set_delete (id this) (queuedJobs s) = j :: q →
  trace (step me s) = ObsReady j :: ObsJobDone (id this) :: trace s ∧
  queuedJobs (step me s) = q ∧
  (∀ i, i ∈ in_flight s → i ∈ in_flight (step me s)) ∧
  (j ∉ in_flight s) ∧ j ∈ in_flight (step me s) ∧
  length (in_flight (step me s)) = S (length (in_flight s)).
Proof.
  intros Hinj s Hme Hst Hin Hq.
  pose proof (run_running uuidv1 Hinj sched jobList c h) as [HI HG]. fold s in HI, HG.
  pose proof (done_inv me s this r HI Hme Hst) as HI'.
  fold (ended me r this s) in HI'.
  rewrite (step_ended me s this r) by (done || apply HI).
  assert (j ∈ queuedJobs s ∧ j ≠ id this) as [Hjq Hjne].
  { apply elem_of_Set_delete. rewrite Hq. left. }
  assert (j ∈ phasePendingJobs s) as Hjp by (by apply (inv_queued s HI)).
  destruct (advance_cases _ HI') as [[Hp _]|[(_ & Hq' & _)|(_ & i & q' & Hq' & ->)]].
  { exfalso. simpl in Hp.
    assert (j ∈ Set_delete (id this) (phasePendingJobs s)) as Hx
      by (by apply elem_of_Set_delete).
    rewrite Hp in Hx. by apply elem_of_nil in Hx. }
  { simpl in Hq'. congruence. }
  simpl in Hq'. rewrite Hq in Hq'. simplify_eq.
  assert (∀ x, x ≠ id this →
            last_ready_open x (ObsReady i :: ObsJobDone (id this) :: trace s) =
            if decide (x = i) then true else last_ready_open x (trace s)) as Hopen.
  { intros x Hx. simpl. destruct (decide (x = i)) as [->|Hxi].
    - by rewrite decide_True.
    - rewrite decide_False by congruence.
      unfold is_report. simpl. by rewrite bool_decide_false by congruence. }
  assert (last_ready_open i (trace s) ≠ true) as Hi.
  { intros Ho. apply (inv_open s HI) in Ho. tauto. }
  assert (last_ready_open (id this) (trace s) ≠ true) as Hthis.
  { intros Ho. apply (inv_open s HI) in Ho. tauto. }
  unfold in_flight.
  cbn [trace phasePendingJobs queuedJobs ended set_phasePendingJobs set_queuedJobs
       set_jobs record upd set_syncers].
  split; [done|]. split; [done|]. split; [|split; [|split]].
  - intros x [Hx Hxp]%list_elem_of_filter. apply list_elem_of_filter.
    assert (x ≠ id this) as Hne by (intros ->; done).
    split; [|by apply elem_of_Set_delete].
    rewrite Hopen by done. by case_decide.
  - intros [Hx _]%list_elem_of_filter. done.
  - apply list_elem_of_filter. split; [|by apply elem_of_Set_delete].
    rewrite Hopen by done. by rewrite decide_True.
  - rewrite <- (filter_Set_delete (λ x, last_ready_open x (trace s) = true)
                  (id this) (phasePendingJobs s)) by done.
    apply (length_filter_one_more _ _ _ i).
    + apply NoDup_Set_delete. by apply pending_NoDup.
    + by apply elem_of_Set_delete.
    + done.
    + rewrite Hopen by done. by rewrite decide_True.
    + intros x [_ Hx]%elem_of_Set_delete Hxi. rewrite Hopen by done.
      by rewrite decide_False.
Qed.

(** A job that suspends once and ends without a call of [phase()]. *)
Definition brief : Job := Await (Return 5).

Lemma queued_job_ends_witness :
  let jobList := [mkDescriptor (λ _, two_phases) 0; mkDescriptor (λ _, brief) 1;
                  mkDescriptor (λ _, two_phases) 2] in
  let s := run [1] (phaseSyncedSettle ex_uuidv1 jobList (Some 1%Z) ex_heap) in
  let this := mkPhaseSyncer 101 0 0 (Settled (Fulfilled 5)) in
  trace (step 1 s) = ObsReady 102 :: ObsJobDone (id this) :: trace s ∧
  queuedJobs (step 1 s) = [] ∧
  (∀ i, i ∈ in_flight s → i ∈ in_flight (step 1 s)) ∧
  (102 ∉ in_flight s) ∧ 102 ∈ in_flight (step 1 s) ∧
  length (in_flight (step 1 s)) = S (length (in_flight s)).
Proof.
  intros jobList s this.
  apply (queued_job_ends ex_uuidv1 jobList (Some 1%Z) ex_heap [1] 1 this
           (Fulfilled 5) 102 [] ex_uuidv1_inj).
  - vm_compute. reflexivity.
  - reflexivity.
  - vm_compute. constructor.
  - vm_compute. reflexivity.
Defined.

(** With a cap of one, two jobs are then in flight. *)
Example queued_job_ends_run :
  let jobList := [mkDescriptor (λ _, two_phases) 0; mkDescriptor (λ _, brief) 1;
                  mkDescriptor (λ _, two_phases) 2] in
  let s := run [1; 1] (phaseSyncedSettle ex_uuidv1 jobList (Some 1%Z) ex_heap) in
  concurrency s = 1%Z ∧ in_flight s = [100; 102] ∧ phases (trace s) = 1 ∧
  (jobPromise <$> syncers s) =
    [Runnable (Work 1 (AwaitPhase (Work 2 (Return 10)))); Finished (Fulfilled 5);
     Runnable (Work 1 (AwaitPhase (Work 2 (Return 10))))].
Proof. vm_compute. repeat split; reflexivity. Qed.

(** ** After the end of a job *)

(** Nothing that concerns job [i] is observed once its ['jobDone'] has
    been. *)
Definition over (o : Obs) (past : list Obs) : Prop :=
  match o with
  | ObsWork i _ _ | ObsArm i | ObsStepDone i _ | ObsReady i => ObsJobDone i ∉ past
  | ObsPhaseStart snap => ∀ i, i ∈ snap → ObsJobDone i ∉ past
  | _ => True
  end.

Lemma over_readies (l : list Id) (t : list Obs) :
  (∀ i, i ∈ l → ObsJobDone i ∉ t) → each_event over t →
  each_event over (reverse (ObsReady <$> l) ++ t).
Proof.
  revert t. induction l as [|i l IH]; intros t Hl Ht; simpl; [done|].
  rewrite reverse_cons, <- app_assoc. apply IH.
  - intros j Hj. simpl. rewrite not_elem_of_cons. split; [done|].
    apply Hl. by right.
  - simpl. split; [|done]. apply Hl. left.
Qed.

Lemma over_advance (s : State) :
  Inv s → each_event over (trace s) → each_event over (trace (advance s)).
Proof.
  intros HI Ht.
  assert (∀ i, i ∈ jobs s → ObsJobDone i ∉ trace s) as Hj.
  { intros i Hi. apply (Inv_jobs_done s i HI); [|done]. by apply (inv_jobs_ids s HI). }
  destruct (advance_cases s HI) as [[_ ->]|[(_ & _ & ->)|(_ & i & q & Hq & ->)]];
    [|done|]; simpl.
  - apply over_readies.
    + intros i Hi. rewrite not_elem_of_cons. split; [done|]. apply Hj.
      destruct (slice_parts (jobs s) (concurrency s) (inv_jobs_nodup s HI))
        as (_ & _ & Hslice & _ & _).
      by apply Hslice.
    + simpl. split; [|done]. exact Hj.
  - split; [|done]. apply Hj. apply (inv_pending s HI), (inv_queued s HI).
    rewrite Hq. left.
Qed.

Lemma run_over (sched : list nat) (s : State) :
  Running s → each_event over (trace s) → each_event over (trace (run sched s)).
Proof.
  intros HR HQ0.
  refine (run_invariant (λ s, each_event over (trace s)) _ _ _ _ _ _ sched s HR HQ0).
  - intros a w s0 this k [HI _] HQ Ha Hst. unfold work. rewrite Ha. simpl.
    split; [|done]. pose proof (Inv_job _ _ _ HI Ha) as (_ & _ & Hok).
    rewrite Hst in Hok. tauto.
  - intros a s0 this k k' _ HQ _ _. exact HQ.
  - intros a s0 this k r _ HQ _ _. exact HQ.
  - intros a s0 this k k' [HI _] HQ Ha Hst _. simpl.
    split; [|done]. pose proof (Inv_job _ _ _ HI Ha) as (_ & _ & Hok).
    rewrite Hst in Hok. tauto.
  - intros a s0 this k k' [HI _] HQ Ha Hst _ HI'. apply over_advance; [done|].
    pose proof (Inv_job _ _ _ HI Ha) as (_ & _ & Hok). rewrite Hst in Hok.
    simpl. rewrite not_elem_of_cons. repeat split; try done; tauto.
  - intros a s0 this r _ HQ _ _ HI'. by apply over_advance.
Qed.

(** X11 (after the end of a job).
    A job that has ended is left alone.  In the trace of every run,
    nothing of a job comes after its ['jobDone']: no work, no call of
    [phase()], no ['stepDone'], and the coordinator sends it no ['ready']
    and takes it into no snapshot of a phase. *)
Theorem nothing_after_jobDone (uuidv1 : nat → Id) (jobList : list Descriptor)
    (c : option Z) (h : gmap Ref (list Value)) (sched : list nat) :
  (∀ a b, uuidv1 a = uuidv1 b → a = b) →
  let t := trace (run sched (phaseSyncedSettle uuidv1 jobList c h)) in
  each_event over t ∧
  (∀ later o past i, t = later ++ o :: past → ObsJobDone i ∈ past →
     o ≠ ObsReady i ∧ o ≠ ObsArm i ∧ (∀ n, o ≠ ObsStepDone i n) ∧
     (∀ n w, o ≠ ObsWork i n w) ∧ (∀ snap, o = ObsPhaseStart snap → i ∉ snap)).
Proof.
  intros Hinj t.
  assert (each_event over t) as Hall.
  { apply run_over; [by apply phaseSyncedSettle_running|].
    pose proof (constructed_built uuidv1 Hinj jobList _ (init_built uuidv1 c h)) as HB.
    destruct (registered_inv uuidv1 Hinj _ HB) as [HI0 Hp0].
    set (s4 := registered (constructed uuidv1 jobList (init c h))) in *.
    assert (phaseSyncedSettle uuidv1 jobList c h = advance s4) as ->.
    { rewrite phaseSyncedSettle_unfold. cbv zeta. unfold advance. by rewrite Hp0. }
    apply over_advance; [done|].
    apply each_event_split. intros later o past Ht.
    assert (o ∈ trace s4) as Ho.
    { rewrite Ht, elem_of_app. right. left. }
    assert (∀ i, ObsJobDone i ∉ past) as Hnd.
    { intros i Hi.
      assert (ObsJobDone i ∈ trace s4) as Hi'.
      { rewrite Ht, elem_of_app. right. by right. }
      by apply (built_quiet _ _ HB) in Hi'. }
    apply (built_quiet _ _ HB) in Ho. destruct o; simpl; try done; apply Hnd. }
  split; [done|]. intros later o past i Ht Hi.
  pose proof (proj1 (each_event_split over t) Hall later o past Ht) as Ho.
  destruct o; simpl in Ho; repeat split; try congruence.
  all: try (intros ? ?; congruence).
  all: try (intros ?; congruence).
  intros snap0 [= <-] Hin. by apply (Ho i).
Qed.

Lemma nothing_after_jobDone_witness :
  let t := trace (run ex_sched (phaseSyncedSettle ex_uuidv1 ex_jobList (Some 2%Z) ex_heap)) in
  each_event over t ∧
  (∀ later o past i, t = later ++ o :: past → ObsJobDone i ∈ past →
     o ≠ ObsReady i ∧ o ≠ ObsArm i ∧ (∀ n, o ≠ ObsStepDone i n) ∧
     (∀ n w, o ≠ ObsWork i n w) ∧ (∀ snap, o = ObsPhaseStart snap → i ∉ snap)).
Proof.
  exact (nothing_after_jobDone ex_uuidv1 ex_jobList (Some 2%Z) ex_heap ex_sched
           ex_uuidv1_inj).
Defined.

(** ** Runs of jobs that open with [await phase()] *)

(** A job that is due to run, or whose [onFinally] callback is. *)
Definition active (h : PhaseSyncer) : bool :=
  match jobPromise h with
  | Runnable _ | Settled _ => true
  | _ => false
  end.

(** Where a job stands with the coordinator: a job that is due has been
    released into the running phase and has not reported; a job that waits
    and has not reported is queued. *)
Definition placed (s : State) (h : PhaseSyncer) : Prop :=
  1 ≤ phaseCntr h ∧
  match jobPromise h with
  | Runnable _ | Settled _ => id h ∈ phasePendingJobs s ∧ id h ∉ queuedJobs s
  | Waiting _ => id h ∈ phasePendingJobs s → id h ∈ queuedJobs s
  | Finished _ => True
  end.

Definition Gated (s : State) : Prop := Forall (placed s) (syncers s).

Lemma fire_ready_status (h : PhaseSyncer) :
  id (fire_ready h) = id h ∧ phaseCntr (fire_ready h) = phaseCntr h ∧
  jobPromise (fire_ready h) =
    if decide (jobEmitter h = 0) then jobPromise h else wake (jobPromise h).
Proof. unfold fire_ready. by destruct (jobEmitter h). Qed.

Lemma Gated_advance (s : State) : Inv s → Gated s → Gated (advance s).
Proof.
  intros HI HG.
  destruct (slice_parts (jobs s) (concurrency s) (inv_jobs_nodup s HI))
    as (_ & _ & Hslice & Hfrom & Hcover).
  destruct (advance_cases s HI) as [[Hp ->]|[(_ & _ & ->)|(_ & i & q & Hq & ->)]];
    [|done|].
  - apply Forall_lookup. intros j h' Hj. simpl in Hj.
    rewrite list_lookup_fmap in Hj.
    destruct (syncers s !! j) as [h|] eqn:Hh; simplify_eq/=.
    pose proof (Forall_lookup_1 _ _ _ _ HG Hh) as [Hc Hpl].
    pose proof (Inv_job _ _ _ HI Hh) as (_ & _ & Hok).
    destruct (fire_ready_status h) as (Hid & Hcn & Hst).
    rewrite Hp in Hpl.
    unfold fire_all.
    destruct (decide (id h ∈ slice (jobs s) 0 (concurrency s))) as [Hin|Hnin];
      unfold placed; cbn [phasePendingJobs queuedJobs].
    + rewrite Hid, Hcn, Hst. split; [done|].
      destruct (jobPromise h) as [k|k|r|r] eqn:Hjp.
      * destruct Hpl as [Hx _]. by apply elem_of_nil in Hx.
      * destruct Hok as (He & Hjobs & _). rewrite decide_False by done. simpl.
        split; [done|]. by apply Hslice.
      * destruct Hpl as [Hx _]. by apply elem_of_nil in Hx.
      * by case_decide.
    + split; [done|].
      destruct (jobPromise h) as [k|k|r|r] eqn:Hjp; [| | |done].
      * destruct Hpl as [Hx _]. by apply elem_of_nil in Hx.
      * destruct Hok as (He & Hjobs & _). intros _.
        by destruct (Hcover _ Hjobs).
      * destruct Hpl as [Hx _]. by apply elem_of_nil in Hx.
  - apply Forall_lookup. intros j h' Hj. simpl in Hj.
    rewrite list_lookup_fmap in Hj.
    destruct (syncers s !! j) as [h|] eqn:Hh; simplify_eq/=.
    pose proof (Forall_lookup_1 _ _ _ _ HG Hh) as [Hc Hpl].
    pose proof (Inv_job _ _ _ HI Hh) as (_ & _ & Hok).
    destruct (fire_ready_status h) as (Hid & Hcn & Hst).
    pose proof (inv_queued_nodup s HI) as Hnd. rewrite Hq in Hnd.
    apply NoDup_cons in Hnd as [Hiq Hnd].
    assert (i ∈ phasePendingJobs s) as Hip.
    { apply (inv_queued s HI). rewrite Hq. left. }
    rewrite Hq in Hpl.
    unfold fire.
    destruct (decide (id h = i)) as [Heq|Hne];
      unfold placed; cbn [phasePendingJobs queuedJobs].
    + rewrite Hid, Hcn, Hst. split; [done|].
      destruct (jobPromise h) as [k|k|r|r] eqn:Hjp.
      * destruct Hpl as [_ Hnq]. exfalso. apply Hnq. rewrite Heq. left.
      * destruct Hok as (He & _). rewrite decide_False by done. simpl.
        by rewrite Heq.
      * destruct Hpl as [_ Hnq]. exfalso. apply Hnq. rewrite Heq. left.
      * by case_decide.
    + split; [done|].
      destruct (jobPromise h) as [k|k|r|r] eqn:Hjp; [| | |done].
      * rewrite not_elem_of_cons in Hpl. tauto.
      * intros Hin. apply Hpl in Hin. apply elem_of_cons in Hin as [?|?]; done.
      * rewrite not_elem_of_cons in Hpl. tauto.
Qed.

Lemma placed_other (s s' : State) (x : Id) (h : PhaseSyncer) :
  (∀ i, i ≠ x → (i ∈ phasePendingJobs s' ↔ i ∈ phasePendingJobs s)) →
  (∀ i, i ≠ x → (i ∈ queuedJobs s' ↔ i ∈ queuedJobs s)) →
  id h ≠ x → placed s h → placed s' h.
Proof.
  intros Hp Hq Hne [Hc Hpl]. split; [done|].
  destruct (jobPromise h); rewrite ?Hp, ?Hq by done; done.
Qed.

Lemma Gated_status (a : nat) (st : Status) (s : State) (this : PhaseSyncer) (k : Job) :
  Inv s → Gated s → syncers s !! a = Some this → jobPromise this = Runnable k →
  active (set_jobPromise st this) = true →
  Gated (upd a (set_jobPromise st) s).
Proof.
  intros HI HG Ha Hst Hact.
  pose proof (Forall_lookup_1 _ _ _ _ HG Ha) as Hpl.
  apply (Forall_upd (placed s) _ _ a _ this);
    [apply (map_ok_NoDup s), HI|done|done| |by intros].
  unfold placed, active in *. simpl in *. rewrite Hst in Hpl.
  by destruct st.
Qed.

Lemma Gated_reported (a : nat) (k k' : Job) (s : State) (this : PhaseSyncer) :
  Inv s → Gated s → syncers s !! a = Some this → jobPromise this = Runnable k →
  Gated (reported a k' this s).
Proof.
  intros HI HG Ha Hst.
  pose proof (Forall_lookup_1 _ _ _ _ HG Ha) as [Hc Hpl]. rewrite Hst in Hpl.
  apply (Forall_upd (placed s) _ (parked k') a _ this);
    [apply (map_ok_NoDup s), HI|done|done| |].
  - split; [simpl; lia|]. simpl. rewrite elem_of_Set_delete. tauto.
  - intros h Hh Hne. eapply (placed_other s _ (id this)); [| |done|done].
    + intros i Hi. simpl. rewrite elem_of_Set_delete. tauto.
    + done.
Qed.

Lemma Gated_ended (a : nat) (r : Result) (s : State) (this : PhaseSyncer) :
  Inv s → Gated s → syncers s !! a = Some this →
  Gated (ended a r this s).
Proof.
  intros HI HG Ha.
  pose proof (Forall_lookup_1 _ _ _ _ HG Ha) as [Hc Hpl].
  apply (Forall_upd (placed s) _ (set_jobPromise (Finished r)) a _ this);
    [apply (map_ok_NoDup s), HI|done|done| |].
  - split; [done|]. done.
  - intros h Hh Hne. eapply (placed_other s _ (id this)); [| |done|done].
    + intros i Hi. simpl. rewrite elem_of_Set_delete. tauto.
    + intros i Hi. simpl. rewrite elem_of_Set_delete. tauto.
Qed.

(** *** The slots *)

Lemma length_Set_delete_lt (x : Id) (l : list Id) :
  x ∈ l → length (Set_delete x l) < length l.
Proof.
  unfold Set_delete. induction l as [|y l IH]; intros Hx.
  - by apply elem_of_nil in Hx.
  - rewrite filter_cons. destruct (decide (y ≠ x)) as [Hne|Heq]; simpl.
    + apply elem_of_cons in Hx as [->|Hx]; [done|]. specialize (IH Hx). lia.
    + pose proof (length_filter (λ y, y ≠ x) l). lia.
Qed.

(** No more jobs are pending than are queued plus the cap. *)
Definition slots_ok (s : State) : Prop :=
  length (phasePendingJobs s) ≤ length (queuedJobs s) + Z.to_nat (concurrency s).

Lemma slots_advance (s : State) :
  Inv s → (0 ≤ concurrency s)%Z →
  phasePendingJobs s = [] ∨
    length (phasePendingJobs s) < length (queuedJobs s) + Z.to_nat (concurrency s) →
  slots_ok (advance s).
Proof.
  intros HI Hc Hor. unfold slots_ok.
  destruct (advance_cases s HI) as [[Hp ->]|[(Hp & Hq & ->)|(Hp & i & q & Hq & ->)]];
    simpl.
  - unfold slice_from. rewrite rel_index_nonneg, length_drop by done. lia.
  - destruct Hor as [?|Hlt]; [done|]. lia.
  - destruct Hor as [?|Hlt]; [done|]. rewrite Hq in Hlt. simpl in Hlt. lia.
Qed.

Lemma concurrency_advance (s : State) : concurrency (advance s) = concurrency s.
Proof.
  unfold advance. case_decide.
  - apply (frame_concurrency _ _ (frame_startNewPhase s)).
  - apply (frame_concurrency _ _ (frame_startQueuedJob s)).
Qed.

Definition Capped (s : State) : Prop :=
  (0 ≤ concurrency s)%Z ∧ Gated s ∧ slots_ok s.

Lemma run_Capped (sched : list nat) (s : State) :
  Running s → Capped s → Capped (run sched s).
Proof.
  intros HR HQ0.
  refine (run_invariant Capped _ _ _ _ _ _ sched s HR HQ0).
  - intros a w s0 this k _ HQ Ha _. unfold work. by rewrite Ha.
  - intros a s0 this k k' [HI _] (Hc & HG & HS) Ha Hst.
    split; [done|]. split; [|done]. by eapply Gated_status.
  - intros a s0 this k r [HI _] (Hc & HG & HS) Ha Hst.
    split; [done|]. split; [|done]. by eapply Gated_status.
  - intros a s0 this k k' _ (Hc & HG & HS) Ha Hst H0.
    pose proof (Forall_lookup_1 _ _ _ _ HG Ha) as [Hcn _]. lia.
  - intros a s0 this k k' [HI _] (Hc & HG & HS) Ha Hst H0 HI'.
    pose proof (Forall_lookup_1 _ _ _ _ HG Ha) as [_ Hpl]. rewrite Hst in Hpl.
    split; [by rewrite concurrency_advance|]. split.
    + apply Gated_advance; [done|]. by eapply Gated_reported.
    + apply slots_advance; [done..|]. right. simpl.
      pose proof (length_Set_delete_lt (id this) (phasePendingJobs s0)) as Hlt.
      unfold slots_ok in HS. destruct Hpl as [Hin _]. specialize (Hlt Hin). lia.
  - intros a s0 this r [HI _] (Hc & HG & HS) Ha Hst HI'.
    pose proof (Forall_lookup_1 _ _ _ _ HG Ha) as [_ Hpl]. rewrite Hst in Hpl.
    split; [by rewrite concurrency_advance|]. split.
    + apply Gated_advance; [done|]. by eapply Gated_ended.
    + apply slots_advance; [done..|]. right. simpl.
      pose proof (length_Set_delete_lt (id this) (phasePendingJobs s0)) as Hlt.
      unfold slots_ok in HS. destruct Hpl as [Hin Hnq]. specialize (Hlt Hin).
      rewrite (Set_delete_notin _ _ Hnq). lia.
Qed.

(** The active jobs and the queued ones are different jobs, all
    pending. *)
Lemma active_count (s : State) :
  Inv s → Gated s →
  length (filter (λ h, active h = true) (syncers s)) + length (queuedJobs s)
    ≤ length (phasePendingJobs s).
Proof.
  intros HI HG.
  set (B := id <$> filter (λ h, active h = true) (syncers s)).
  assert (∀ x, x ∈ B → x ∈ phasePendingJobs s ∧ x ∉ queuedJobs s) as HB.
  { intros x (h & -> & [Hact Hin]%list_elem_of_filter)%list_elem_of_fmap.
    apply list_elem_of_lookup in Hin as [j Hj].
    pose proof (Forall_lookup_1 _ _ _ _ HG Hj) as [_ Hpl].
    unfold active in Hact. by destruct (jobPromise h). }
  assert (NoDup (B ++ queuedJobs s)) as Hnd.
  { apply NoDup_app. split; [|split; [|apply HI]].
    - eapply sublist_NoDup; [apply (map_ok_NoDup s), HI|].
      unfold B, ids. apply fmap_sublist, sublist_filter.
    - intros x Hx. by apply HB. }
  assert (B ++ queuedJobs s ⊆+ phasePendingJobs s) as Hsub.
  { apply NoDup_submseteq; [done|]. intros x [Hx|Hx]%elem_of_app.
    - by apply HB.
    - by apply (inv_queued s HI). }
  apply submseteq_length in Hsub. rewrite length_app in Hsub.
  unfold B in Hsub. by rewrite length_fmap in Hsub.
Qed.

Lemma concurrency_run (uuidv1 : nat → Id) (jobList : list Descriptor)
    (c : option Z) (h : gmap Ref (list Value)) (sched : list nat) :
  concurrency (run sched (phaseSyncedSettle uuidv1 jobList c h)) = default 1%Z c.
Proof.
  rewrite (frame_concurrency _ _ (frame_run _ _)).
  rewrite phaseSyncedSettle_unfold. cbv zeta.
  rewrite (frame_concurrency _ _ (frame_startNewPhase _)). simpl.
  by rewrite concurrency_constructed.
Qed.

(** The state a run of gated jobs starts from. *)
Lemma Capped_start (uuidv1 : nat → Id) (jobList : list Descriptor)
    (c : option Z) (h : gmap Ref (list Value)) :
  (∀ a b, uuidv1 a = uuidv1 b → a = b) →
  Forall gated jobList → (0 ≤ default 1%Z c)%Z →
  Capped (phaseSyncedSettle uuidv1 jobList c h).
Proof.
  intros Hinj Hg Hc.
  pose proof (constructed_built uuidv1 Hinj jobList _ (init_built uuidv1 c h)) as HB.
  destruct (registered_inv uuidv1 Hinj _ HB) as [HI0 Hp0].
  set (s4 := registered (constructed uuidv1 jobList (init c h))) in *.
  assert (phaseSyncedSettle uuidv1 jobList c h = advance s4) as Hs0.
  { rewrite phaseSyncedSettle_unfold. cbv zeta. unfold advance. by rewrite Hp0. }
  assert (concurrency s4 = default 1%Z c) as Hcc.
  { unfold s4. change (concurrency (registered ?x)) with (concurrency x).
    by rewrite concurrency_constructed. }
  rewrite Hs0. split; [|split].
  - by rewrite concurrency_advance, Hcc.
  - apply Gated_advance; [done|].
    pose proof (constructed_gated uuidv1 jobList (init c h) Hg (Forall_nil_2 _)) as Hall.
    apply Forall_lookup. intros j x Hj.
    change (syncers s4) with (syncers (constructed uuidv1 jobList (init c h))) in Hj.
    pose proof (Forall_lookup_1 _ _ _ _ Hall Hj) as (H1 & _ & k & Hk).
    split; [lia|]. rewrite Hk, Hp0. by intros ?%elem_of_nil.
  - apply slots_advance; [done|by rewrite Hcc|by left].
Qed.

(** X12 (the cap throughout a run).
    With jobs that all open with [await phase()] and a cap that is not
    negative, the cap holds throughout: in every state of every run at
    most [concurrency] jobs are active (due to run, or settled with the
    ['jobDone'] still to be sent); every active job has been released
    into the running phase and has not reported yet; and every job that
    waits without having reported is queued. *)
Theorem cap_throughout (uuidv1 : nat → Id) (jobList : list Descriptor)
    (c : option Z) (h : gmap Ref (list Value)) (sched : list nat) :
  (∀ a b, uuidv1 a = uuidv1 b → a = b) →
  Forall gated jobList → (0 ≤ default 1%Z c)%Z →
  let s := run sched (phaseSyncedSettle uuidv1 jobList c h) in
  length (filter (λ h, active h = true) (syncers s)) ≤ Z.to_nat (default 1%Z c) ∧
  Forall (placed s) (syncers s) ∧
  length (phasePendingJobs s) ≤ length (queuedJobs s) + Z.to_nat (default 1%Z c).
Proof.
  intros Hinj Hg Hc s.
  pose proof (run_running uuidv1 Hinj sched jobList c h) as [HI HG]. fold s in HI, HG.
  destruct (run_Capped sched (phaseSyncedSettle uuidv1 jobList c h))
    as (_ & HGa & HS).
  { by apply phaseSyncedSettle_running. }
  { by apply Capped_start. }
  fold s in HGa, HS. unfold slots_ok in HS.
  unfold s in HS at 3. rewrite concurrency_run in HS. fold s in HS.
  split; [|done]. pose proof (active_count s HI HGa). lia.
Qed.

Lemma cap_throughout_witness :
  let s := run [0; 1; 0; 2] (phaseSyncedSettle ex_uuidv1 ex_jobList (Some 2%Z) ex_heap) in
  length (filter (λ h, active h = true) (syncers s)) ≤ Z.to_nat (default 1%Z (Some 2%Z)) ∧
  Forall (placed s) (syncers s) ∧
  length (phasePendingJobs s)
    ≤ length (queuedJobs s) + Z.to_nat (default 1%Z (Some 2%Z)).
Proof.
  apply (cap_throughout ex_uuidv1 ex_jobList (Some 2%Z) ex_heap [0; 1; 0; 2]
           ex_uuidv1_inj).
  - repeat constructor.
  - simpl. lia.
Defined.

(** ** Progress *)

(** With a cap of at least one the coordinator never comes to rest with a
    job pending and nobody released: after either listener, if nobody is
    pending then no job is left, and if somebody is queued then somebody
    else is pending and not queued. *)
Definition Moving (s : State) : Prop :=
  (1 ≤ concurrency s)%Z ∧
  (phasePendingJobs s = [] → jobs s = []) ∧
  (queuedJobs s ≠ [] → ∃ x, x ∈ phasePendingJobs s ∧ x ∉ queuedJobs s).

Lemma Moving_advance (s : State) :
  Inv s → (1 ≤ concurrency s)%Z → Moving (advance s).
Proof.
  intros HI Hc. split; [by rewrite concurrency_advance|].
  destruct (slice_parts (jobs s) (concurrency s) (inv_jobs_nodup s HI))
    as (_ & _ & Hslice & _ & _).
  destruct (advance_cases s HI) as [[Hp Heq]|[(Hp & Hq & ->)|(Hp & i & q & Hq & ->)]].
  - rewrite Heq. simpl. split; [done|]. intros Hne.
    destruct (jobs s) as [|x l] eqn:Hj.
    { exfalso. apply Hne. unfold slice_from. by rewrite drop_nil. }
    exists x. assert (x ∈ slice (x :: l) 0 (concurrency s)) as Hx.
    { rewrite slice_0, rel_index_nonneg by lia. simpl.
      destruct (Z.to_nat (concurrency s)) as [|m] eqn:Hm; [lia|]. simpl. left. }
    destruct (Hslice x Hx) as [Hin Hnq]. done.
  - split; [done|]. by rewrite Hq.
  - simpl. split; [done|]. intros _. exists i.
    pose proof (inv_queued_nodup s HI) as Hnd. rewrite Hq in Hnd.
    apply NoDup_cons in Hnd as [Hiq _]. split; [|done].
    apply (inv_queued s HI). rewrite Hq. left.
Qed.

Lemma run_Moving (sched : list nat) (s : State) :
  Running s → Moving s → Moving (run sched s).
Proof.
  intros HR HQ0.
  refine (run_invariant Moving _ _ _ _ _ _ sched s HR HQ0).
  - intros a w s0 this k _ HQ Ha _. unfold work. by rewrite Ha.
  - intros a s0 this k k' _ HQ _ _. exact HQ.
  - intros a s0 this k r _ HQ _ _. exact HQ.
  - intros a s0 this k k' _ HQ _ _ _. exact HQ.
  - intros a s0 this k k' _ [Hc _] _ _ _ HI'. by apply Moving_advance.
  - intros a s0 this r _ [Hc _] _ _ HI'. by apply Moving_advance.
Qed.

(** If no job is active, every job has finished. *)
Lemma no_deadlock (s : State) :
  Inv s → Gated s → Moving s →
  (∀ j h, syncers s !! j = Some h → active h = false) →
  ∀ me this, syncers s !! me = Some this → ∃ r, jobPromise this = Finished r.
Proof.
  intros HI HG (_ & HM & HN) Hidle me this Hme.
  pose proof (Inv_job _ _ _ HI Hme) as (_ & _ & Hok).
  pose proof (Hidle me this Hme) as Hact. unfold active in Hact.
  destruct (jobPromise this) as [k|k|r|r] eqn:Hst; [done| |done|eauto].
  exfalso. destruct Hok as (_ & Hjobs & _).
  assert (∀ x, x ∈ phasePendingJobs s → x ∈ queuedJobs s) as Hall.
  { intros x Hx.
    pose proof (inv_jobs_ids s HI x (inv_pending s HI x Hx)) as Hid.
    apply lookup_ids in Hid as (j & h & Hj & <-).
    pose proof (Forall_lookup_1 _ _ _ _ HG Hj) as [_ Hpl].
    pose proof (Inv_job _ _ _ HI Hj) as (_ & _ & Hokj).
    pose proof (Hidle j h Hj) as Hactj. unfold active in Hactj.
    destruct (jobPromise h); [done|by apply Hpl|done|].
    destruct Hokj as (_ & Hnj & _). exfalso. apply Hnj.
    by apply (inv_pending s HI). }
  destruct (phasePendingJobs s) as [|x l] eqn:Hp.
  { rewrite HM in Hjobs by done. by apply elem_of_nil in Hjobs. }
  destruct HN as (y & Hy & Hny).
  { intros Hq. specialize (Hall x ltac:(left)). rewrite Hq in Hall.
    by apply elem_of_nil in Hall. }
  by apply Hny, Hall.
Qed.

(** *** A measure of what is left to do *)

Fixpoint size (k : Job) : nat :=
  match k with
  | Return _ | Throw _ => 0
  | Work _ k' | Await k' | AwaitPhase k' => S (size k')
  end.

Definition weight (st : Status) : nat :=
  match st with
  | Runnable k | Waiting k => 2 + size k
  | Settled _ => 1
  | Finished _ => 0
  end.

Definition weights (s : State) : list nat :=
  (λ h, weight (jobPromise h)) <$> syncers s.

Lemma weight_fire_ready (h : PhaseSyncer) :
  weight (jobPromise (fire_ready h)) = weight (jobPromise h).
Proof.
  unfold fire_ready. destruct (jobEmitter h); [done|]. simpl.
  by destruct (jobPromise h).
Qed.

Lemma weights_advance (s : State) : Inv s → weights (advance s) = weights s.
Proof.
  intros HI. unfold weights.
  destruct (advance_cases s HI) as [[_ ->]|[(_ & _ & ->)|(_ & i & q & _ & ->)]];
    [|done|]; simpl; rewrite <- list_fmap_compose; apply list_fmap_ext;
    intros _ h _; simpl.
  - unfold fire_all. case_decide; [apply weight_fire_ready|done].
  - unfold fire. case_decide; [apply weight_fire_ready|done].
Qed.

Lemma weights_upd (me : nat) (f : PhaseSyncer → PhaseSyncer) (s : State)
    (this : PhaseSyncer) :
  syncers s !! me = Some this →
  weights (upd me f s) = <[me := weight (jobPromise (f this))]> (weights s).
Proof.
  intros Hme. unfold weights. simpl. apply list_eq. intros j.
  rewrite list_lookup_fmap. destruct (decide (j = me)) as [->|Hne].
  - rewrite list_lookup_alter_eq, Hme, list_lookup_insert_eq; [done|].
    rewrite length_fmap. by eapply lookup_lt_Some.
  - rewrite list_lookup_alter_ne, list_lookup_insert_ne by done.
    by rewrite list_lookup_fmap.
Qed.

(** A turn of a job that runs leaves the others their weight and the job
    itself less than it had. *)
Lemma exec_weights (me : nat) (k k0 : Job) (s : State) (this : PhaseSyncer) :
  Running s → syncers s !! me = Some this → jobPromise this = Runnable k0 →
  ∃ w, weights (exec me k s) = <[me := w]> (weights s) ∧ w ≤ 1 + size k.
Proof.
  revert s this. induction k as [v|e|w k IH|k IH|k IH]; intros s this HR Hme Hst.
  - exists 1. split; [|simpl; lia]. simpl. by rewrite (weights_upd me _ s this).
  - exists 1. split; [|simpl; lia]. simpl. by rewrite (weights_upd me _ s this).
  - simpl. destruct (IH (work me w s) this) as (w' & Hw & Hle).
    + destruct HR as [HI HG]. split; [by eapply work_inv|].
      unfold work. by rewrite Hme.
    + by rewrite syncers_work.
    + done.
    + exists w'. split; [|lia]. rewrite Hw. unfold weights. by rewrite syncers_work.
  - exists (2 + size k). split; [|simpl; lia]. simpl.
    by rewrite (weights_upd me _ s this).
  - exists (2 + size k). split; [|simpl; lia].
    destruct (decide (phaseCntr this = 0)) as [H0|H0].
    + rewrite (exec_AwaitPhase_first me k s this) by done.
      change (weights (record ?o ?x)) with (weights x).
      by rewrite (weights_upd me _ s this).
    + rewrite (exec_reported me k s this) by (done || lia || apply HR).
      rewrite weights_advance by (eapply report_inv; [apply HR|done..|lia]).
      change (weights (reported me k this s)) with (weights (upd me (parked k) s)).
      by rewrite (weights_upd me _ s this).
Qed.

Lemma step_active (me : nat) (s : State) (this : PhaseSyncer) :
  Running s → syncers s !! me = Some this → active this = true →
  ∃ w, weights (step me s) = <[me := w]> (weights s) ∧ w < weight (jobPromise this).
Proof.
  intros HR Hme Hact. unfold step at 1. rewrite Hme.
  unfold active in Hact.
  destruct (jobPromise this) as [k|k|r|r] eqn:Hst; [|done| |done].
  - destruct (exec_weights me k k s this HR Hme Hst) as (w & Hw & Hle).
    exists w. simpl. split; [done|lia].
  - exists 0. simpl. split; [|lia].
    pose proof (step_ended me s this r (inv_handlers s (proj1 HR)) Hme Hst) as Heq.
    unfold step in Heq. rewrite Hme, Hst in Heq. rewrite Heq.
    rewrite weights_advance by (eapply done_inv; [apply HR|done..]).
    change (weights (ended me r this s))
      with (weights (upd me (set_jobPromise (Finished r)) s)).
    by rewrite (weights_upd me _ s this).
Qed.

Lemma step_idle (me : nat) (s : State) :
  (∀ this, syncers s !! me = Some this → active this = false) → step me s = s.
Proof.
  intros Hidle. unfold step. destruct (syncers s !! me) as [this|] eqn:Hme; [|done].
  specialize (Hidle this eq_refl). unfold active in Hidle.
  by destruct (jobPromise this).
Qed.

Definition total (s : State) : nat := sum_list (weights s).

Lemma sum_list_insert (l : list nat) (i v old : nat) :
  l !! i = Some old → sum_list (<[i := v]> l) + old = sum_list l + v.
Proof.
  revert i. induction l as [|x l IH]; intros [|i] Hi; simplify_eq/=; [lia|].
  specialize (IH i Hi). lia.
Qed.

Lemma step_total (me : nat) (s : State) :
  Running s →
  total (step me s) ≤ total s ∧
  ∀ this, syncers s !! me = Some this → active this = true →
          total (step me s) < total s.
Proof.
  intros HR.
  assert (∀ this, syncers s !! me = Some this → active this = true →
                  total (step me s) < total s) as Hlt.
  { intros this Hme Hact.
    destruct (step_active me s this HR Hme Hact) as (w & Hw & Hle).
    unfold total. rewrite Hw.
    pose proof (sum_list_insert (weights s) me w (weight (jobPromise this))) as Hs.
    unfold weights in Hs at 1. rewrite list_lookup_fmap, Hme in Hs.
    specialize (Hs eq_refl). lia. }
  split; [|done].
  destruct (syncers s !! me) as [this|] eqn:Hme.
  - destruct (active this) eqn:Hact.
    + specialize (Hlt this eq_refl Hact). lia.
    + rewrite step_idle; [done|]. intros ? ?. by simplify_eq.
  - rewrite step_idle; [done|]. intros ? ?. by simplify_eq.
Qed.

Lemma active_fire_all (L : list Id) (h : PhaseSyncer) :
  active h = true → active (fire_all L h) = true.
Proof.
  intros Hact. unfold fire_all. case_decide; [|done].
  unfold fire_ready. destruct (jobEmitter h); [done|].
  unfold active in *. simpl. by destruct (jobPromise h).
Qed.

(** A job that is active stays active until it takes its turn. *)
Lemma step_keeps_active (me j : nat) (s : State) (h : PhaseSyncer) :
  Running s → j ≠ me → syncers s !! j = Some h → active h = true →
  ∃ h', syncers (step me s) !! j = Some h' ∧ active h' = true.
Proof.
  intros HR Hne Hj Hact.
  destruct (step_others me s HR) as (L & later & _ & _ & Ho).
  exists (fire_all L h). rewrite (Ho j Hne), Hj. split; [done|].
  by apply active_fire_all.
Qed.

Lemma run_total (r : list nat) (s : State) : Running s → total (run r s) ≤ total s.
Proof.
  revert s. induction r as [|me r IH]; intros s HR; simpl; [done|].
  specialize (IH (step me s) (step_inv me s HR)).
  pose proof (step_total me s HR) as [Hle _].
  change (foldl (λ s me, step me s) (step me s) r) with (run r (step me s)). lia.
Qed.

(** A round in which an active job has a turn does some of what is left
    to do. *)
Lemma round_progress (r : list nat) (s : State) (j : nat) (h : PhaseSyncer) :
  Running s → syncers s !! j = Some h → active h = true → j ∈ r →
  total (run r s) < total s.
Proof.
  revert s h. induction r as [|me r IH]; intros s h HR Hj Hact Hin.
  - by apply elem_of_nil in Hin.
  - simpl. change (foldl (λ s me, step me s) (step me s) r) with (run r (step me s)).
    pose proof (step_total me s HR) as [Hle Hlt].
    pose proof (step_inv me s HR) as HR'.
    destruct (decide (j = me)) as [->|Hne].
    + specialize (Hlt h Hj Hact). pose proof (run_total r (step me s) HR'). lia.
    + apply elem_of_cons in Hin as [?|Hin]; [done|].
      destruct (step_keeps_active me j s h HR Hne Hj Hact) as (h' & Hj' & Hact').
      specialize (IH (step me s) h' HR' Hj' Hact' Hin). lia.
Qed.

Lemma run_app (r1 r2 : list nat) (s : State) : run (r1 ++ r2) s = run r2 (run r1 s).
Proof. unfold run. by rewrite foldl_app. Qed.

Lemma total_0 (s : State) :
  total s = 0 →
  ∀ me this, syncers s !! me = Some this → ∃ r, jobPromise this = Finished r.
Proof.
  intros H0 me this Hme.
  assert (weight (jobPromise this) ∈ weights s) as Hin.
  { unfold weights. apply list_elem_of_fmap. exists this. split; [done|].
    by eapply list_elem_of_lookup_2. }
  assert (∀ l x, sum_list l = 0 → x ∈ l → x = 0) as Hsum.
  { intros l. induction l as [|y l IH]; intros x Hl Hx.
    - by apply elem_of_nil in Hx.
    - simpl in Hl. apply elem_of_cons in Hx as [->|Hx]; [lia|]. apply IH; [lia|done]. }
  specialize (Hsum _ _ H0 Hin). destruct (jobPromise this); simpl in Hsum; try lia.
  eauto.
Qed.

(** *** Fair schedules *)

(** All that holds of a run of gated jobs under a cap of at least one. *)
Definition Live (s : State) : Prop := Running s ∧ Capped s ∧ Moving s.

Lemma run_Live (r : list nat) (s : State) : Live s → Live (run r s).
Proof.
  intros (HR & HC & HM). split; [by apply run_inv|].
  split; [by apply run_Capped|by apply run_Moving].
Qed.

Lemma rounds_complete (n : nat) (rounds : list (list nat)) (s : State) :
  Live s → length (syncers s) = n →
  Forall (λ r, ∀ j, j < n → j ∈ r) rounds → total s ≤ length rounds →
  ∀ me this, syncers (run (concat rounds) s) !! me = Some this →
             ∃ r, jobPromise this = Finished r.
Proof.
  revert s. induction rounds as [|r rounds IH]; intros s HL Hn Hfair Hle.
  - simpl. apply total_0. simpl in Hle. lia.
  - apply Forall_cons in Hfair as [Hr Hfair]. simpl. rewrite run_app.
    destruct HL as (HR & HC & HM).
    destruct (decide (Exists (λ h, active h = true) (syncers s))) as [Hex|Hno].
    + apply Exists_exists in Hex as (h & Hin & Hact).
      apply list_elem_of_lookup in Hin as [j Hj].
      assert (j ∈ r) as Hjr.
      { apply Hr. rewrite <- Hn. by eapply lookup_lt_Some. }
      pose proof (round_progress r s j h HR Hj Hact Hjr) as Hlt.
      apply IH; [by apply run_Live| |done|simpl in Hle; lia].
      rewrite <- Hn.
      rewrite <- !(length_fmap id). fold (ids (run r s)) (ids s).
      by rewrite (frame_ids _ _ (frame_run r s)).
    + assert (∀ me this, syncers s !! me = Some this →
                         ∃ r, jobPromise this = Finished r) as Hall.
      { destruct HC as (_ & HG & _). apply no_deadlock; [apply HR|done..|].
        intros j h Hj. destruct (active h) eqn:Hact; [|done].
        exfalso. apply Hno, Exists_exists. exists h.
        split; [by eapply list_elem_of_lookup_2|done]. }
      rewrite (run_all_finished r s Hall), (run_all_finished _ s Hall). exact Hall.
Qed.

Lemma Live_start (uuidv1 : nat → Id) (jobList : list Descriptor)
    (c : option Z) (h : gmap Ref (list Value)) :
  (∀ a b, uuidv1 a = uuidv1 b → a = b) →
  Forall gated jobList → (1 ≤ default 1%Z c)%Z →
  Live (phaseSyncedSettle uuidv1 jobList c h).
Proof.
  intros Hinj Hg Hc. split; [by apply phaseSyncedSettle_running|].
  split; [apply Capped_start; [done..|lia]|].
  pose proof (constructed_built uuidv1 Hinj jobList _ (init_built uuidv1 c h)) as HB.
  destruct (registered_inv uuidv1 Hinj _ HB) as [HI0 Hp0].
  set (s4 := registered (constructed uuidv1 jobList (init c h))) in *.
  assert (phaseSyncedSettle uuidv1 jobList c h = advance s4) as ->.
  { rewrite phaseSyncedSettle_unfold. cbv zeta. unfold advance. by rewrite Hp0. }
  apply Moving_advance; [done|].
  unfold s4. change (concurrency (registered ?x)) with (concurrency x).
  by rewrite concurrency_constructed.
Qed.

(** X13 (no deadlock).
    Jobs that all open with [await phase()] run to their end under any
    cap of at least one.  There is a number [N] of rounds (the work that
    is left when the call returns) such that, whatever the order in which
    the event loop resumes the jobs, once it has gone [N] times round
    them, giving every job a turn in each round, every [jobPromise] has
    settled and the aggregate has resolved, with one entry for each job:
    no job is left waiting for a phase. *)
Theorem gated_jobs_complete (uuidv1 : nat → Id) (jobList : list Descriptor)
    (c : option Z) (h : gmap Ref (list Value)) :
  (∀ a b, uuidv1 a = uuidv1 b → a = b) →
  Forall gated jobList → (1 ≤ default 1%Z c)%Z →
  ∃ N, ∀ rounds,
    N ≤ length rounds →
    Forall (λ r, ∀ j, j < length jobList → j ∈ r) rounds →
    let s := run (concat rounds) (phaseSyncedSettle uuidv1 jobList c h) in
    (∀ me this, syncers s !! me = Some this → ∃ r, jobPromise this = Finished r) ∧
    ∃ rs, aggregate s = Some rs ∧ length rs = length jobList.
Proof.
  intros Hinj Hg Hc.
  exists (total (phaseSyncedSettle uuidv1 jobList c h)).
  intros rounds Hle Hfair s.
  destruct (aggregate_run uuidv1 jobList c h [] Hinj) as (Hlen0 & _ & _).
  change (run [] ?x) with x in Hlen0.
  destruct (aggregate_run uuidv1 jobList c h (concat rounds) Hinj) as (Hlen & _ & Hagg).
  fold s in Hlen, Hagg.
  assert (∀ me this, syncers s !! me = Some this → ∃ r, jobPromise this = Finished r)
    as Hall.
  { apply (rounds_complete (length jobList) rounds); [|done..].
    by apply Live_start. }
  split; [done|].
  assert (is_Some (aggregate s)) as [rs Hrs].
  { rewrite Hagg, mapM_is_Some. apply Forall_lookup. intros j this Hj.
    destruct (Hall j this Hj) as [r Hr]. simpl. unfold settled. rewrite Hr. eauto. }
  exists rs. split; [done|]. rewrite Hagg in Hrs. apply mapM_Some in Hrs.
  by rewrite <- (Forall2_length _ _ _ Hrs).
Qed.

Lemma gated_jobs_complete_witness :
  ∃ N, ∀ rounds,
    N ≤ length rounds →
    Forall (λ r, ∀ j, j < length ex_jobList → j ∈ r) rounds →
    let s := run (concat rounds)
               (phaseSyncedSettle ex_uuidv1 ex_jobList (Some 1%Z) ex_heap) in
    (∀ me this, syncers s !! me = Some this → ∃ r, jobPromise this = Finished r) ∧
    ∃ rs, aggregate s = Some rs ∧ length rs = length ex_jobList.
Proof.
  apply (gated_jobs_complete ex_uuidv1 ex_jobList (Some 1%Z) ex_heap ex_uuidv1_inj).
  - repeat constructor.
  - simpl. lia.
Defined.

(** ** Counters and phases *)

(** What a job does under a counter that is not [0] it does in the phase
    of that number, and the number it reports is the number of the
    running phase. *)
Definition aligned (o : Obs) (past : list Obs) : Prop :=
  match o with
  | ObsWork _ (S n) _ => phases past = S n
  | ObsStepDone _ n => phases past = n
  | _ => True
  end.

Lemma aligned_readies (l : list Id) (t : list Obs) :
  each_event aligned t → each_event aligned (reverse (ObsReady <$> l) ++ t).
Proof.
  revert t. induction l as [|i l IH]; intros t Ht; simpl; [done|].
  rewrite reverse_cons, <- app_assoc. apply IH. simpl. done.
Qed.

Lemma aligned_advance (s : State) :
  Inv s → each_event aligned (trace s) → each_event aligned (trace (advance s)).
Proof.
  intros HI Ht.
  destruct (advance_cases s HI) as [[_ ->]|[(_ & _ & ->)|(_ & i & q & Hq & ->)]];
    [|done|]; simpl.
  - apply aligned_readies. simpl. done.
  - done.
Qed.

Lemma run_aligned (sched : list nat) (s : State) :
  Running s → each_event aligned (trace s) → each_event aligned (trace (run sched s)).
Proof.
  intros HR HQ0.
  refine (run_invariant (λ s, each_event aligned (trace s)) _ _ _ _ _ _ sched s HR HQ0).
  - intros a w s0 this k [HI HG] HQ Ha Hst. unfold work. rewrite Ha. simpl.
    split; [|done]. pose proof (Inv_job _ _ _ HI Ha) as (_ & _ & Hok).
    rewrite Hst in Hok. destruct (phaseCntr this) as [|n] eqn:Hn; [done|].
    destruct Hok as (_ & _ & _ & _ & [[? _]|[Heq _]]); [done|]. done.
  - intros a s0 this k k' _ HQ _ _. exact HQ.
  - intros a s0 this k r _ HQ _ _. exact HQ.
  - intros a s0 this k k' _ HQ _ _ _. simpl. done.
  - intros a s0 this k k' [HI _] HQ Ha Hst H0 HI'. apply aligned_advance; [done|].
    pose proof (Inv_job _ _ _ HI Ha) as (_ & _ & Hok). rewrite Hst in Hok.
    split; [|done]. unfold aligned, phases in *. simpl.
    destruct Hok as (_ & _ & _ & _ & [[? _]|[Heq _]]); lia.
  - intros a s0 this r _ HQ _ _ HI'. by apply aligned_advance.
Qed.

(** X14 (counters and phases).
    The counters keep step with the phases.  In the trace of every run,
    work that a job does under counter [n] (after its [n]-th call of
    [phase()]), for [n] at least one, is done while phase [n] is the
    running one, and the ['stepDone'] with number [n] is sent in phase
    [n]: no job is ever a phase ahead of the coordinator or behind it. *)
Theorem counters_keep_step (uuidv1 : nat → Id) (jobList : list Descriptor)
    (c : option Z) (h : gmap Ref (list Value)) (sched : list nat) :
  (∀ a b, uuidv1 a = uuidv1 b → a = b) →
  let t := trace (run sched (phaseSyncedSettle uuidv1 jobList c h)) in
  each_event aligned t ∧
  (∀ later i n w past, t = later ++ ObsWork i (S n) w :: past → phases past = S n) ∧
  (∀ later i n past, t = later ++ ObsStepDone i n :: past → phases past = n).
Proof.
  intros Hinj t.
  assert (each_event aligned t) as Hall.
  { apply run_aligned; [by apply phaseSyncedSettle_running|].
    pose proof (constructed_built uuidv1 Hinj jobList _ (init_built uuidv1 c h)) as HB.
    destruct (registered_inv uuidv1 Hinj _ HB) as [HI0 Hp0].
    set (s4 := registered (constructed uuidv1 jobList (init c h))) in *.
    assert (phaseSyncedSettle uuidv1 jobList c h = advance s4) as ->.
    { rewrite phaseSyncedSettle_unfold. cbv zeta. unfold advance. by rewrite Hp0. }
    apply aligned_advance; [done|].
    apply each_event_split. intros later o past Ht.
    assert (o ∈ trace s4) as Ho.
    { rewrite Ht, elem_of_app. right. left. }
    apply (built_quiet _ _ HB) in Ho. destruct o; try done.
    simpl in Ho. destruct Ho as [-> _]. done. }
  split; [done|]. split.
  - intros later i n w past Ht.
    exact (proj1 (each_event_split aligned t) Hall later _ past Ht).
  - intros later i n past Ht.
    exact (proj1 (each_event_split aligned t) Hall later _ past Ht).
Qed.

Lemma counters_keep_step_witness :
  let t := trace (run ex_sched (phaseSyncedSettle ex_uuidv1 ex_jobList (Some 2%Z) ex_heap)) in
  each_event aligned t ∧
  (∀ later i n w past, t = later ++ ObsWork i (S n) w :: past → phases past = S n) ∧
  (∀ later i n past, t = later ++ ObsStepDone i n :: past → phases past = n).
Proof.
  exact (counters_keep_step ex_uuidv1 ex_jobList (Some 2%Z) ex_heap ex_sched
           ex_uuidv1_inj).
Defined.

(** ** One report for each job and phase *)

(** A report comes from a job that the running phase is still waiting
    for. *)
Definition due (o : Obs) (past : list Obs) : Prop :=
  match o with
  | ObsStepDone i _ | ObsJobDone i => i ∈ owing past
  | _ => True
  end.

(** The reports are due, and a job whose function has settled is still
    pending. *)
Definition Due (s : State) : Prop :=
  each_event due (trace s) ∧
  ∀ j h r, syncers s !! j = Some h → jobPromise h = Settled r →
           id h ∈ phasePendingJobs s.

Lemma due_readies (l : list Id) (t : list Obs) :
  each_event due t → each_event due (reverse (ObsReady <$> l) ++ t).
Proof.
  revert t. induction l as [|i l IH]; intros t Ht; simpl; [done|].
  rewrite reverse_cons, <- app_assoc. apply IH. simpl. done.
Qed.

Lemma Settled_fired (st : Status) (r : Result) : wake st = Settled r → st = Settled r.
Proof. by destruct st. Qed.

Lemma Due_advance (s : State) :
  Inv s → each_event due (trace s) →
  (∀ j h r, syncers s !! j = Some h → jobPromise h = Settled r →
            id h ∈ jobs s ∧ (phasePendingJobs s ≠ [] → id h ∈ phasePendingJobs s)) →
  Due (advance s).
Proof.
  intros HI Ht Hs.
  destruct (advance_cases s HI) as [[Hp ->]|[(Hp & _ & ->)|(Hp & i & q & Hq & ->)]].
  - split; simpl.
    + apply due_readies. simpl. done.
    + intros j h' r Hj Hr. rewrite list_lookup_fmap in Hj.
      destruct (syncers s !! j) as [h|] eqn:Hh; simplify_eq/=.
      destruct (fire_ready_status h) as (Hid & _ & Hst).
      unfold fire_all in *.
      destruct (decide (id h ∈ slice (jobs s) 0 (concurrency s))).
      * rewrite Hid. rewrite Hst in Hr. apply (Hs j h r Hh).
        case_decide; [done|]. by apply Settled_fired.
      * by apply (Hs j h r Hh).
  - split; [done|]. intros j h r Hj Hr. by apply (Hs j h r).
  - split; simpl; [done|].
    intros j h' r Hj Hr. rewrite list_lookup_fmap in Hj.
    destruct (syncers s !! j) as [h|] eqn:Hh; simplify_eq/=.
    destruct (fire_ready_status h) as (Hid & _ & Hst).
    unfold fire in *. destruct (decide (id h = i)).
    + rewrite Hid. rewrite Hst in Hr. apply (Hs j h r Hh); [|done].
      case_decide; [done|]. by apply Settled_fired.
    + by apply (Hs j h r Hh).
Qed.

Lemma run_Due (sched : list nat) (s : State) : Running s → Due s → Due (run sched s).
Proof.
  intros HR HQ0.
  refine (run_invariant Due _ _ _ _ _ _ sched s HR HQ0).
  - intros a w s0 this k _ [Ht Hs] Ha _. unfold work. rewrite Ha.
    split; [simpl; done|]. exact Hs.
  - intros a s0 this k k' _ [Ht Hs] Ha Hst. split; [exact Ht|].
    intros j h r Hj Hr. simpl in Hj. destruct (decide (j = a)) as [->|Hne].
    + rewrite list_lookup_alter_eq, Ha in Hj. by simplify_eq/=.
    + rewrite list_lookup_alter_ne in Hj by done. by apply (Hs j h r).
  - intros a s0 this k r0 [HI HG] [Ht Hs] Ha Hst. split; [exact Ht|].
    intros j h r Hj Hr. simpl in Hj. destruct (decide (j = a)) as [->|Hne].
    + rewrite list_lookup_alter_eq, Ha in Hj. simplify_eq/=.
      pose proof (Inv_job _ _ _ HI Ha) as (_ & _ & Hok). rewrite Hst in Hok.
      destruct Hok as (_ & _ & _ & [H0|Hin] & _); [lia|done].
    + rewrite list_lookup_alter_ne in Hj by done. by apply (Hs j h r).
  - intros a s0 this k k' _ [Ht Hs] Ha Hst _. split; [simpl; done|].
    intros j h r Hj Hr. simpl in Hj. destruct (decide (j = a)) as [->|Hne].
    + rewrite list_lookup_alter_eq, Ha in Hj. by simplify_eq/=.
    + rewrite list_lookup_alter_ne in Hj by done. by apply (Hs j h r).
  - intros a s0 this k k' [HI HG] [Ht Hs] Ha Hst H0 HI'.
    pose proof (Inv_job _ _ _ HI Ha) as (_ & _ & Hok). rewrite Hst in Hok.
    apply Due_advance; [done| |].
    + simpl. split; [|done]. rewrite <- (inv_owing s0 HI).
      destruct Hok as (_ & _ & _ & [H1|Hin] & _); [lia|done].
    + intros j h r Hj Hr. simpl in Hj. destruct (decide (j = a)) as [->|Hne].
      { rewrite list_lookup_alter_eq, Ha in Hj. by simplify_eq/=. }
      rewrite list_lookup_alter_ne in Hj by done.
      pose proof (Inv_job _ _ _ HI Hj) as (_ & _ & Hokj). rewrite Hr in Hokj.
      split; [simpl; tauto|]. intros _. simpl. apply elem_of_Set_delete.
      split; [by apply (Hs j h r)|].
      intros Hid. apply Hne. by eapply (Inv_id_inj s0).
  - intros a s0 this r0 [HI HG] [Ht Hs] Ha Hst HI'.
    apply Due_advance; [done| |].
    + simpl. split; [|done]. rewrite <- (inv_owing s0 HI). by apply (Hs a this r0).
    + intros j h r Hj Hr. simpl in Hj. destruct (decide (j = a)) as [->|Hne].
      { rewrite list_lookup_alter_eq, Ha in Hj. by simplify_eq/=. }
      rewrite list_lookup_alter_ne in Hj by done.
      pose proof (Inv_job _ _ _ HI Hj) as (_ & _ & Hokj). rewrite Hr in Hokj.
      assert (id h ≠ id this) as Hid.
      { intros Hid. apply Hne. by eapply (Inv_id_inj s0). }
      split; simpl; rewrite elem_of_Set_delete; [tauto|].
      intros _. split; [by apply (Hs j h r)|done].
Qed.

(** X15 (one report per phase).
    Each job reports once in a phase.  In the trace of every run, a
    ['stepDone'] or ['jobDone'] comes from a job of the snapshot of the
    running phase that has not reported since the phase started; so two
    reports of one job are in different phases, and [phasePendingJobs]
    loses exactly one job with every report. *)
Theorem one_report_per_phase (uuidv1 : nat → Id) (jobList : list Descriptor)
    (c : option Z) (h : gmap Ref (list Value)) (sched : list nat) :
  (∀ a b, uuidv1 a = uuidv1 b → a = b) →
  let t := trace (run sched (phaseSyncedSettle uuidv1 jobList c h)) in
  each_event due t ∧
  (∀ later o past i, t = later ++ o :: past → reports i o → i ∈ owing past) ∧
  (∀ later o2 mid o1 past i, t = later ++ o2 :: mid ++ o1 :: past →
     reports i o1 → reports i o2 → 0 < phases mid).
Proof.
  intros Hinj t.
  assert (each_event due t) as Hall.
  { apply run_Due; [by apply phaseSyncedSettle_running|].
    pose proof (constructed_built uuidv1 Hinj jobList _ (init_built uuidv1 c h)) as HB.
    destruct (registered_inv uuidv1 Hinj _ HB) as [HI0 Hp0].
    set (s4 := registered (constructed uuidv1 jobList (init c h))) in *.
    assert (phaseSyncedSettle uuidv1 jobList c h = advance s4) as ->.
    { rewrite phaseSyncedSettle_unfold. cbv zeta. unfold advance. by rewrite Hp0. }
    apply Due_advance; [done| |].
    - apply each_event_split. intros later o past Ht.
      assert (o ∈ trace s4) as Ho.
      { rewrite Ht, elem_of_app. right. left. }
      apply (built_quiet _ _ HB) in Ho. by destruct o.
    - intros j x r Hj Hr. pose proof (Inv_job _ _ _ HI0 Hj) as (_ & _ & Hok).
      rewrite Hr in Hok. split; [tauto|]. by rewrite Hp0. }
  assert (∀ later o past i, t = later ++ o :: past → reports i o → i ∈ owing past)
    as Hdue.
  { intros later o past i Ht Hr.
    pose proof (proj1 (each_event_split due t) Hall later o past Ht) as Ho.
    destruct Hr as [[n ->]| ->]; exact Ho. }
  split; [done|]. split; [done|].
  intros later o2 mid o1 past i Ht Hr1 Hr2.
  pose proof (Hdue later o2 (mid ++ o1 :: past) i Ht Hr2) as Hin.
  destruct (phases mid) as [|n] eqn:Hph; [|lia]. exfalso.
  rewrite (cons_middle o1 mid past), app_assoc in Hin.
  revert Hin. apply owing_after_report.
  - unfold phases in *. rewrite count_app, Hph. simpl.
    destruct Hr1 as [[n ->]| ->]; done.
  - exists o1. split; [|done]. rewrite elem_of_app. right. left.
Qed.

Lemma one_report_per_phase_witness :
  let t := trace (run ex_sched (phaseSyncedSettle ex_uuidv1 ex_jobList (Some 2%Z) ex_heap)) in
  each_event due t ∧
  (∀ later o past i, t = later ++ o :: past → reports i o → i ∈ owing past) ∧
  (∀ later o2 mid o1 past i, t = later ++ o2 :: mid ++ o1 :: past →
     reports i o1 → reports i o2 → 0 < phases mid).
Proof.
  exact (one_report_per_phase ex_uuidv1 ex_jobList (Some 2%Z) ex_heap ex_sched
           ex_uuidv1_inj).
Defined.

(** ** A job that never calls [phase()] *)

Fixpoint phase_free (k : Job) : bool :=
  match k with
  | Return _ | Throw _ => true
  | Work _ k' | Await k' => phase_free k'
  | AwaitPhase _ => false
  end.

(** The job at [me] does not wait for the coordinator and never will. *)
Definition free (h : PhaseSyncer) : Prop :=
  match jobPromise h with
  | Runnable k => phase_free k = true
  | Waiting _ => False
  | _ => True
  end.

Definition Free (me : nat) (s : State) : Prop :=
  ∃ this, syncers s !! me = Some this ∧ free this.

Lemma exec_free (me : nat) (k : Job) (s : State) :
  phase_free k = true →
  ∃ st, syncers (exec me k s) = alter (set_jobPromise st) me (syncers s) ∧
        ∀ h, free (set_jobPromise st h).
Proof.
  revert s. induction k as [v|e|w k IH|k IH|k IH]; intros s Hk; try done.
  - by exists (Settled (Fulfilled v)).
  - by exists (Settled (Rejected e)).
  - simpl. destruct (IH (work me w s) Hk) as (st & Hst & Hfree).
    exists st. by rewrite Hst, syncers_work.
  - by exists (Runnable k).
Qed.

Lemma free_fire_all (L : list Id) (h : PhaseSyncer) : free h → free (fire_all L h).
Proof.
  intros Hf. unfold fire_all. case_decide; [|done].
  unfold fire_ready. destruct (jobEmitter h); [done|].
  unfold free in *. simpl. by destruct (jobPromise h).
Qed.

Lemma step_Free (me j : nat) (s : State) : Running s → Free me s → Free me (step j s).
Proof.
  intros HR (this & Hme & Hf). destruct (decide (j = me)) as [->|Hne].
  - unfold step. rewrite Hme. unfold free in Hf.
    destruct (jobPromise this) as [k|k|r|r] eqn:Hst; [|done| |].
    + destruct (exec_free me k s Hf) as (st & Hst' & Hfree).
      exists (set_jobPromise st this). rewrite Hst'.
      by rewrite list_lookup_alter_eq, Hme.
    + destruct (lookup_frame s (emit_jobDone (id this) s) me this
                  (frame_emit_jobDone _ _) Hme) as (x & Hx & _).
      exists (set_jobPromise (Finished r) x). simpl.
      by rewrite list_lookup_alter_eq, Hx.
    + exists this. unfold free. by rewrite Hst.
  - destruct (step_others j s HR) as (L & later & _ & _ & Ho).
    exists (fire_all L this). rewrite (Ho me) by done. rewrite Hme.
    split; [done|]. by apply free_fire_all.
Qed.

Lemma run_Free (me : nat) (r : list nat) (s : State) :
  Running s → Free me s → Free me (run r s).
Proof.
  revert s. induction r as [|j r IH]; intros s HR HF; [done|].
  simpl. apply IH; [by apply step_inv|by apply step_Free].
Qed.

Lemma step_weight_other (me j : nat) (s : State) :
  Running s → j ≠ me → weights (step j s) !! me = weights s !! me.
Proof.
  intros HR Hne. destruct (syncers s !! j) as [h|] eqn:Hj.
  - destruct (active h) eqn:Hact.
    + destruct (step_active j s h HR Hj Hact) as (w & -> & _).
      by rewrite list_lookup_insert_ne.
    + rewrite step_idle; [done|]. intros ? ?. by simplify_eq.
  - rewrite step_idle; [done|]. intros ? ?. by simplify_eq.
Qed.

Lemma free_active (h : PhaseSyncer) :
  free h → weight (jobPromise h) ≠ 0 → active h = true.
Proof. unfold free, active. by destruct (jobPromise h). Qed.

Lemma run_free (me : nat) (r : list nat) (s : State) (m : nat) :
  Running s → Free me s → weights s !! me = Some m →
  ∃ m', weights (run r s) !! me = Some m' ∧ m' ≤ m ∧ (me ∈ r → m ≠ 0 → m' < m).
Proof.
  revert s m. induction r as [|j r IH]; intros s m HR HF Hm.
  - exists m. split; [done|]. split; [done|]. by intros ?%elem_of_nil.
  - simpl. change (foldl (λ s me, step me s) (step j s) r) with (run r (step j s)).
    pose proof (step_inv j s HR) as HR'.
    pose proof (step_Free me j s HR HF) as HF'.
    destruct (decide (j = me)) as [->|Hne].
    + destruct HF as (this & Hme & Hf).
      assert (m = weight (jobPromise this)) as ->.
      { unfold weights in Hm. rewrite list_lookup_fmap, Hme in Hm. by simplify_eq/=. }
      destruct (decide (weight (jobPromise this) = 0)) as [H0|H0].
      * destruct (IH (step me s) (weight (jobPromise this)) HR' HF')
          as (m' & Hm' & Hle & _).
        { rewrite step_idle; [done|]. intros x Hx.
          assert (x = this) as -> by congruence.
          unfold active. by destruct (jobPromise this). }
        exists m'. split; [done|]. split; [done|]. done.
      * destruct (step_active me s this HR Hme (free_active this Hf H0))
          as (w & Hw & Hlt).
        destruct (IH (step me s) w HR' HF') as (m' & Hm' & Hle & _).
        { rewrite Hw. rewrite list_lookup_insert_eq; [done|].
          unfold weights. rewrite length_fmap. by eapply lookup_lt_Some. }
        exists m'. split; [done|]. split; [lia|]. intros _ _. lia.
    + destruct (IH (step j s) m HR' HF') as (m' & Hm' & Hle & Hlt).
      { by rewrite step_weight_other. }
      exists m'. split; [done|]. split; [done|].
      intros [?|Hin]%elem_of_cons; [done|]. by apply Hlt.
Qed.

Lemma rounds_free (me : nat) (rounds : list (list nat)) (s : State) (m : nat) :
  Running s → Free me s → weights s !! me = Some m →
  Forall (λ r, me ∈ r) rounds → m ≤ length rounds →
  weights (run (concat rounds) s) !! me = Some 0.
Proof.
  revert s m. induction rounds as [|r rounds IH]; intros s m HR HF Hm Hfair Hle.
  - simpl in *. assert (m = 0) as -> by lia. done.
  - apply Forall_cons in Hfair as [Hr Hfair]. simpl. rewrite run_app.
    destruct (run_free me r s m HR HF Hm) as (m' & Hm' & Hle' & Hlt).
    apply (IH (run r s) m'); [by apply run_inv|by apply run_Free|done..|].
    simpl in Hle. destruct (decide (m = 0)) as [->|H0]; [lia|].
      specialize (Hlt Hr H0). lia.
Qed.

Lemma Free_start (uuidv1 : nat → Id) (jobList : list Descriptor)
    (c : option Z) (h : gmap Ref (list Value)) (me : nat) (d : Descriptor) :
  (∀ a b, uuidv1 a = uuidv1 b → a = b) →
  jobList !! me = Some d → (∀ a, phase_free (fun_ d a) = true) →
  Free me (phaseSyncedSettle uuidv1 jobList c h).
Proof.
  intros Hinj Hme Hd.
  assert (Free me (constructed uuidv1 jobList (init c h))) as (this & Hthis & Hf).
  { destruct (list_elem_of_split_length _ _ _ Hme) as (l1 & l2 & -> & ->).
    rewrite constructed_app. simpl.
    fold (constructed uuidv1 l2
            (construct (uuidv1 (length (syncers (constructed uuidv1 l1 (init c h))))) d
               (constructed uuidv1 l1 (init c h)))).
    pose proof (constructed_built uuidv1 Hinj l1 _ (init_built uuidv1 c h)) as HB.
    set (s1 := constructed uuidv1 l1 (init c h)) in *.
    assert (length (syncers s1) = length l1) as Hl.
    { unfold s1. rewrite length_syncers_constructed. simpl. lia. }
    pose proof (construct_built uuidv1 Hinj d s1 HB) as HB'.
    rewrite <- Hl. unfold Free. rewrite constructed_unheard.
    - unfold construct.
      match goal with
      | |- ∃ this, syncers (exec ?m ?body ?s2) !! _ = _ ∧ _ =>
          destruct (exec_free m body s2 (Hd _)) as (st & Hst & Hfree)
      end.
      rewrite Hst. simpl. rewrite alter_snoc_last, list_lookup_middle by done.
      eexists. split; [done|]. apply Hfree.
    - apply HB'.
    - rewrite length_syncers_construct. lia. }
  pose proof (constructed_built uuidv1 Hinj jobList _ (init_built uuidv1 c h)) as HB.
  destruct (registered_inv uuidv1 Hinj _ HB) as [HI0 Hp0].
  rewrite phaseSyncedSettle_unfold. cbv zeta.
  change (set_handlers true _) with (registered (constructed uuidv1 jobList (init c h))).
  rewrite startNewPhase_eq by apply HI0.
  eexists. simpl. rewrite list_lookup_fmap, Hthis. simpl. split; [done|].
  by apply free_fire_all.
Qed.

(** X16 (a job that never calls phase()).
    A job whose function never calls [phase()] cannot be held up: whatever
    the cap and whatever the other jobs do (they may all be waiting for a
    ['ready'] that never comes), there is a number [N] such that once the
    event loop has given the job [N] turns its [jobPromise] has settled,
    with the outcome of its function. *)
Theorem free_job_completes (uuidv1 : nat → Id) (jobList : list Descriptor)
    (c : option Z) (h : gmap Ref (list Value)) (me : nat) (d : Descriptor) :
  (∀ a b, uuidv1 a = uuidv1 b → a = b) →
  jobList !! me = Some d → (∀ a, phase_free (fun_ d a) = true) →
  ∃ N, ∀ rounds,
    N ≤ length rounds → Forall (λ r, me ∈ r) rounds →
    ∃ this,
      syncers (run (concat rounds) (phaseSyncedSettle uuidv1 jobList c h)) !! me
        = Some this ∧
      jobPromise this = Finished (outcome (fun_ d (argv jobList h me d))).
Proof.
  intros Hinj Hme Hd.
  pose proof (Free_start uuidv1 jobList c h me d Hinj Hme Hd) as HF.
  pose proof (phaseSyncedSettle_running uuidv1 Hinj jobList c h) as HR.
  set (s0 := phaseSyncedSettle uuidv1 jobList c h) in *.
  destruct HF as (this0 & Hthis0 & Hf0).
  exists (weight (jobPromise this0)). intros rounds Hle Hfair.
  assert (weights (run (concat rounds) s0) !! me = Some 0) as Hw.
  { apply (rounds_free me rounds s0 (weight (jobPromise this0))); [done| | |done..].
    - by exists this0.
    - unfold weights. by rewrite list_lookup_fmap, Hthis0. }
  unfold weights in Hw. rewrite list_lookup_fmap in Hw.
  destruct (syncers (run (concat rounds) s0) !! me) as [this|] eqn:Hthis; [|done].
  simpl in Hw. exists this. split; [done|].
  destruct (jobPromise this) as [k|k|r|r] eqn:Hst; simpl in Hw; try (simplify_eq; lia).
  f_equal.
  assert (outcomes (run (concat rounds) s0) !! me = Some r) as Ho.
  { unfold outcomes. by rewrite list_lookup_fmap, Hthis; simpl; rewrite Hst. }
  unfold s0 in Ho. rewrite outcomes_run, outcomes_phaseSyncedSettle in Ho.
  rewrite (outcomes_constructed uuidv1 jobList c h me d Hme) in Ho.
  by simplify_eq.
Qed.

Lemma free_job_completes_witness :
  let jobList := [mkDescriptor (λ _, two_phases) 0; mkDescriptor (λ _, brief) 1] in
  let d := mkDescriptor (λ _, brief) 1 in
  ∃ N, ∀ rounds,
    N ≤ length rounds → Forall (λ r, 1 ∈ r) rounds →
    ∃ this,
      syncers (run (concat rounds)
                 (phaseSyncedSettle ex_uuidv1 jobList (Some 0%Z) ex_heap)) !! 1
        = Some this ∧
      jobPromise this = Finished (outcome (fun_ d (argv jobList ex_heap 1 d))).
Proof.
  intros jobList d.
  apply (free_job_completes ex_uuidv1 jobList (Some 0%Z) ex_heap 1 d ex_uuidv1_inj).
  - reflexivity.
  - intros a. reflexivity.
Defined.

(** ** The end of a job that rejects *)

(** What either listener does once it has updated the sets, in one
    formula: with nobody pending a phase starts for the jobs that are
    left; otherwise the first queued job, if there is one, is released. *)
Lemma advance_uniform (s : State) :
  Inv s →
  let fresh := bool_decide (phasePendingJobs s = []) in
  let L := if fresh then slice (jobs s) 0 (concurrency s)
           else take 1 (queuedJobs s) in
  advance s =
  mkState (concurrency s) (handlers s) (fire_all L <$> syncers s) (jobMap s) (jobs s)
    (if fresh then slice_from (jobs s) (concurrency s) else drop 1 (queuedJobs s))
    (if fresh then jobs s else phasePendingJobs s)
    (heap s)
    (reverse (ObsReady <$> L)
       ++ (if fresh then [ObsPhaseStart (jobs s)] else []) ++ trace s).
Proof.
  intros HI fresh L. subst fresh L.
  destruct (advance_cases s HI) as [[Hp ->]|[(Hp & Hq & Heq)|(Hp & i & q & Hq & ->)]].
  - by rewrite bool_decide_true.
  - rewrite bool_decide_false, Hq by done. simpl. rewrite fmap_fire_all_nil.
    rewrite Heq. rewrite <- Hq. by destruct s.
  - rewrite bool_decide_false, Hq by done. simpl. f_equal.
    apply list_fmap_ext. intros _ x _. symmetry. apply fire_all_singleton.
Qed.

(** C7 (failure isolation).  Take any job list and any job [me] of it, and
    exchange its function for one that takes the same course (the same
    work, the same calls of [phase()]) but ends in another way: it may
    fulfil where the first rejects.  Run both lists under the same
    schedule.  Then, in every state of the run: the coordinator has
    observed and sent exactly the same (the traces are equal), its three
    sets and the callers' arrays are equal, the object of every other job
    is the same, and job [me] itself stands where it stood, up to the
    value it ends with.  The aggregate has resolved in one run exactly if
    it has in the other, with the same entry for every other job.

    A job that has rejected sends its ['jobDone'] in its next turn, and
    the listener then does for it what it does for any job that ends: it
    deletes the job from [jobs], [queuedJobs] and [phasePendingJobs]; if
    nobody is pending any more it starts the next phase for the jobs that
    are left, signalling ['ready'] to the first [concurrency] of them and
    queueing the rest; otherwise it signals ['ready'] to the first queued
    job, if there is one, and takes it from the queue (the slot is free).
    Every job that is signalled and was waiting is due to resume with
    what follows its [await phase()]; every other job is as it was.

    Once every [jobPromise] has settled the aggregate has resolved (it
    has no other way to end), every job's entry being the way its own
    function ended.  And rejections hold nobody up: if all jobs open with
    [await phase()] and the cap is at least one, then whichever of them
    reject, after enough rounds of the event loop every job has run to
    its end and the aggregate has resolved with every job's own
    outcome. *)
Theorem failure_isolation (uuidv1 : nat → Id) (jobList : list Descriptor)
    (c : option Z) (h : gmap Ref (list Value)) (sched : list nat)
    (me : nat) (d d' : Descriptor) :
  (∀ a b, uuidv1 a = uuidv1 b → a = b) →
  jobList !! me = Some d →
  args d' = args d →
  (∀ a, course (fun_ d' a) = course (fun_ d a)) →
  let s := run sched (phaseSyncedSettle uuidv1 jobList c h) in
  let s' := run sched (phaseSyncedSettle uuidv1 (<[me := d']> jobList) c h) in
  (trace s' = trace s ∧ jobs s' = jobs s ∧ queuedJobs s' = queuedJobs s ∧
   phasePendingJobs s' = phasePendingJobs s ∧ heap s' = heap s ∧
   (∀ j, j ≠ me → syncers s' !! j = syncers s !! j) ∧
   veil_syncer <$> syncers s' !! me = veil_syncer <$> syncers s !! me) ∧
  ((is_Some (aggregate s') ↔ is_Some (aggregate s)) ∧
   ∀ rs rs' j, aggregate s = Some rs → aggregate s' = Some rs' → j ≠ me →
     rs' !! j = rs !! j) ∧
  (∀ j this e, syncers s !! j = Some this → jobPromise this = Settled (Rejected e) →
     let jobs' := Set_delete (id this) (jobs s) in
     let queue' := Set_delete (id this) (queuedJobs s) in
     let pending' := Set_delete (id this) (phasePendingJobs s) in
     let fresh := bool_decide (pending' = []) in
     let L := if fresh then slice jobs' 0 (default 1%Z c) else take 1 queue' in
     (ObsJobDone (id this) ∈ trace (step j s) ∧
      jobs (step j s) = jobs' ∧
      (id this ∉ jobs (step j s)) ∧ (id this ∉ queuedJobs (step j s)) ∧
      (id this ∉ phasePendingJobs (step j s)) ∧
      ∃ this', syncers (step j s) !! j = Some this' ∧ id this' = id this ∧
               jobPromise this' = Finished (Rejected e)) ∧
     trace (step j s) =
       reverse (ObsReady <$> L) ++ (if fresh then [ObsPhaseStart jobs'] else [])
         ++ ObsJobDone (id this) :: trace s ∧
     queuedJobs (step j s) =
       (if fresh then slice_from jobs' (default 1%Z c) else drop 1 queue') ∧
     phasePendingJobs (step j s) = (if fresh then jobs' else pending') ∧
     (∀ ix x k, syncers s !! ix = Some x → jobPromise x = Waiting k → id x ∈ L →
        ∃ x', syncers (step j s) !! ix = Some x' ∧ id x' = id x ∧
              phaseCntr x' = phaseCntr x ∧ jobEmitter x' = 0 ∧
              jobPromise x' = Runnable k ∧
              step ix (step j s) = exec ix k (step j s)) ∧
     (∀ ix x, ix ≠ j → syncers s !! ix = Some x →
        id x ∉ L ∨ (∀ k, jobPromise x ≠ Waiting k) →
        ∃ x', syncers (step j s) !! ix = Some x' ∧ id x' = id x ∧
              phaseCntr x' = phaseCntr x ∧ jobPromise x' = jobPromise x)) ∧
  ((∀ j this, syncers s !! j = Some this → ∃ r, jobPromise this = Finished r) →
   ∃ rs, aggregate s = Some rs ∧ length rs = length jobList ∧
         ∀ j dj, jobList !! j = Some dj →
           rs !! j = Some (outcome (fun_ dj (argv jobList h j dj)))) ∧
  (Forall gated jobList → (1 ≤ default 1%Z c)%Z →
   ∃ N, ∀ rounds,
     N ≤ length rounds →
     Forall (λ r, ∀ j, j < length jobList → j ∈ r) rounds →
     ∃ rs, aggregate (run (concat rounds) (phaseSyncedSettle uuidv1 jobList c h))
             = Some rs ∧
           length rs = length jobList ∧
           ∀ j dj, jobList !! j = Some dj →
             rs !! j = Some (outcome (fun_ dj (argv jobList h j dj)))).
Proof.
  intros Hinj Hme Hargs Hcourse s s'.
  assert (veil me s' = veil me s) as Heq.
  { unfold s, s'. rewrite <- !veil_run.
    by rewrite (veil_phaseSyncedSettle uuidv1 jobList c h me d d'). }
  destruct (aggregate_run uuidv1 jobList c h sched Hinj) as (Hlen & Hids & Hagg).
  destruct (aggregate_run uuidv1 (<[me := d']> jobList) c h sched Hinj)
    as (_ & _ & Hagg').
  fold s in Hlen, Hids, Hagg. fold s' in Hagg'.
  pose proof (run_running uuidv1 Hinj sched jobList c h) as [HI HG]. fold s in HI, HG.
  assert (∀ sched0,
            let sf := run sched0 (phaseSyncedSettle uuidv1 jobList c h) in
            (∀ j this, syncers sf !! j = Some this → ∃ r, jobPromise this = Finished r) →
            ∃ rs, aggregate sf = Some rs ∧ length rs = length jobList ∧
                  ∀ j dj, jobList !! j = Some dj →
                    rs !! j = Some (outcome (fun_ dj (argv jobList h j dj)))) as Hres.
  { intros sched0 sf Hall.
    destruct (aggregate_run uuidv1 jobList c h sched0 Hinj) as (Hlenf & _ & Haggf).
    fold sf in Hlenf, Haggf.
    assert (is_Some (aggregate sf)) as [rs Hrs].
    { rewrite Haggf, mapM_is_Some. apply Forall_lookup. intros j this Hj.
      destruct (Hall j this Hj) as [r Hr]. simpl. unfold settled. rewrite Hr. eauto. }
    exists rs. split; [done|]. rewrite Haggf in Hrs.
    split.
    { apply mapM_Some in Hrs. by rewrite <- (Forall2_length _ _ _ Hrs). }
    intros j dj Hdj.
    rewrite (mapM_settled_lookup _ _ j Hrs).
    assert (j < length (syncers sf)) as Hlt.
    { rewrite Hlenf. by eapply lookup_lt_Some. }
    destruct (lookup_lt_is_Some_2 _ _ Hlt) as [this Hthis].
    rewrite Hthis. simpl. destruct (Hall j this Hthis) as [r Hr].
    unfold settled. rewrite Hr. f_equal.
    assert (outcomes sf !! j = Some r) as Ho.
    { unfold outcomes. by rewrite list_lookup_fmap, Hthis; simpl; rewrite Hr. }
    unfold sf in Ho. rewrite outcomes_run, outcomes_phaseSyncedSettle in Ho.
    rewrite (outcomes_constructed uuidv1 jobList c h j dj Hdj) in Ho.
    by simplify_eq. }
  split; [|split; [|split; [|split]]].
  - split; [exact (f_equal trace Heq)|].
    split; [exact (f_equal jobs Heq)|].
    split; [exact (f_equal queuedJobs Heq)|].
    split; [exact (f_equal phasePendingJobs Heq)|].
    split; [exact (f_equal heap Heq)|].
    split; [intros j Hj; by apply (veil_eq_other me)|].
    pose proof (veil_eq_lookup me me s s' Heq) as Hl.
    by rewrite decide_True in Hl.
  - rewrite Hagg, Hagg'. split.
    + rewrite !mapM_is_Some. split; by apply (veil_eq_settled me).
    + intros rs rs' j Hrs Hrs' Hj.
      rewrite (mapM_settled_lookup _ _ j Hrs), (mapM_settled_lookup _ _ j Hrs').
      by rewrite (veil_eq_other me j s s').
  - intros j this e Hj Hst jobs' queue' pending' fresh L.
    pose proof (step_inv j s (conj HI HG)) as [HI' _].
    pose proof (done_inv j s this (Rejected e) HI Hj Hst) as HIe.
    fold (ended j (Rejected e) this s) in HIe.
    pose proof (advance_uniform _ HIe) as Hadv. cbv zeta in Hadv.
    rewrite <- (step_ended j s this (Rejected e) (inv_handlers s HI) Hj Hst) in Hadv.
    assert (concurrency s = default 1%Z c) as Hcc by apply concurrency_run.
    cbn [ended phasePendingJobs queuedJobs jobs concurrency handlers syncers jobMap
         heap trace set_phasePendingJobs set_queuedJobs set_jobs record upd
         set_syncers] in Hadv.
    rewrite Hcc in Hadv.
    fold jobs' queue' pending' in Hadv. fold fresh in Hadv. fold L in Hadv.
    assert (jobs (step j s) = jobs') as Hjobs by (by rewrite Hadv).
    assert (id this ∉ jobs (step j s)) as Hout.
    { rewrite Hjobs. unfold jobs'. rewrite elem_of_Set_delete. tauto. }
    assert (∀ ix x, ix ≠ j → syncers s !! ix = Some x →
              syncers (step j s) !! ix = Some (fire_all L x)) as Hother.
    { intros ix x Hne Hx. rewrite Hadv. simpl.
      by rewrite list_lookup_fmap, list_lookup_alter_ne, Hx. }
    split; [|split; [|split; [|split; [|split]]]].
    + split.
      { rewrite Hadv. simpl. rewrite !elem_of_app. right. right. left. }
      split; [done|]. split; [done|].
      split; [intros Hq; by apply Hout, (inv_pending _ HI'), (inv_queued _ HI')|].
      split; [intros Hp; by apply Hout, (inv_pending _ HI')|].
      unfold step. rewrite Hj, Hst. simpl. rewrite list_lookup_alter_eq.
      destruct (lookup_frame s (emit_jobDone (id this) s) j this
                  (frame_emit_jobDone _ _) Hj) as (x & -> & Hx).
      simpl. eauto.
    + by rewrite Hadv.
    + by rewrite Hadv.
    + by rewrite Hadv.
    + intros ix x k Hx Hw Hin.
      assert (ix ≠ j) as Hne by (intros ->; congruence).
      pose proof (Inv_job _ _ _ HI Hx) as (_ & _ & Hok). rewrite Hw in Hok.
      destruct Hok as (He & _).
      pose proof (Hother ix x Hne Hx) as Hx'.
      destruct (fire_ready_status x) as (Hid & Hcn & Hjp).
      rewrite decide_False in Hjp by done. rewrite Hw in Hjp. simpl in Hjp.
      unfold fire_all in Hx'. rewrite decide_True in Hx' by done.
      exists (fire_ready x). split; [done|]. split; [done|]. split; [done|].
      split; [unfold fire_ready; by destruct (jobEmitter x)|].
      split; [done|]. unfold step at 1. by rewrite Hx', Hjp.
    + intros ix x Hne Hx Hor.
      pose proof (Hother ix x Hne Hx) as Hx'.
      exists (fire_all L x). split; [done|].
      unfold fire_all. case_decide as Hin; [|done].
      destruct (fire_ready_status x) as (Hid & Hcn & Hjp).
      split; [done|]. split; [done|]. rewrite Hjp. case_decide; [done|].
      destruct Hor as [?|Hnw]; [done|].
      destruct (jobPromise x); try done. by destruct (Hnw k).
  - exact (Hres sched).
  - intros Hg Hc.
    exists (total (phaseSyncedSettle uuidv1 jobList c h)).
    intros rounds Hle Hfair. apply (Hres (concat rounds)).
    destruct (aggregate_run uuidv1 jobList c h [] Hinj) as (Hlen0 & _ & _).
    change (run [] ?x) with x in Hlen0.
    apply (rounds_complete (length jobList) rounds); [|done..].
    by apply Live_start.
Qed.

(** The second job of the example rejects with [7]; its fellow takes the
    same course and fulfils with [3]. *)
Definition mended : Job := AwaitPhase (Work 1 (AwaitPhase (Return 3))).

Lemma failure_isolation_witness :
  let d := mkDescriptor (λ _, failing) 1 in
  let d' := mkDescriptor (λ _, mended) 1 in
  let c := Some 2%Z in
  let s := run [0; 1; 2; 0; 1] (phaseSyncedSettle ex_uuidv1 ex_jobList c ex_heap) in
  let s' := run [0; 1; 2; 0; 1]
              (phaseSyncedSettle ex_uuidv1 (<[1 := d']> ex_jobList) c ex_heap) in
  (trace s' = trace s ∧ jobs s' = jobs s ∧ queuedJobs s' = queuedJobs s ∧
   phasePendingJobs s' = phasePendingJobs s ∧ heap s' = heap s ∧
   (∀ j, j ≠ 1 → syncers s' !! j = syncers s !! j) ∧
   veil_syncer <$> syncers s' !! 1 = veil_syncer <$> syncers s !! 1) ∧
  ((is_Some (aggregate s') ↔ is_Some (aggregate s)) ∧
   ∀ rs rs' j, aggregate s = Some rs → aggregate s' = Some rs' → j ≠ 1 →
     rs' !! j = rs !! j) ∧
  (∀ j this e, syncers s !! j = Some this → jobPromise this = Settled (Rejected e) →
     let jobs' := Set_delete (id this) (jobs s) in
     let queue' := Set_delete (id this) (queuedJobs s) in
     let pending' := Set_delete (id this) (phasePendingJobs s) in
     let fresh := bool_decide (pending' = []) in
     let L := if fresh then slice jobs' 0 (default 1%Z c) else take 1 queue' in
     (ObsJobDone (id this) ∈ trace (step j s) ∧
      jobs (step j s) = jobs' ∧
      (id this ∉ jobs (step j s)) ∧ (id this ∉ queuedJobs (step j s)) ∧
      (id this ∉ phasePendingJobs (step j s)) ∧
      ∃ this', syncers (step j s) !! j = Some this' ∧ id this' = id this ∧
               jobPromise this' = Finished (Rejected e)) ∧
     trace (step j s) =
       reverse (ObsReady <$> L) ++ (if fresh then [ObsPhaseStart jobs'] else [])
         ++ ObsJobDone (id this) :: trace s ∧
     queuedJobs (step j s) =
       (if fresh then slice_from jobs' (default 1%Z c) else drop 1 queue') ∧
     phasePendingJobs (step j s) = (if fresh then jobs' else pending') ∧
     (∀ ix x k, syncers s !! ix = Some x → jobPromise x = Waiting k → id x ∈ L →
        ∃ x', syncers (step j s) !! ix = Some x' ∧ id x' = id x ∧
              phaseCntr x' = phaseCntr x ∧ jobEmitter x' = 0 ∧
              jobPromise x' = Runnable k ∧
              step ix (step j s) = exec ix k (step j s)) ∧
     (∀ ix x, ix ≠ j → syncers s !! ix = Some x →
        id x ∉ L ∨ (∀ k, jobPromise x ≠ Waiting k) →
        ∃ x', syncers (step j s) !! ix = Some x' ∧ id x' = id x ∧
              phaseCntr x' = phaseCntr x ∧ jobPromise x' = jobPromise x)) ∧
  ((∀ j this, syncers s !! j = Some this → ∃ r, jobPromise this = Finished r) →
   ∃ rs, aggregate s = Some rs ∧ length rs = length ex_jobList ∧
         ∀ j dj, ex_jobList !! j = Some dj →
           rs !! j = Some (outcome (fun_ dj (argv ex_jobList ex_heap j dj)))) ∧
  (Forall gated ex_jobList → (1 ≤ default 1%Z c)%Z →
   ∃ N, ∀ rounds,
     N ≤ length rounds →
     Forall (λ r, ∀ j, j < length ex_jobList → j ∈ r) rounds →
     ∃ rs, aggregate (run (concat rounds)
                        (phaseSyncedSettle ex_uuidv1 ex_jobList c ex_heap))
             = Some rs ∧
           length rs = length ex_jobList ∧
           ∀ j dj, ex_jobList !! j = Some dj →
             rs !! j = Some (outcome (fun_ dj (argv ex_jobList ex_heap j dj)))).
Proof.
  intros d d' c.
  apply (failure_isolation ex_uuidv1 ex_jobList c ex_heap [0; 1; 2; 0; 1] 1 d d'
           ex_uuidv1_inj).
  - reflexivity.
  - reflexivity.
  - intros a. reflexivity.
Defined.

(** In the example, with a cap of two, the second job has rejected while
    the third is queued for phase two; the ['jobDone'] of the rejected job
    releases the third, which runs on to its end, and so does the first;
    the aggregate holds the rejection between their values. *)
Example rejection_frees_the_slot :
  let s := run [0; 1; 2; 0; 1]
             (phaseSyncedSettle ex_uuidv1 ex_jobList (Some 2%Z) ex_heap) in
  (jobPromise <$> syncers s) =
    [Settled (Fulfilled 10); Settled (Rejected 7); Waiting (Work 2 (Return 10))] ∧
  queuedJobs s = [102] ∧ phasePendingJobs s = [100; 101; 102] ∧
  trace (step 1 s) = [ObsReady 102; ObsJobDone 101] ++ trace s ∧
  (jobPromise <$> syncers (step 1 s)) =
    [Settled (Fulfilled 10); Finished (Rejected 7); Runnable (Work 2 (Return 10))] ∧
  queuedJobs (step 1 s) = [] ∧ phasePendingJobs (step 1 s) = [100; 102] ∧
  aggregate (run [1; 2; 2; 0] s) = Some [Fulfilled 10; Rejected 7; Fulfilled 10].
Proof. vm_compute. repeat split; reflexivity. Qed.
